(** * Markov: a Markov (normal) algorithm interpreter

    A shallow embedding of [src/markov.js] and a verification of its
    specification.  The file follows the layout of the source:

    - the host facilities the source relies on (ECMAScript strings, the
      regular-expression matcher behind [RegExp.prototype.exec] and
      [String.prototype.search], and [String.prototype.replace] with a string
      pattern);
    - [Markov.Statement]  (module [Statement]);
    - [Markov.Algorithm]  (module [Algorithm]);
    - [Markov.Runner]     (module [Runner]);
    - the theorems, one per claim of the specification;
    - further properties of the three components, read off the source:
      [regexpEscape], the constructor and the errors of [compile], the
      array operations of the algorithm, and how [run] ends. *)

From Stdlib Require Import String Ascii.
From Stdlib Require Import List NArith ZArith Lia Bool Arith Sorted.
Import ListNotations.

(* ================================================================== *)
(** * ECMAScript strings *)
(* ================================================================== *)

(** An ECMAScript string is a finite sequence of 16-bit code units.  A code
    unit is modelled by its number. *)
Definition code_unit := N.
Definition jsstring := list code_unit.

(** [js "..."] is the ECMAScript string whose code units are the characters
    of an ASCII literal. *)
Definition js (s : string) : jsstring :=
  List.map N_of_ascii (list_ascii_of_string s).

Definition jsstring_eqb (a b : jsstring) : bool :=
  if list_eq_dec N.eq_dec a b then true else false.

Module Chars.
Definition bang    : code_unit := 33%N.  (* ! *)
Definition hash    : code_unit := 35%N.  (* # *)
Definition dollar  : code_unit := 36%N.  (* $ *)
Definition amp     : code_unit := 38%N.  (* & *)
Definition quote   : code_unit := 39%N.  (* ' *)
Definition lparen  : code_unit := 40%N.  (* ( *)
Definition rparen  : code_unit := 41%N.  (* ) *)
Definition star    : code_unit := 42%N.  (* * *)
Definition plus    : code_unit := 43%N.  (* + *)
Definition comma   : code_unit := 44%N.  (* , *)
Definition minus   : code_unit := 45%N.  (* - *)
Definition dot     : code_unit := 46%N.  (* . *)
Definition slash   : code_unit := 47%N.  (* / *)
Definition equal   : code_unit := 61%N.  (* = *)
Definition gt      : code_unit := 62%N.  (* > *)
Definition quest   : code_unit := 63%N.  (* ? *)
Definition lbrack  : code_unit := 91%N.  (* [ *)
Definition bslash  : code_unit := 92%N.  (* \ *)
Definition rbrack  : code_unit := 93%N.  (* ] *)
Definition caret   : code_unit := 94%N.  (* ^ *)
Definition btick   : code_unit := 96%N.  (* ` *)
Definition lbrace  : code_unit := 123%N. (* { *)
Definition bar     : code_unit := 124%N. (* | *)
Definition rbrace  : code_unit := 125%N. (* } *)
Definition space   : code_unit := 32%N.
End Chars.

(** The class [\s] of ECMAScript regular expressions: WhiteSpace and
    LineTerminator code points. *)
Definition is_line_terminator (c : code_unit) : bool :=
  (N.eqb c 10 || N.eqb c 13 || N.eqb c 8232 || N.eqb c 8233)%N.

Definition is_white_space (c : code_unit) : bool :=
  (N.eqb c 9 || N.eqb c 11 || N.eqb c 12 || N.eqb c 32 || N.eqb c 160
   || N.eqb c 5760 || (N.leb 8192 c && N.leb c 8202)
   || N.eqb c 8239 || N.eqb c 8287 || N.eqb c 12288 || N.eqb c 65279)%N.

Definition is_space (c : code_unit) : bool :=
  is_white_space c || is_line_terminator c.

(** The class [\S]. *)
Definition non_space (c : code_unit) : bool := negb (is_space c).

(* ================================================================== *)
(** * The regular-expression matcher *)
(* ================================================================== *)

(** The source uses regular expressions twice: [Statement.REGEX.exec] in
    [Statement.compile], and [String.prototype.search], which builds a
    regular expression from its string argument.  [Regex] models the
    backtracking matcher of ECMAScript for the constructs these two uses
    need.  A matcher maps a state to the list of the states in which it can
    end, in the order in which backtracking tries them; the head of the list
    is the match ECMAScript reports. *)
Module Regex.

Inductive regex : Type :=
| Empty                                  (* the empty alternative *)
| CharSet (p : code_unit -> bool)        (* a character or a class *)
| Seq (a b : regex)                      (* a b *)
| Alt (a b : regex)                      (* a|b *)
| Star (a : regex)                       (* a*, greedy *)
| Plus (a : regex)                       (* a+, greedy *)
| Opt (a : regex)                        (* a?, greedy *)
| Group (n : nat) (a : regex)            (* the n-th capturing group *)
| Bol                                    (* ^ *)
| Eol.                                   (* $ *)

(** The part of the input not yet consumed, and the captures so far. *)
Record MatchState : Type := mkState {
  rest : jsstring;
  captures : list (nat * jsstring)
}.

Definition capture (n : nat) (caps : list (nat * jsstring)) : option jsstring :=
  option_map snd (find (fun e => Nat.eqb (fst e) n) caps).

(** The capturing groups inside a regular expression. *)
Fixpoint groups (r : regex) : list nat :=
  match r with
  | Empty | CharSet _ | Bol | Eol => []
  | Seq a b | Alt a b => groups a ++ groups b
  | Star a | Plus a | Opt a => groups a
  | Group n a => n :: groups a
  end.

(** Every iteration of a quantifier starts with the captures of the
    quantified atom undefined. *)
Definition clear (gs : list nat) (x : MatchState) : MatchState :=
  mkState (rest x)
          (filter (fun e => negb (existsb (Nat.eqb (fst e)) gs)) (captures x)).

Definition progress (x y : MatchState) : bool :=
  negb (Nat.eqb (length (rest y)) (length (rest x))).

Section Repeat.
Variable m : MatchState -> list MatchState.
Variable gs : list nat.

(** RepeatMatcher with min = 0 and max = infinity, greedy: one more
    iteration first, which must consume input, then the continuation.
    An iteration consumes at least one code unit, hence [fuel] larger
    than the length of the rest is never used up. *)
Fixpoint repeat_greedy (fuel : nat) (x : MatchState) : list MatchState :=
  match fuel with
  | O => [x]
  | S fuel' =>
      flat_map (fun y => if progress x y then repeat_greedy fuel' y else [])
               (m (clear gs x))
      ++ [x]
  end.
End Repeat.

Section Matcher.
(** The whole input: [^] matches where nothing has been consumed. *)
Variable input : jsstring.

Fixpoint matchR (r : regex) (x : MatchState) : list MatchState :=
  match r with
  | Empty => [x]
  | CharSet p =>
      match rest x with
      | c :: t => if p c then [mkState t (captures x)] else []
      | [] => []
      end
  | Seq a b => flat_map (matchR b) (matchR a x)
  | Alt a b => matchR a x ++ matchR b x
  | Star a => repeat_greedy (matchR a) (groups a) (S (length (rest x))) x
  | Plus a =>
      flat_map (fun y => repeat_greedy (matchR a) (groups a)
                                       (S (length (rest y))) y)
               (matchR a (clear (groups a) x))
  | Opt a =>
      filter (progress x) (matchR a (clear (groups a) x)) ++ [x]
  | Group n a =>
      List.map (fun y =>
             mkState (rest y)
                     ((n, firstn (length (rest x) - length (rest y)) (rest x))
                        :: captures y))
          (matchR a x)
  | Bol => if Nat.eqb (length (rest x)) (length input) then [x] else []
  | Eol => match rest x with [] => [x] | _ :: _ => [] end
  end.

(** One attempt at a start index. *)
Definition match_at (r : regex) (i : nat) : option MatchState :=
  hd_error (matchR r (mkState (skipn i input) [])).

(** RegExpBuiltinExec without the global and sticky flags: the start
    indices 0, 1, ..., length are tried in turn. *)
Fixpoint exec_from (r : regex) (i : nat) (tries : nat)
  : option (nat * MatchState) :=
  match match_at r i with
  | Some y => Some (i, y)
  | None => match tries with
            | O => None
            | S tries' => exec_from r (S i) tries'
            end
  end.

Definition exec (r : regex) : option (nat * MatchState) :=
  exec_from r 0 (length input).
End Matcher.

Definition chr (c : code_unit) : regex := CharSet (N.eqb c).
Definition any_of (cs : list code_unit) : regex :=
  CharSet (fun c => existsb (N.eqb c) cs).
Definition seqs (rs : list regex) : regex := fold_right Seq Empty rs.

(** [.] without the dotAll flag. *)
Definition any_char : regex := CharSet (fun c => negb (is_line_terminator c)).
(** [\s] *)
Definition white : regex := CharSet is_space.
End Regex.

(* ================================================================== *)
(** * String.prototype.replace and String.prototype.search *)
(* ================================================================== *)

(** What a call evaluates to: a value, or an abrupt completion.  The model
    of [new RegExp(pattern)] covers a fragment of the pattern syntax, see
    [RegExpCreate]; a pattern outside of it completes with
    [OutsideFragment], about which nothing is claimed. *)
Inductive abrupt : Type := SyntaxError | OutsideFragment.

Inductive completion (A : Type) : Type :=
| Normal (a : A)
| Abrupt (e : abrupt).
Arguments Normal {A} a.
Arguments Abrupt {A} e.

Module JSString.
Import Regex.

Fixpoint is_prefix (p s : jsstring) : bool :=
  match p, s with
  | [], _ => true
  | _ :: _, [] => false
  | a :: p', b :: s' => N.eqb a b && is_prefix p' s'
  end.

(** StringIndexOf(string, searchValue, 0): the first index at which
    [searchValue] occurs, if any. *)
Fixpoint indexOf (s pat : jsstring) : option nat :=
  if is_prefix pat s then Some O
  else match s with
       | [] => None
       | _ :: s' => option_map S (indexOf s' pat)
       end.

(** GetSubstitution for a string pattern: there are no captures, so the
    only active patterns of the replacement template are [$$], [$&],
    [$`] and [$']; a [$] before anything else stands for itself. *)
Fixpoint GetSubstitution (matched before after template : jsstring)
  : jsstring :=
  match template with
  | [] => []
  | c :: t =>
      if N.eqb c Chars.dollar then
        match t with
        | d :: t' =>
            if N.eqb d Chars.dollar then
              Chars.dollar :: GetSubstitution matched before after t'
            else if N.eqb d Chars.amp then
              matched ++ GetSubstitution matched before after t'
            else if N.eqb d Chars.btick then
              before ++ GetSubstitution matched before after t'
            else if N.eqb d Chars.quote then
              after ++ GetSubstitution matched before after t'
            else c :: GetSubstitution matched before after t
        | [] => [c]
        end
      else c :: GetSubstitution matched before after t
  end.

(** [s.replace(searchValue, replaceValue)] with two strings: the first
    occurrence of [searchValue] is replaced by the substitution of
    [replaceValue]; without an occurrence [s] is returned. *)
Definition replace (s searchValue replaceValue : jsstring) : jsstring :=
  match indexOf s searchValue with
  | None => s
  | Some pos =>
      let before := firstn pos s in
      let after := skipn (pos + length searchValue) s in
      before ++ GetSubstitution searchValue before after replaceValue ++ after
  end.

(** ** new RegExp(pattern)

    The fragment of the pattern syntax that is modelled: pattern
    characters, [.], a backslash before a syntax character or [/],
    [^], [$], [|] and the greedy quantifiers [*], [+], [?] after an
    atom.  Groups, classes, braces, the other escapes and lazy
    quantifiers are [OutsideFragment].  A quantifier with nothing to
    repeat and a trailing backslash are syntax errors. *)
Definition is_syntax_character (c : code_unit) : bool :=
  existsb (N.eqb c)
    [Chars.caret; Chars.dollar; Chars.bslash; Chars.dot; Chars.star;
     Chars.plus; Chars.quest; Chars.lparen; Chars.rparen; Chars.lbrack;
     Chars.rbrack; Chars.lbrace; Chars.rbrace; Chars.bar].

Definition is_quantifier (c : code_unit) : bool :=
  N.eqb c Chars.star || N.eqb c Chars.plus || N.eqb c Chars.quest.

Definition quantify (q : code_unit) (a : regex) : regex :=
  if N.eqb q Chars.star then Star a
  else if N.eqb q Chars.plus then Plus a
  else Opt a.

Definition is_bracket (c : code_unit) : bool :=
  existsb (N.eqb c)
    [Chars.lparen; Chars.rparen; Chars.lbrack; Chars.rbrack;
     Chars.lbrace; Chars.rbrace].

(** The terms of one alternative.  [atom] is the atom read last, when a
    quantifier may still follow it; [done] holds the finished terms of
    the alternative, last first. *)
Definition close_atom (atom : option regex) (done : list regex)
  : list regex :=
  match atom with Some a => a :: done | None => done end.

Definition alternative (atom : option regex) (done : list regex) : regex :=
  seqs (rev (close_atom atom done)).

Fixpoint parse (p : jsstring) (atom : option regex) (done : list regex)
  : completion regex :=
  match p with
  | [] => Normal (alternative atom done)
  | c :: p' =>
      if is_quantifier c then
        match atom with
        | None => Abrupt SyntaxError
        | Some a =>
            match p' with
            | d :: _ =>
                if N.eqb d Chars.quest then Abrupt OutsideFragment
                else parse p' None (quantify c a :: done)
            | [] => parse p' None (quantify c a :: done)
            end
        end
      else if N.eqb c Chars.bar then
        match parse p' None [] with
        | Normal r => Normal (Alt (alternative atom done) r)
        | Abrupt e => Abrupt e
        end
      else if N.eqb c Chars.caret then
        parse p' None (Bol :: close_atom atom done)
      else if N.eqb c Chars.dollar then
        parse p' None (Eol :: close_atom atom done)
      else if N.eqb c Chars.dot then
        parse p' (Some any_char) (close_atom atom done)
      else if N.eqb c Chars.bslash then
        match p' with
        | [] => Abrupt SyntaxError
        | d :: p'' =>
            if is_syntax_character d || N.eqb d Chars.slash then
              parse p'' (Some (chr d)) (close_atom atom done)
            else Abrupt OutsideFragment
        end
      else if is_bracket c then Abrupt OutsideFragment
      else parse p' (Some (chr c)) (close_atom atom done)
  end.

Definition RegExpCreate (pattern : jsstring) : completion regex :=
  parse pattern None [].

(** [s.search(pattern)] with a string [pattern]: the string is turned
    into a regular expression, and the result is the index of its first
    match in [s], or -1. *)
Definition search (s pattern : jsstring) : completion Z :=
  match RegExpCreate pattern with
  | Normal r =>
      match exec s r with
      | Some (i, _) => Normal (Z.of_nat i)
      | None => Normal (-1)%Z
      end
  | Abrupt e => Abrupt e
  end.

(** ** replace with a global regular expression

    [s.replace(r, template)] where [r] has the flag [g] and no capturing
    group, and [template] is a string.  RegExpBuiltinExec is called
    again and again, each time from [lastIndex], which a match leaves at
    its end, and which is advanced by one after an empty match; the
    call fails once [lastIndex] is beyond the length.  [matches] gives
    every match by its index and its end.  A match moves [lastIndex] on
    by one at least, so there are no more than [length s + 1] of
    them. *)
Fixpoint matches (s : jsstring) (r : regex) (lastIndex : nat) (fuel : nat)
  : list (nat * nat) :=
  match fuel with
  | O => []
  | S fuel' =>
      if Nat.ltb (length s) lastIndex then []
      else
        match exec_from s r lastIndex (length s - lastIndex) with
        | None => []
        | Some (index, y) =>
            let e := length s - length (rest y) in
            (index, e)
              :: matches s r (if Nat.eqb e index then S e else e) fuel'
        end
  end.

(** The result is put together from the matches: what stands between
    [nextSourcePosition] and a match, then the substitution of the
    template for the match; what is left of [s] comes last. *)
Fixpoint substitute (s template : jsstring) (results : list (nat * nat))
    (nextSourcePosition : nat) : jsstring :=
  match results with
  | [] => skipn nextSourcePosition s
  | (position, e) :: results' =>
      if Nat.leb nextSourcePosition position then
        firstn (position - nextSourcePosition) (skipn nextSourcePosition s)
          ++ GetSubstitution (firstn (e - position) (skipn position s))
               (firstn position s) (skipn e s) template
          ++ substitute s template results' e
      else substitute s template results' nextSourcePosition
  end.

Definition replace_global (s : jsstring) (r : regex) (template : jsstring)
  : jsstring :=
  substitute s template (matches s r 0 (S (S (length s)))) 0.
End JSString.

(* ================================================================== *)
(** * Markov.Statement *)
(* ================================================================== *)

Module Statement.
Import Regex JSString.

(** The compiled form of a rewrite rule: [from], [to] and [closing]. *)
Record t : Type := mk {
  from : jsstring;
  to : jsstring;
  closing : bool
}.

(** [[^\s!\.]] *)
Definition word_char (c : code_unit) : bool :=
  negb (is_space c || N.eqb c Chars.bang || N.eqb c Chars.dot).

(** [\!?[^\s!\.]*\!?], the body of the first and of the third group. *)
Definition side : regex :=
  seqs [Opt (chr Chars.bang); Star (CharSet word_char); Opt (chr Chars.bang)].

(** [Statement.REGEX]:
    [/^\s*(\!?[^\s!\.]*\!?)\s*[=-]\s*>\s*(\.)*\s*(\!?[^\s!\.]*\!?)\s*$/i].
    The flag [i] changes nothing: no character of the expression has
    another case. *)
Definition REGEX : regex :=
  seqs [Bol; Star white;
        Group 1 side;
        Star white; any_of [Chars.equal; Chars.minus]; Star white;
        chr Chars.gt; Star white;
        Star (Group 2 (chr Chars.dot)); Star white;
        Group 3 side;
        Star white; Eol].

(** The class [[-{}()*+?.,\\^$|#\s]] of [Statement.regexpEscape]. *)
Definition escaped (c : code_unit) : bool :=
  existsb (N.eqb c)
    [Chars.minus; Chars.lbrace; Chars.rbrace; Chars.lparen; Chars.rparen;
     Chars.star; Chars.plus; Chars.quest; Chars.dot; Chars.comma;
     Chars.bslash; Chars.caret; Chars.dollar; Chars.bar; Chars.hash]
  || is_space c.

(** [Statement.regexpEscape]:
    [text.replace(/[-{}()*+?.,\\^$|#\s]/g, "\\$&")], the template being
    a backslash followed by [$&]. *)
Definition regexpEscape (text : jsstring) : jsstring :=
  replace_global text (CharSet escaped)
    [Chars.bslash; Chars.dollar; Chars.amp].

(** The errors [Statement.compile] throws, by their messages. *)
Inductive error : Type :=
| InvalidStatement      (* 'Invalid statement: ' *)
| NoLHS                 (* 'Invalid statement, there is no LHS: ' *)
| NoRHS                 (* 'Invalid statement, there is no RHS: ' *)
| DoubleEmptyLHS        (* '... LHS contains two empty word denominators: ' *)
| DoubleEmptyRHS.       (* '... RHS contains two empty word denominators: ' *)

Inductive result : Type :=
| Compiled (s : t)
| Throws (e : error).

(** [Statement.prototype.setFrom]: the value the property [from] gets.
    The assignment to the parameter [from] after the test of
    [from.search('!')] changes a local variable only. *)
Definition setFrom (from : jsstring) : jsstring :=
  let clean := replace (replace from [Chars.bang] []) [Chars.bang] [] in
  if jsstring_eqb from [Chars.bang] then clean
  else
    let from' :=
      match search from [Chars.bang] with
      | Normal 0%Z => replace from [Chars.bang] []
      | _ => from
      end in
    clean.

(** [Statement.prototype.setTo]: the value the property [to] gets. *)
Definition setTo (to : jsstring) : jsstring :=
  replace (replace to [Chars.bang] []) [Chars.bang] [].

(** The constructor [Statement(from, to, closing)]. *)
Definition new (from to : jsstring) (closing : bool) : t :=
  mk (setFrom from) (setTo to) closing.

(** The array [Statement.REGEX.exec(statement)] returns: the three
    groups, the second one undefined when no dot was read. *)
Definition REGEX_exec (statement : jsstring)
  : option (jsstring * option jsstring * jsstring) :=
  match exec statement REGEX with
  | None => None
  | Some (_, y) =>
      Some (match capture 1 (captures y) with Some g => g | None => [] end,
            capture 2 (captures y),
            match capture 3 (captures y) with Some g => g | None => [] end)
  end.

(** [Statement.compile] *)
Definition compile (statement : jsstring) : result :=
  match REGEX_exec statement with
  | None => Throws InvalidStatement
  | Some (c1, c2, c3) =>
      if Nat.ltb (length c1) 1 then Throws NoLHS
      else if Nat.ltb (length c3) 1 then Throws NoRHS
      else if jsstring_eqb c1 [Chars.bang; Chars.bang]
      then Throws DoubleEmptyLHS
      else if jsstring_eqb c3 [Chars.bang; Chars.bang]
      then Throws DoubleEmptyRHS
      else Compiled (new c1 c3
                       (match c2 with Some _ => true | None => false end))
  end.

(** [Statement.prototype.toString] *)
Definition toString (s : t) : jsstring :=
  (if Nat.ltb (length (from s)) 1 then [Chars.bang] else from s)
    ++ (if closing s then js " ->. " else js " -> ")
    ++ (if Nat.ltb (length (to s)) 1 then [Chars.bang] else to s).
End Statement.

(* ================================================================== *)
(** * Markov.Algorithm *)
(* ================================================================== *)

Module Algorithm.

(** The object has one property, the array [statements]. *)
Record t : Type := mk { statements : list Statement.t }.

(** The constructor. *)
Definition new : t := mk [].

(** [Array.prototype.slice(start, end)] at integer arguments; [end]
    may be left out.  A negative index counts from the end. *)
Definition relative (len : nat) (i : Z) : nat :=
  if (i <? 0)%Z then Z.to_nat (Z.max (Z.of_nat len + i) 0)
  else Z.to_nat (Z.min i (Z.of_nat len)).

Definition slice {A} (l : list A) (start : Z) (stop : option Z) : list A :=
  let k := relative (length l) start in
  let final := match stop with
               | Some e => relative (length l) e
               | None => length l
               end in
  firstn (final - k) (skipn k l).

Definition hasStatements (a : t) : bool :=
  Nat.ltb 0 (length (statements a)).

(** [getStatements] returns a new array with the same elements. *)
Definition getStatements (a : t) : list Statement.t := statements a.

(** [getStatement(position)] at an integer position: the element at
    that index, and [None], for [undefined], where the array has
    none. *)
Definition getStatement (position : Z) (a : t) : option Statement.t :=
  if (position <? 0)%Z then None
  else nth_error (statements a) (Z.to_nat position).

(** [setStatement(statement, position)] at an integer position from 0 to
    the length: the previous element, [None] for [undefined], and the
    receiver after the call; the type of [statement] stands for the
    check of the argument.  At the length the array grows by one
    element.  Above the length the assignment leaves holes in the array,
    and below 0 it adds a property that is no element: the result is
    [None] there, the arrays of this model being lists. *)
Definition setStatement (statement : Statement.t) (position : Z) (a : t)
  : option (option Statement.t * t) :=
  if (position <? 0)%Z || (Z.of_nat (length (statements a)) <? position)%Z
  then None
  else
    let i := Z.to_nat position in
    Some (nth_error (statements a) i,
          mk (firstn i (statements a)
                ++ statement :: skipn (S i) (statements a))).

(** [addStatement(statement, position)]; [position] is [None] when the
    argument is left out, and an integer otherwise.  The source compares
    [statement], not [position], with 0 and with the length: a
    Statement converts to the number NaN (its [toString] always contains
    an arrow), and both comparisons are false.  [typeof] never yields
    ['null'].  The result is the receiver after the call. *)
Definition addStatement (statement : Statement.t) (position : option Z)
    (a : t) : t :=
  match position with
  | None => mk (statements a ++ [statement])
  | Some p =>
      mk (slice (statements a) 0 (Some p)
            ++ [statement]
            ++ slice (statements a) p None)
  end.

(** [Array.prototype.pop] and [Array.prototype.shift]. *)
Definition pop {A} (l : list A) : option A * list A :=
  match rev l with
  | [] => (None, [])
  | x :: l' => (Some x, rev l')
  end.

Definition shift {A} (l : list A) : option A * list A :=
  match l with
  | [] => (None, [])
  | x :: l' => (Some x, l')
  end.

(** [removeStatement(position)]: the value returned ([None] for
    [undefined]) and the receiver after the call. *)
Definition removeStatement (position : option Z) (a : t)
  : option Statement.t * t :=
  let popped := let (x, l) := pop (statements a) in (x, mk l) in
  match position with
  | None => popped
  | Some p =>
      if (Z.of_nat (length (statements a)) - 1 <=? p)%Z then popped
      else if (p <? 0)%Z then
        let (x, l) := shift (statements a) in (x, mk l)
      else
        let statement := nth_error (statements a) (Z.to_nat p) in
        (statement,
         mk (slice (statements a) 0 (Some p)
               ++ slice (statements a) 0 (Some (p + 1)%Z)))
  end.
End Algorithm.

(* ================================================================== *)
(** * Markov.Runner *)
(* ================================================================== *)

Module Runner.
Import JSString.

(** An element of [steps]: [{ context: ..., statement: ... }], the
    statement being [None] for [null]. *)
Record entry : Type := mkEntry {
  entry_context : jsstring;
  entry_statement : option Statement.t
}.

(** The properties of a runner.  [algorithm] is the algorithm the runner
    refers to, as it is while the runner is used. *)
Record t : Type := mk {
  context : jsstring;
  algorithm : Algorithm.t;
  steps : list entry;
  done : bool
}.

(** The constructor [Runner(algorithm, context)]; the types stand for
    its two checks of the arguments. *)
Definition new (algorithm : Algorithm.t) (context : jsstring) : t :=
  mk context algorithm [] false.

(** [Runner.prototype.stop] *)
Definition stop (r : t) : t :=
  mk (context r) (algorithm r) (steps r) true.

(** What the [for] loop of [step] leaves behind: [acted], [statement]
    and the runner. *)
Record scanned : Type := mkScanned {
  acted : bool;
  statement : option Statement.t;
  runner : t
}.

Section Host.
(** [String.prototype.search] belongs to the host.  The runner is defined
    for any function in its place, and [JSString.search] is put there
    when a call is evaluated. *)
Variable search : jsstring -> jsstring -> completion Z.

(** The [for] loop of [step] over the statements not yet looked at;
    [last] is the value of the variable [statement] before them. *)
Fixpoint scan (statements : list Statement.t) (last : option Statement.t)
    (r : t) : completion scanned :=
  match statements with
  | [] => Normal (mkScanned false last r)
  | statement :: statements' =>
      match search (context r) (Statement.from statement) with
      | Abrupt e => Abrupt e
      | Normal index =>
          if (-1 <? index)%Z then
            let context' :=
              replace (context r) (Statement.from statement)
                      (Statement.to statement) in
            Normal (mkScanned true (Some statement)
                      (mk context' (algorithm r)
                          (steps r ++ [mkEntry context' (Some statement)])
                          (done r)))
          else scan statements' (Some statement) r
      end
  end.

(** [Runner.prototype.step]: the completion of the call, with the
    statement returned ([None] for [null]), and the runner after it.
    When [search] throws, the first entry of [steps] may have been
    pushed already. *)
Definition step (r : t) : completion (option Statement.t) * t :=
  if done r then (Normal None, r)
  else
    let r1 :=
      if Nat.ltb (length (steps r)) 1
      then mk (context r) (algorithm r)
              (steps r ++ [mkEntry (context r) None]) (done r)
      else r in
    match scan (Algorithm.getStatements (algorithm r1)) None r1 with
    | Abrupt e => (Abrupt e, r1)
    | Normal s =>
        let closing :=
          match statement s with
          | Some st => Statement.closing st
          | None => false
          end in
        let r2 := if negb (acted s) || closing then stop (runner s)
                  else runner s in
        (Normal (if acted s then statement s else None), r2)
    end.

(** [Runner.prototype.run]: the loop [while (!this.done) this.step()]
    may not end; [fuel] bounds the number of its iterations, and [None]
    says the bound was reached. *)
Fixpoint run_loop (fuel : nat) (r : t) : option (completion unit * t) :=
  if done r then Some (Normal tt, r)
  else match fuel with
       | O => None
       | S fuel' =>
           match step r with
           | (Abrupt e, r') => Some (Abrupt e, r')
           | (Normal _, r') => run_loop fuel' r'
           end
       end.

Definition run (fuel : nat) (r : t) : option (completion bool * t) :=
  if done r then Some (Normal false, r)
  else match run_loop fuel r with
       | None => None
       | Some (Normal _, r') => Some (Normal true, r')
       | Some (Abrupt e, r') => Some (Abrupt e, r')
       end.

(** The test of the loop of [step]: [search] returns an index above -1. *)
Definition applicable (context : jsstring) (s : Statement.t) : bool :=
  match search context (Statement.from s) with
  | Normal index => (-1 <? index)%Z
  | Abrupt _ => false
  end.

(** What a caller does with a runner, one thing after the other: calls
    of [step], whatever they complete with, calls of [stop], and changes
    of the algorithm the runner refers to.  [drive] gives the number of
    calls that applied a statement, and the runner in the end. *)
Inductive call : Type :=
| CallStep
| CallStop
| Mutate (algorithm' : Algorithm.t).

Definition fired (c : completion (option Statement.t)) : bool :=
  match c with Normal (Some _) => true | _ => false end.

Fixpoint drive (cs : list call) (r : t) : nat * t :=
  match cs with
  | [] => (O, r)
  | CallStep :: cs' =>
      let (c, r1) := step r in
      let (n, r2) := drive cs' r1 in
      ((if fired c then 1 else 0) + n, r2)
  | CallStop :: cs' => drive cs' (stop r)
  | Mutate algorithm' :: cs' =>
      drive cs' (mk (context r) algorithm' (steps r) (done r))
  end.
End Host.
End Runner.

(* ================================================================== *)
(** * Terms used to state facts about the matcher and the strings *)
(* ================================================================== *)

Module MatcherTerms.
Import Regex.

(** The input at which a starred class stops: its end, or a character
    outside the class. *)
Definition stops (p : code_unit -> bool) (s : jsstring) : Prop :=
  match s with c :: _ => p c = false | [] => True end.

(** The state after the [n]-th group, entered at [x], was left at [y]. *)
Definition closed (n : nat) (x y : MatchState) : MatchState :=
  mkState (rest y)
    ((n, firstn (length (rest x) - length (rest y)) (rest x))
       :: captures y).

(** The captures without those of the group [n]. *)
Definition without (n : nat) (caps : list (nat * jsstring)) :=
  captures (clear [n] (mkState [] caps)).

(** The captures after [k] iterations of [(d)*], the group being the
    [n]-th. *)
Definition after_dots (n : nat) (d : code_unit) (k : nat)
    (caps : list (nat * jsstring)) :=
  match k with
  | O => caps
  | S _ => (n, [d]) :: without n caps
  end.

(** A string without the code unit [c]. *)
Definition lacks (c : code_unit) (s : jsstring) : Prop :=
  forallb (fun x => negb (N.eqb x c)) s = true.

(** The orders of the states by what they have left, and a string that
    starts inside a class. *)
Definition shorter (a b : MatchState) : Prop :=
  length (rest a) < length (rest b).

Definition not_longer (a b : MatchState) : Prop :=
  length (rest a) <= length (rest b).

Definition starts (p : code_unit -> bool) (s : jsstring) : Prop :=
  exists c t, s = c :: t /\ p c = true.

(** The length of what the first group has captured. *)
Definition first_length (u : MatchState) : nat :=
  match capture 1 (captures u) with
  | Some g => length g
  | None => 0
  end.

(** A pattern without syntax characters of regular expressions. *)
Definition plain (p : jsstring) : bool :=
  forallb (fun c => negb (JSString.is_syntax_character c)) p.
End MatcherTerms.

(* ================================================================== *)
(** * The grammar of statements, in words *)
(* ================================================================== *)

Module Grammar.
Import Statement.

Definition spaces (w : jsstring) : Prop := forallb is_space w = true.

(** The empty word marker, or nothing. *)
Definition marker (b : jsstring) : Prop := b = [] \/ b = [Chars.bang].

(** A side of a statement, [!?[^\s!\.]*\!?]: characters that are neither
    white space, nor [!], nor [.], with an optional marker in front and an
    optional marker behind. *)
Definition Side (t : jsstring) : Prop :=
  exists b1 w b2,
    t = b1 ++ w ++ b2 /\ marker b1 /\ marker b2
    /\ forallb word_char w = true.

(** [Sentence text L k R]: [text] reads as the side [L], [=] or [-],
    [>], [k] dots and the side [R], with optional white space around
    each of these parts. *)
Definition Sentence (text L : jsstring) (k : nat) (R : jsstring) : Prop :=
  exists w1 w2 a w3 w4 w5 w6,
    text = w1 ++ L ++ w2 ++ a :: w3 ++ Chars.gt :: w4
              ++ repeat Chars.dot k ++ w5 ++ R ++ w6
    /\ spaces w1 /\ spaces w2 /\ spaces w3 /\ spaces w4 /\ spaces w5
    /\ spaces w6
    /\ (a = Chars.equal \/ a = Chars.minus)
    /\ Side L /\ Side R.

(** What is left after the longest run inside a class, and that run. *)
Fixpoint skip_while (p : code_unit -> bool) (s : jsstring) : jsstring :=
  match s with
  | c :: t => if p c then skip_while p t else s
  | [] => []
  end.

Fixpoint take_while (p : code_unit -> bool) (s : jsstring) : jsstring :=
  match s with
  | c :: t => if p c then c :: take_while p t else []
  | [] => []
  end.

(** The number of dots and the right side, read off what follows [>]. *)
Definition read_dots (z : jsstring) : nat :=
  length (take_while (N.eqb Chars.dot) (skip_while is_space z)).

Definition read_right (z : jsstring) : jsstring :=
  take_while non_space
    (skip_while is_space
       (skip_while (N.eqb Chars.dot) (skip_while is_space z))).

(** [Reads text L k R]: of all the sentences [text] reads as, this is
    one with a longest left side. *)
Definition Reads (text L : jsstring) (k : nat) (R : jsstring) : Prop :=
  Sentence text L k R
  /\ forall L' k' R', Sentence text L' k' R' -> length L' <= length L.

(** The second group of a match with [k] dots. *)
Definition dots_group (k : nat) : option jsstring :=
  match k with O => None | S _ => Some [Chars.dot] end.

(** A side as [toString] renders it: the marker alone, or a non-empty
    word without white space, [!] and [.]. *)
Definition rendered (t : jsstring) : Prop :=
  t = [Chars.bang] \/ (t <> [] /\ forallb word_char t = true).

(** What may follow a side: white space, or the end of the text. *)
Definition ends (s : jsstring) : Prop :=
  match s with c :: _ => is_space c = true | [] => True end.

(** The state in which [Statement.REGEX] ends on a text that reads as
    [L], [k] dots and [R]. *)
Definition final (L : jsstring) (k : nat) (R : jsstring)
  : Regex.MatchState :=
  Regex.mkState []
    ((3, R) :: MatcherTerms.after_dots 2 Chars.dot k [(1, L)]).

(** What [toString] writes between the sides. *)
Definition arrow (c : bool) : jsstring :=
  if c then js " ->. " else js " -> ".

(** A side without its markers. *)
Definition unmarked (t : jsstring) : jsstring :=
  filter (fun c => negb (N.eqb c Chars.bang)) t.

(** A stored side as [toString] writes it. *)
Definition shown (w : jsstring) : jsstring :=
  match w with [] => [Chars.bang] | _ :: _ => w end.

(** The doubled marker. *)
Definition doubled : jsstring := [Chars.bang; Chars.bang].

(** A statement made by [compile], or by the constructor from sides
    that [compile] would let pass. *)
Definition validated (t : jsstring) : Prop :=
  Side t /\ t <> [] /\ t <> doubled.

Definition validly_constructed (r : Statement.t) : Prop :=
  (exists text, compile text = Compiled r)
  \/ (exists f t c, validated f /\ validated t /\ r = new f t c).

(** The texts the specification lists as malformed. *)
Definition malformed_examples : list jsstring :=
  [js "invalid statement"; js "a -> "; js " -> b"; js "!! -> b";
   js "a -> !!"].

(** The statement [a ->. !]. *)
Definition roundtrip_example : Statement.t :=
  mk (js "a") [] true.
End Grammar.

(* ================================================================== *)
(** * The grammar of the specification *)
(* ================================================================== *)

(** The specification words the grammar of [compile] as
    [^\s*(LHS)\s*(->|=>)\s*(\.)?\s*(RHS)\s*$] with LHS and RHS maximal
    runs without white space; a text is accepted when it matches, both
    sides are present and none is the doubled marker.  [Spec] follows these
    words, to be compared with [Statement.compile]; the sides are read as
    [\S*], which lets pass every text these words let pass. *)
Module Spec.
Import Regex.

Definition GRAMMAR : regex :=
  seqs [Bol; Star white;
        Group 1 (Star (CharSet non_space));
        Star white;
        Alt (Seq (chr Chars.minus) (chr Chars.gt))
            (Seq (chr Chars.equal) (chr Chars.gt));
        Star white;
        Opt (Group 2 (chr Chars.dot)); Star white;
        Group 3 (Star (CharSet non_space));
        Star white; Eol].

Definition accepts (text : jsstring) : bool :=
  match exec text GRAMMAR with
  | None => false
  | Some (_, y) =>
      match capture 1 (captures y), capture 3 (captures y) with
      | Some lhs, Some rhs =>
          negb (jsstring_eqb lhs []) && negb (jsstring_eqb rhs [])
          && negb (jsstring_eqb lhs [Chars.bang; Chars.bang])
          && negb (jsstring_eqb rhs [Chars.bang; Chars.bang])
      | _, _ => false
      end
  end.

(** [compile] fails exactly on the texts the grammar does not accept. *)
Definition compile_fails_exactly_when_rejected (text : jsstring) : Prop :=
  (exists e, Statement.compile text = Statement.Throws e)
  <-> accepts text = false.
End Spec.

(* ================================================================== *)
(** * Terms used to state what the runner does *)
(* ================================================================== *)

Module Behaviour.
Import JSString Runner.

(** The runner [step] scans with. *)
Definition opened (r : Runner.t) : Runner.t :=
  if Nat.ltb (length (steps r)) 1
  then mk (context r) (algorithm r)
          (steps r ++ [mkEntry (context r) None]) (done r)
  else r.

(** The runner after a statement was applied. *)
Definition rewritten (r : Runner.t) (s : Statement.t) : Runner.t :=
  let context' :=
    replace (context r) (Statement.from s) (Statement.to s) in
  mk context' (algorithm r)
     (steps r ++ [mkEntry context' (Some s)]) (done r).

Section Host.
Variable search : jsstring -> jsstring -> completion Z.

(** [search] finds the pattern of none of the statements. *)
Definition none_applicable (c : jsstring) (l : list Statement.t) : Prop :=
  forallb (fun s => negb (applicable search c s)) l = true.

(** All a call of [step] on a running runner can do. *)
Inductive stepped (r : Runner.t) : completion (option Statement.t) * Runner.t
                                   -> Prop :=
| stepped_none :
    none_applicable (context r) (Algorithm.statements (algorithm r)) ->
    stepped r (Normal None, stop (opened r))
| stepped_applied pre s post :
    Algorithm.statements (algorithm r) = pre ++ s :: post ->
    none_applicable (context r) pre ->
    applicable search (context r) s = true ->
    stepped r (Normal (Some s),
               if Statement.closing s
               then stop (rewritten (opened r) s)
               else rewritten (opened r) s)
| stepped_abrupt pre s post e :
    Algorithm.statements (algorithm r) = pre ++ s :: post ->
    none_applicable (context r) pre ->
    search (context r) (Statement.from s) = Abrupt e ->
    stepped r (Abrupt e, opened r).
End Host.

(** The steps begin with the initial context and no statement, there
    is one more of them than statements were applied, and the last one
    holds the context of the runner. *)
Definition recorded (initial : jsstring) (n : nat) (r : Runner.t) : Prop :=
  hd_error (steps r) = Some (mkEntry initial None)
  /\ length (steps r) = n + 1
  /\ option_map entry_context (hd_error (rev (steps r)))
     = Some (context r).

(** What a call of [step] appends to the steps: the initial entry on
    the first use, and an entry for the statement applied. *)
Definition initial_entry (r : Runner.t) : list entry :=
  if negb (done r) && Nat.ltb (length (steps r)) 1
  then [mkEntry (context r) None] else [].

(** What a call appends for the statement it applied. *)
Definition appended (c : completion (option Statement.t)) (r' : Runner.t)
  : list entry :=
  match c with
  | Normal (Some s) => [mkEntry (context r') (Some s)]
  | _ => []
  end.

(** The algorithm made of the statements that the texts compile to. *)
Definition algorithm_of (texts : list jsstring) : Algorithm.t :=
  fold_left
    (fun a text =>
       match Statement.compile text with
       | Statement.Compiled s => Algorithm.addStatement s None a
       | Statement.Throws _ => a
       end)
    texts Algorithm.new.

(** A runner with one closing statement that applies, and the runner
    after the statement was applied. *)
Definition closing_statement : Statement.t :=
  Statement.mk (js "a") (js "b") true.

Definition closing_example : Runner.t :=
  Runner.new (Algorithm.mk [closing_statement]) (js "a").

Definition closing_example_done : Runner.t :=
  Runner.mk (js "b") (Algorithm.mk [closing_statement])
    [mkEntry (js "a") None; mkEntry (js "b") (Some closing_statement)]
    true.
End Behaviour.

(* ================================================================== *)
(** * Terms used to state further properties of the code *)
(* ================================================================== *)

Module StatementTerms.
Import JSString Statement.

(** A code unit as [Statement.regexpEscape] writes it: with a backslash
    before it when it is in the class, as it is otherwise. *)
Definition escape_unit (c : code_unit) : jsstring :=
  if escaped c then [Chars.bslash; c] else [c].

(** A code unit whose escaped form is inside the modelled fragment of
    the pattern syntax: not [-], [,], [#] or white space, which
    [regexpEscape] puts a backslash before, and not [[] or []], which it
    leaves alone. *)
Definition escapable (c : code_unit) : bool :=
  negb (N.eqb c Chars.minus || N.eqb c Chars.comma || N.eqb c Chars.hash
        || is_space c || N.eqb c Chars.lbrack || N.eqb c Chars.rbrack).

(** The index [search] returns for what [indexOf] finds. *)
Definition found (i : option nat) : Z :=
  match i with Some i => Z.of_nat i | None => (-1)%Z end.

(** [s] without the first [c] in it. *)
Fixpoint remove_first (c : code_unit) (s : jsstring) : jsstring :=
  match s with
  | [] => []
  | a :: s' => if N.eqb a c then s' else a :: remove_first c s'
  end.

(** The number of markers in a string. *)
Definition markers (s : jsstring) : nat := count_occ N.eq_dec s Chars.bang.

(** A stored side that is a word: without white space, [!] and [.]. *)
Definition word (w : jsstring) : Prop := forallb word_char w = true.
End StatementTerms.

Module AlgorithmTerms.

(** Three statements to tell apart, and an algorithm made of them. *)
Definition first : Statement.t := Statement.mk (js "a") (js "b") false.
Definition second : Statement.t := Statement.mk (js "b") (js "c") false.
Definition third : Statement.t := Statement.mk (js "c") (js "d") true.
Definition three : Algorithm.t := Algorithm.mk [first; second; third].
End AlgorithmTerms.

Module RunnerTerms.
Import JSString Runner.

(** The entries after the first one: each holds a statement, and the
    context that [replace] makes with it of the context before. *)
Fixpoint chained (c : jsstring) (es : list entry) : Prop :=
  match es with
  | [] => True
  | e :: es' =>
      (exists s, entry_statement e = Some s
                 /\ entry_context e
                    = replace c (Statement.from s) (Statement.to s))
      /\ chained (entry_context e) es'
  end.

(** The context of the last entry, [c] when there is none. *)
Definition final_context (c : jsstring) (es : list entry) : jsstring :=
  fold_left (fun _ e => entry_context e) es c.

(** Steps that begin with the initial context and no statement, and go
    on from context to context by the statements they name, up to the
    context of the runner. *)
Definition derivation (initial : jsstring) (r : Runner.t) : Prop :=
  exists es, steps r = mkEntry initial None :: es
             /\ chained initial es
             /\ final_context initial es = context r.

(** The pattern occurs in the context. *)
Definition occurs (p c : jsstring) : Prop := exists u v, c = u ++ p ++ v.

(** [c'] is [c] with the leftmost occurrence of the pattern of [s]
    replaced by its replacement. *)
Definition rewrites (c : jsstring) (s : Statement.t) (c' : jsstring)
  : Prop :=
  exists u v,
    c = u ++ Statement.from s ++ v
    /\ c' = u ++ Statement.to s ++ v
    /\ forall u' v', c = u' ++ Statement.from s ++ v' ->
                     length u <= length u'.

(** A statement that [search] and [replace] take literally: no syntax
    character in the pattern, no [$] in the replacement. *)
Definition literal (s : Statement.t) : Prop :=
  MatcherTerms.plain (Statement.from s) = true
  /\ MatcherTerms.lacks Chars.dollar (Statement.to s).

(** A literal statement whose replacement is shorter than its pattern. *)
Definition shrinking (s : Statement.t) : Prop :=
  literal s /\ length (Statement.to s) < length (Statement.from s).

(** The runner [run] leaves when no statement applies to the initial
    context. *)
Definition halted_at_once (a : Algorithm.t) (c : jsstring) : Runner.t :=
  mk c a [mkEntry c None] true.

(** A runner whose only statement has the empty pattern, and one whose
    only statement shrinks the context. *)
Definition growing_example : Runner.t :=
  new (Algorithm.mk [Statement.mk [] (js "x") false]) (js "ab").

Definition shrinking_example : Runner.t :=
  new (Algorithm.mk [Statement.mk (js "ab") (js "c") false]) (js "ab").

(** A runner whose only statement has a pattern that, read as a regular
    expression, matches the context without occurring in it. *)
Definition idle_example : Runner.t :=
  new (Algorithm.mk [Statement.mk (js "a*") (js "x") false]) (js "b").
End RunnerTerms.

(* ================================================================== *)
(** * Facts about [indexOf] and [replace] *)
(* ================================================================== *)

Module JSStringFacts.
Import JSString MatcherTerms.

Lemma is_prefix_app p s : is_prefix p (p ++ s) = true.
Proof. induction p; simpl; [reflexivity|]. now rewrite N.eqb_refl. Qed.

Lemma is_prefix_spec p s :
  is_prefix p s = true <-> exists t, s = p ++ t.
Proof.
  split.
  - revert s. induction p as [|a p IH]; intros s H; [now exists s|].
    destruct s as [|b s]; [discriminate|]. simpl in H.
    apply andb_true_iff in H as [E H]. apply N.eqb_eq in E as ->.
    destruct (IH _ H) as (t & ->). now exists t.
  - intros (t & ->). apply is_prefix_app.
Qed.

(** [indexOf] finds an occurrence, and the first one. *)
Lemma indexOf_Some s pat : forall i,
  indexOf s pat = Some i ->
  exists u v, s = u ++ pat ++ v /\ length u = i.
Proof.
  induction s as [|a s IH]; intros i; simpl.
  - destruct (is_prefix pat []) eqn:P; [|discriminate].
    intros [= <-]. apply is_prefix_spec in P as (t & E).
    exists [], t. auto.
  - destruct (is_prefix pat (a :: s)) eqn:P.
    + intros [= <-]. apply is_prefix_spec in P as (t & E).
      exists [], t. auto.
    + destruct (indexOf s pat) as [j|]; [|discriminate].
      intros [= <-]. destruct (IH j eq_refl) as (u & v & -> & L).
      exists (a :: u), v. simpl. auto.
Qed.

Lemma indexOf_None s pat :
  indexOf s pat = None -> forall u v, s <> u ++ pat ++ v.
Proof.
  induction s as [|a s IH]; simpl.
  - destruct (is_prefix pat []) eqn:P; [discriminate|].
    intros _ u v E. destruct u; [|discriminate]. simpl in E.
    rewrite E, is_prefix_app in P. discriminate.
  - destruct (is_prefix pat (a :: s)) eqn:P; [discriminate|].
    destruct (indexOf s pat) eqn:I; [discriminate|].
    intros _ u v E. destruct u as [|b u]; simpl in E.
    + rewrite E, is_prefix_app in P. discriminate.
    + injection E as _ E. now apply (IH eq_refl u v).
Qed.

Lemma indexOf_first s pat i :
  indexOf s pat = Some i ->
  forall u v, s = u ++ pat ++ v -> i <= length u.
Proof.
  revert i. induction s as [|a s IH]; intros i; simpl.
  - destruct (is_prefix pat []); [|discriminate]. intros [= <-]. lia.
  - destruct (is_prefix pat (a :: s)) eqn:P; [intros [= <-]; lia|].
    destruct (indexOf s pat) as [j|]; [|discriminate].
    intros [= <-] u v E. destruct u as [|b u]; simpl in E.
    + rewrite E, is_prefix_app in P. discriminate.
    + injection E as _ E. specialize (IH j eq_refl u v E). simpl. lia.
Qed.

Lemma indexOf_nil s : indexOf s [] = Some 0.
Proof. destruct s; reflexivity. Qed.

Lemma indexOf_char_absent c s : lacks c s -> indexOf s [c] = None.
Proof.
  unfold lacks. induction s as [|a s IH]; simpl; [reflexivity|].
  intros H. apply andb_true_iff in H as [H1 H2].
  rewrite N.eqb_sym in H1. apply negb_true_iff in H1. rewrite H1. simpl.
  now rewrite IH.
Qed.

Lemma indexOf_char_found c w s :
  lacks c w -> indexOf (w ++ c :: s) [c] = Some (length w).
Proof.
  unfold lacks. induction w as [|a w IH]; simpl.
  - now rewrite N.eqb_refl.
  - intros H. apply andb_true_iff in H as [H1 H2].
    rewrite N.eqb_sym in H1. apply negb_true_iff in H1. rewrite H1. simpl.
    now rewrite IH.
Qed.

(** [s.replace(c, '')] takes the first [c] out of [s]. *)
Lemma replace_char_absent c s : lacks c s -> replace s [c] [] = s.
Proof. intros H. unfold replace. now rewrite indexOf_char_absent. Qed.

Lemma replace_char_found c w s :
  lacks c w -> replace (w ++ c :: s) [c] [] = w ++ s.
Proof.
  intros H. unfold replace. rewrite indexOf_char_found by assumption.
  cbn [GetSubstitution app length].
  rewrite firstn_app, Nat.sub_diag, firstn_all, skipn_app. simpl.
  rewrite app_nil_r.
  replace (length w + 1 - length w) with 1 by lia.
  rewrite skipn_all2 by lia. reflexivity.
Qed.

Lemma replace_char_head c s : replace (c :: s) [c] [] = s.
Proof. exact (@replace_char_found c [] s eq_refl). Qed.

Lemma lacks_app c u v : lacks c (u ++ v) <-> lacks c u /\ lacks c v.
Proof. unfold lacks. rewrite forallb_app. apply andb_true_iff. Qed.

(** A replacement without [$] is substituted as it is. *)
Lemma GetSubstitution_plain m b a t :
  lacks Chars.dollar t -> GetSubstitution m b a t = t.
Proof.
  unfold lacks. induction t as [|c t IH]; simpl; [reflexivity|].
  intros H. apply andb_true_iff in H as [H1 H2].
  apply negb_true_iff in H1. rewrite H1. now rewrite IH.
Qed.
(** ** [search] on patterns without syntax characters *)

Lemma plain_cons c p :
  plain (c :: p) = true ->
  is_syntax_character c = false /\ plain p = true.
Proof.
  unfold plain. cbn [forallb]. rewrite andb_true_iff, negb_true_iff. auto.
Qed.

Lemma not_syntax_character c :
  is_syntax_character c = false ->
  is_quantifier c = false /\ N.eqb c Chars.bar = false
  /\ N.eqb c Chars.caret = false /\ N.eqb c Chars.dollar = false
  /\ N.eqb c Chars.dot = false /\ N.eqb c Chars.bslash = false
  /\ is_bracket c = false.
Proof.
  unfold is_syntax_character, is_quantifier, is_bracket. cbn [existsb].
  rewrite !orb_false_iff. tauto.
Qed.

Lemma parse_plain p : forall atom done,
  plain p = true ->
  parse p atom done
  = Normal (Regex.seqs (rev (close_atom atom done) ++ map Regex.chr p)).
Proof.
  induction p as [|c p IH]; intros atom done P.
  - cbn [parse map]. unfold alternative. now rewrite app_nil_r.
  - apply plain_cons in P as [C P].
    apply not_syntax_character in C as (Q & B & A & D & T & S & K).
    cbn [parse]. rewrite Q, B, A, D, T, S, K, (IH _ _ P).
    cbn [close_atom rev map]. now rewrite <- app_assoc.
Qed.

Lemma RegExpCreate_plain p :
  plain p = true -> RegExpCreate p = Normal (Regex.seqs (map Regex.chr p)).
Proof. intros P. unfold RegExpCreate. now rewrite parse_plain. Qed.

Lemma matchR_plain input p : forall x,
  Regex.matchR input (Regex.seqs (map Regex.chr p)) x
  = if is_prefix p (Regex.rest x)
    then [Regex.mkState (skipn (length p) (Regex.rest x)) (Regex.captures x)]
    else [].
Proof.
  induction p as [|a p IH]; intros [s caps]; cbn [map Regex.seqs fold_right].
  - reflexivity.
  - fold (Regex.seqs (map Regex.chr p)).
    cbn [Regex.matchR Regex.chr Regex.rest Regex.captures is_prefix].
    destruct s as [|b s]; [reflexivity|].
    destruct (N.eqb a b); cbn [flat_map andb]; [|reflexivity].
    rewrite IH, app_nil_r. reflexivity.
Qed.

Lemma exec_from_plain s p : forall tries i,
  i + tries = length s ->
  option_map fst (Regex.exec_from s (Regex.seqs (map Regex.chr p)) i tries)
  = option_map (Nat.add i) (indexOf (skipn i s) p).
Proof.
  induction tries as [|tries IH]; intros i E; cbn [Regex.exec_from];
    unfold Regex.match_at; rewrite matchR_plain; cbn [Regex.rest].
  - rewrite skipn_all2 by lia. cbn [indexOf].
    destruct (is_prefix p []); cbn; [now rewrite Nat.add_0_r | reflexivity].
  - destruct (skipn i s) as [|b t] eqn:K.
    + exfalso. apply (f_equal (@length _)) in K.
      rewrite length_skipn in K. cbn in K. lia.
    + cbn [indexOf]. destruct (is_prefix p (b :: t)); cbn [hd_error].
      * cbn. now rewrite Nat.add_0_r.
      * rewrite IH by lia.
        assert (T : skipn (S i) s = t).
        { replace (S i) with (1 + i) by lia.
          rewrite <- skipn_skipn, K. reflexivity. }
        rewrite T. destruct (indexOf t p); cbn; [f_equal; lia | reflexivity].
Qed.

(** On a pattern without syntax characters, [search] is [indexOf]. *)
Lemma search_plain s p :
  plain p = true ->
  search s p
  = Normal (match indexOf s p with
            | Some i => Z.of_nat i
            | None => (-1)%Z
            end).
Proof.
  intros P. unfold search. rewrite (RegExpCreate_plain p P).
  pose proof (exec_from_plain s p (length s) 0 eq_refl) as H.
  unfold Regex.exec. cbn [skipn] in H.
  destruct (Regex.exec_from s _ 0 (length s)) as [[i y]|];
    destruct (indexOf s p); cbn in H; congruence.
Qed.

(** The empty pattern is found in every context, at its start, and the
    substitution of the replacement is put in front. *)
Lemma search_empty s : search s [] = Normal 0%Z.
Proof. rewrite search_plain by reflexivity. now rewrite indexOf_nil. Qed.

Lemma replace_empty s t :
  replace s [] t = GetSubstitution [] [] s t ++ s.
Proof. unfold replace. rewrite indexOf_nil. reflexivity. Qed.

(** Without [$] in the replacement, [replace] puts the replacement in
    the place of the first occurrence. *)
Lemma replace_plain s p t i :
  lacks Chars.dollar t -> indexOf s p = Some i ->
  replace s p t = firstn i s ++ t ++ skipn (i + length p) s.
Proof.
  intros L E. unfold replace. rewrite E.
  now rewrite GetSubstitution_plain.
Qed.
End JSStringFacts.

(* ================================================================== *)
(** * Facts about the matcher *)
(* ================================================================== *)

Module RegexFacts.
Import Regex MatcherTerms.

Lemma state_eta (x : MatchState) : mkState (rest x) (captures x) = x.
Proof. destruct x; reflexivity. Qed.

Lemma clear_nil (x : MatchState) : clear [] x = x.
Proof.
  destruct x as [s caps]; unfold clear; simpl. f_equal.
  induction caps as [|e caps IH]; simpl; [reflexivity | now rewrite IH].
Qed.

Lemma progress_cons c t caps caps' :
  progress (mkState (c :: t) caps) (mkState t caps') = true.
Proof.
  unfold progress; simpl. apply negb_true_iff, Nat.eqb_neq. lia.
Qed.

Lemma progress_refl x caps : progress x (mkState (rest x) caps) = false.
Proof. unfold progress; simpl. now rewrite Nat.eqb_refl. Qed.

Lemma hd_error_flat_map {A B} (f : A -> list B) x l y :
  hd_error (f x) = Some y -> hd_error (flat_map f (x :: l)) = Some y.
Proof. simpl. destruct (f x); simpl; [discriminate | auto]. Qed.

Lemma hd_error_in {A} (l : list A) y : hd_error l = Some y -> In y l.
Proof. destruct l; simpl; [discriminate | intros [= ->]; now left]. Qed.

Lemma hd_error_none {A} (l : list A) : hd_error l = None <-> l = [].
Proof. destruct l; simpl; split; congruence. Qed.

Section Input.
Variable input : jsstring.
Local Abbreviation matchR := (matchR input).

Lemma matchR_Star a x :
  matchR (Star a) x
  = repeat_greedy (matchR a) (groups a) (S (length (rest x))) x.
Proof. reflexivity. Qed.

(** The first result of a sequence, when the first result of its head
    lets the tail succeed. *)
Lemma first_Seq a b x z y :
  hd_error (matchR a x) = Some z ->
  hd_error (matchR b z) = Some y ->
  hd_error (matchR (Seq a b) x) = Some y.
Proof.
  simpl. destruct (matchR a x) as [|z' l]; simpl; [discriminate|].
  intros [= ->] H. destruct (matchR b z); simpl in *; congruence.
Qed.

Lemma in_Seq a b x y :
  In y (matchR (Seq a b) x) <->
  exists z, In z (matchR a x) /\ In y (matchR b z).
Proof. simpl. apply in_flat_map. Qed.

Lemma in_Empty x y : In y (matchR Empty x) <-> y = x.
Proof. simpl. intuition. Qed.

Lemma in_CharSet p x y :
  In y (matchR (CharSet p) x) <->
  exists c, rest x = c :: rest y /\ p c = true /\ captures y = captures x.
Proof.
  simpl. destruct (rest x) as [|c t] eqn:E.
  - split; [intros [] | intros (c & H & _); discriminate].
  - destruct (p c) eqn:P; simpl.
    + split.
      * intros [<- | []]. exists c; simpl; auto.
      * intros (c' & [= <- ->] & _ & Hc). left.
        rewrite <- Hc. apply state_eta.
    + split; [intros [] | intros (c' & [= <- ->] & P' & _); congruence].
Qed.

Lemma first_CharSet p c t caps :
  p c = true ->
  hd_error (matchR (CharSet p) (mkState (c :: t) caps))
  = Some (mkState t caps).
Proof. simpl. now intros ->. Qed.

Lemma in_Bol x y :
  In y (matchR Bol x) <-> y = x /\ length (rest x) = length input.
Proof.
  simpl. destruct (Nat.eqb_spec (length (rest x)) (length input)); simpl;
    intuition.
Qed.

Lemma in_Eol x y : In y (matchR Eol x) <-> y = x /\ rest x = [].
Proof.
  simpl. destruct (rest x); simpl; intuition congruence.
Qed.

(** One iteration of a starred class. *)
Lemma repeat_CharSet p fuel x :
  repeat_greedy (matchR (CharSet p)) [] (S fuel) x
  = match rest x with
    | c :: t =>
        if p c
        then repeat_greedy (matchR (CharSet p)) [] fuel
               (mkState t (captures x)) ++ [x]
        else [x]
    | [] => [x]
    end.
Proof.
  cbn [repeat_greedy]. rewrite clear_nil. destruct x as [s caps].
  cbn [Regex.matchR rest captures].
  destruct s as [|c t]; [reflexivity|].
  destruct (p c); [|reflexivity].
  cbn [flat_map]. rewrite progress_cons, app_nil_r. reflexivity.
Qed.

Lemma in_repeat_CharSet p y fuel : forall x,
  length (rest x) < fuel ->
  In y (repeat_greedy (matchR (CharSet p)) [] fuel x) <->
  exists w, rest x = w ++ rest y /\ forallb p w = true
            /\ captures y = captures x.
Proof.
  induction fuel as [|fuel IH]; intros x Hlen; [lia|].
  rewrite repeat_CharSet.
  assert (Hself : y = x <->
             rest x = [] ++ rest y /\ captures y = captures x).
  { simpl. split; [intros ->; auto|].
    intros [H1 H2]. rewrite <- (state_eta y), <- (state_eta x).
    congruence. }
  destruct (rest x) as [|c t] eqn:E.
  - simpl. split.
    + intros [<- | []]. exists []. rewrite E. auto.
    + intros (w & Hw & _ & Hc). left. symmetry. apply Hself.
      destruct w; [|discriminate]. auto.
  - destruct (p c) eqn:P.
    + rewrite in_app_iff, IH by (simpl in *; lia). simpl. split.
      * intros [(w & Hw & Hp & Hc) | [<- | []]].
        -- exists (c :: w). simpl. rewrite P, Hp, Hw. auto.
        -- exists []. rewrite E. auto.
      * intros (w & Hw & Hp & Hc). destruct w as [|c' w].
        -- right. left. symmetry. apply Hself. auto.
        -- left. simpl in Hw, Hp. injection Hw as <- ->.
           apply andb_true_iff in Hp. exists w. tauto.
    + simpl. split.
      * intros [<- | []]. exists []. rewrite E. auto.
      * intros (w & Hw & Hp & Hc). left. symmetry. apply Hself.
        destruct w as [|c' w]; [auto|].
        simpl in Hw, Hp. injection Hw as <- ->. rewrite P in Hp.
        discriminate.
Qed.

Lemma in_Star_CharSet p x y :
  In y (matchR (Star (CharSet p)) x) <->
  exists w, rest x = w ++ rest y /\ forallb p w = true
            /\ captures y = captures x.
Proof. rewrite matchR_Star. apply in_repeat_CharSet. lia. Qed.

Lemma first_repeat_CharSet p s caps : forall w fuel,
  length (w ++ s) < fuel ->
  forallb p w = true -> stops p s ->
  hd_error (repeat_greedy (matchR (CharSet p)) [] fuel
              (mkState (w ++ s) caps))
  = Some (mkState s caps).
Proof.
  induction w as [|c w IH]; intros fuel Hlen Hp Hs.
  - destruct fuel; [simpl in Hlen; lia|]. rewrite repeat_CharSet. simpl.
    destruct s as [|c t]; [reflexivity|]. simpl in Hs. now rewrite Hs.
  - destruct fuel; [simpl in Hlen; lia|]. rewrite repeat_CharSet.
    simpl in *. apply andb_true_iff in Hp as [P Hp]. rewrite P.
    specialize (IH fuel ltac:(lia) Hp Hs).
    destruct (repeat_greedy _ _ fuel _); simpl in *; congruence.
Qed.

Lemma first_Star_CharSet p w s caps :
  forallb p w = true -> stops p s ->
  hd_error (matchR (Star (CharSet p)) (mkState (w ++ s) caps))
  = Some (mkState s caps).
Proof.
  intros. rewrite matchR_Star. apply first_repeat_CharSet; simpl; auto.
Qed.

(** An optional class. *)
Lemma matchR_Opt_CharSet p x :
  matchR (Opt (CharSet p)) x
  = match rest x with
    | c :: t => if p c then [mkState t (captures x); x] else [x]
    | [] => [x]
    end.
Proof.
  cbn [Regex.matchR groups]. rewrite clear_nil.
  destruct x as [s caps]; cbn [rest captures].
  destruct s as [|c t]; [reflexivity|].
  destruct (p c); [|reflexivity].
  cbn [filter]. rewrite progress_cons. reflexivity.
Qed.

Lemma in_Opt_CharSet p x y :
  In y (matchR (Opt (CharSet p)) x) <->
  exists w, rest x = w ++ rest y /\ captures y = captures x
            /\ (w = [] \/ exists c, w = [c] /\ p c = true).
Proof.
  rewrite matchR_Opt_CharSet.
  assert (Hself : y = x <->
             rest x = [] ++ rest y /\ captures y = captures x).
  { simpl. split; [intros ->; auto|].
    intros [H1 H2]. rewrite <- (state_eta y), <- (state_eta x).
    congruence. }
  split.
  - intros H.
    assert (H' : (exists c, rest x = [c] ++ rest y /\ p c = true
                            /\ captures y = captures x) \/ y = x).
    { destruct (rest x) as [|c t] eqn:E.
      - destruct H as [<- | []]; auto.
      - destruct (p c) eqn:P.
        + destruct H as [<- | [<- | []]]; auto.
          left. exists c; simpl; auto.
        + destruct H as [<- | []]; auto. }
    destruct H' as [(c & H1 & H2 & H3) | ->].
    + exists [c]. repeat split; auto. right. exists c. auto.
    + exists []. auto.
  - intros (w & Hw & Hc & [-> | (c & -> & P)]).
    + assert (y = x) as -> by (apply Hself; auto).
      destruct (rest x) as [|c t]; [|destruct (p c)]; simpl; auto.
    + simpl in Hw. rewrite Hw, P. left.
      rewrite <- Hc. apply state_eta.
Qed.

Lemma first_Opt_take p c t caps :
  p c = true ->
  hd_error (matchR (Opt (CharSet p)) (mkState (c :: t) caps))
  = Some (mkState t caps).
Proof. intros P. rewrite matchR_Opt_CharSet. simpl. now rewrite P. Qed.

Lemma first_Opt_skip p s caps :
  stops p s ->
  hd_error (matchR (Opt (CharSet p)) (mkState s caps))
  = Some (mkState s caps).
Proof.
  intros P. rewrite matchR_Opt_CharSet. simpl.
  destruct s as [|c t]; [reflexivity|]. simpl in P. now rewrite P.
Qed.

Lemma in_Group n a x y :
  In y (matchR (Group n a) x) <->
  exists z, In z (matchR a x) /\ y = closed n x z.
Proof.
  cbn [Regex.matchR]. rewrite in_map_iff. unfold closed.
  split; intros (z & H1 & H2); exists z; auto.
Qed.

Lemma first_Group n a x z :
  hd_error (matchR a x) = Some z ->
  hd_error (matchR (Group n a) x) = Some (closed n x z).
Proof.
  cbn [Regex.matchR]. destruct (matchR a x); simpl; [discriminate|].
  now intros [= ->].
Qed.

Lemma closed_app n w s caps caps' :
  closed n (mkState (w ++ s) caps) (mkState s caps')
  = mkState s ((n, w) :: caps').
Proof.
  unfold closed; simpl. rewrite length_app.
  replace (length w + length s - length s) with (length w) by lia.
  rewrite firstn_app, Nat.sub_diag, firstn_all. simpl.
  now rewrite app_nil_r.
Qed.

Lemma without_idem n caps : without n (without n caps) = without n caps.
Proof.
  unfold without, clear; simpl. induction caps as [|e caps IH]; simpl; auto.
  destruct (Nat.eqb (fst e) n) eqn:E; simpl; auto.
  now rewrite E, IH.
Qed.

Lemma without_cons n v caps :
  without n ((n, v) :: caps) = without n caps.
Proof. unfold without, clear; simpl. now rewrite Nat.eqb_refl. Qed.

Lemma repeat_Group_chr n d fuel x :
  repeat_greedy (matchR (Group n (chr d))) [n] (S fuel) x
  = match rest x with
    | c :: t =>
        if N.eqb d c
        then repeat_greedy (matchR (Group n (chr d))) [n] fuel
               (mkState t ((n, [d]) :: without n (captures x))) ++ [x]
        else [x]
    | [] => [x]
    end.
Proof.
  cbn [repeat_greedy]. destruct x as [s caps].
  unfold chr. cbn [Regex.matchR clear rest captures].
  destruct s as [|c t]; [reflexivity|].
  destruct (N.eqb_spec d c) as [->|]; [|reflexivity].
  cbn [map flat_map rest captures]. rewrite progress_cons, app_nil_r.
  replace (length (c :: t) - length t) with 1
    by (change (length (c :: t)) with (S (length t)); lia).
  reflexivity.
Qed.

Lemma in_repeat_Group_chr n d y fuel : forall x,
  length (rest x) < fuel ->
  In y (repeat_greedy (matchR (Group n (chr d))) [n] fuel x) <->
  exists k, rest x = repeat d k ++ rest y
            /\ captures y = after_dots n d k (captures x).
Proof.
  induction fuel as [|fuel IH]; intros x Hlen; [lia|].
  rewrite repeat_Group_chr. destruct x as [s caps].
  cbn [rest captures] in *.
  assert (Hself : forall s', y = mkState s' caps <->
             s' = rest y /\ captures y = caps).
  { intros s'. split; [intros ->; auto|].
    intros [H1 H2]. rewrite <- (state_eta y). congruence. }
  destruct s as [|c t].
  - simpl. split.
    + intros [<- | []]. exists 0. auto.
    + intros (k & Hw & Hc). left. symmetry. apply Hself.
      destruct k; [auto | discriminate].
  - destruct (N.eqb_spec d c) as [<-|Hne].
    + rewrite in_app_iff, IH by (simpl in *; lia). simpl. split.
      * intros [(k & Hw & Hc) | [<- | []]].
        -- exists (S k). simpl. rewrite Hw. split; [reflexivity|].
           rewrite Hc. destruct k; simpl; [reflexivity|].
           now rewrite without_cons, without_idem.
        -- exists 0. auto.
      * intros (k & Hw & Hc). destruct k as [|k].
        -- right. left. symmetry. apply Hself. auto.
        -- left. simpl in Hw. injection Hw as ->. exists k.
           split; [reflexivity|]. rewrite Hc. destruct k; simpl; auto.
           now rewrite without_cons, without_idem.
    + simpl. split.
      * intros [<- | []]. exists 0. auto.
      * intros (k & Hw & Hc). left. symmetry. apply Hself.
        destruct k as [|k]; [auto|].
        simpl in Hw. congruence.
Qed.

Lemma in_Star_Group_chr n d x y :
  In y (matchR (Star (Group n (chr d))) x) <->
  exists k, rest x = repeat d k ++ rest y
            /\ captures y = after_dots n d k (captures x).
Proof. rewrite matchR_Star. apply in_repeat_Group_chr. lia. Qed.

Lemma first_repeat_Group_chr n d s : forall k fuel caps,
  length (repeat d k ++ s) < fuel ->
  stops (N.eqb d) s ->
  hd_error (repeat_greedy (matchR (Group n (chr d))) [n] fuel
              (mkState (repeat d k ++ s) caps))
  = Some (mkState s (after_dots n d k caps)).
Proof.
  induction k as [|k IH]; intros fuel caps Hlen Hs.
  - destruct fuel; [simpl in Hlen; lia|]. rewrite repeat_Group_chr. simpl.
    destruct s as [|c t]; [reflexivity|]. simpl in Hs. now rewrite Hs.
  - destruct fuel; [simpl in Hlen; lia|]. rewrite repeat_Group_chr.
    simpl in *. rewrite N.eqb_refl.
    specialize (IH fuel ((n, [d]) :: without n caps) ltac:(lia) Hs).
    destruct (repeat_greedy _ _ fuel _); simpl in *; [discriminate|].
    rewrite IH. do 2 f_equal. destruct k; simpl; auto.
    now rewrite without_cons, without_idem.
Qed.

Lemma first_Star_Group_chr n d k s caps :
  stops (N.eqb d) s ->
  hd_error (matchR (Star (Group n (chr d)))
              (mkState (repeat d k ++ s) caps))
  = Some (mkState s (after_dots n d k caps)).
Proof.
  intros. rewrite matchR_Star. apply first_repeat_Group_chr; simpl; auto.
Qed.
End Input.
End RegexFacts.

Module StatementFacts.
Import Regex MatcherTerms RegexFacts Statement Grammar.

Section Input.
Variable input : jsstring.
Local Abbreviation matchR := (matchR input).

Lemma in_side x y :
  In y (matchR side x) <->
  exists t, Side t /\ rest x = t ++ rest y /\ captures y = captures x.
Proof.
  unfold side, seqs. cbn [fold_right]. rewrite in_Seq. split.
  - intros (z1 & H1 & H). apply in_Seq in H as (z2 & H2 & H).
    apply in_Seq in H as (z3 & H3 & H). apply in_Empty in H as ->.
    apply in_Opt_CharSet in H1 as (b1 & E1 & C1 & M1).
    apply in_Star_CharSet in H2 as (w & E2 & P2 & C2).
    apply in_Opt_CharSet in H3 as (b2 & E3 & C3 & M3).
    exists (b1 ++ w ++ b2). split.
    + exists b1, w, b2. repeat split; auto.
      * destruct M1 as [-> | (c & -> & P)]; [now left|right].
        apply N.eqb_eq in P as <-. reflexivity.
      * destruct M3 as [-> | (c & -> & P)]; [now left|right].
        apply N.eqb_eq in P as <-. reflexivity.
    + split; [|congruence].
      rewrite E1, E2, E3, <- !app_assoc. reflexivity.
  - intros (t & (b1 & w & b2 & -> & M1 & M2 & P) & E & C).
    rewrite <- !app_assoc in E.
    exists (mkState (w ++ b2 ++ rest y) (captures x)). split.
    + apply in_Opt_CharSet. exists b1. repeat split; auto.
      destruct M1 as [-> | ->]; [now left|right].
      exists Chars.bang; auto.
    + apply in_Seq. exists (mkState (b2 ++ rest y) (captures x)). split.
      * apply in_Star_CharSet. exists w. auto.
      * apply in_Seq. exists y. split; [|now apply in_Empty].
        apply in_Opt_CharSet. exists b2. repeat split; auto.
        destruct M2 as [-> | ->]; [now left|right].
        exists Chars.bang; auto.
Qed.

Lemma closed_consumes n x z w :
  rest x = w ++ rest z ->
  closed n x z = mkState (rest z) ((n, w) :: captures z).
Proof.
  intros E. unfold closed. rewrite E, length_app.
  replace (length w + length (rest z) - length (rest z)) with (length w)
    by lia.
  rewrite firstn_app, Nat.sub_diag, firstn_all. simpl.
  now rewrite app_nil_r.
Qed.

Lemma in_Group_side n x y :
  In y (matchR (Group n side) x) <->
  exists t, Side t /\ rest x = t ++ rest y
            /\ captures y = (n, t) :: captures x.
Proof.
  rewrite in_Group. split.
  - intros (z & H & ->). apply in_side in H as (t & S & E & C).
    exists t. rewrite (@closed_consumes n x z t E). simpl. rewrite C. auto.
  - intros (t & S & E & C).
    exists (mkState (rest y) (captures x)). split.
    + apply in_side. exists t. auto.
    + rewrite (@closed_consumes n x (mkState (rest y) (captures x)) t E).
      destruct y as [ry cy]. simpl in *. now rewrite C.
Qed.
End Input.

(** ** The sides [toString] writes *)

Lemma word_char_not_space c : word_char c = true -> is_space c = false.
Proof.
  unfold word_char. rewrite negb_true_iff, !orb_false_iff. tauto.
Qed.

Lemma word_char_not_bang c :
  word_char c = true -> N.eqb Chars.bang c = false.
Proof.
  unfold word_char. rewrite negb_true_iff, !orb_false_iff.
  rewrite (N.eqb_sym Chars.bang). tauto.
Qed.

Lemma word_char_not_dot c :
  word_char c = true -> N.eqb Chars.dot c = false.
Proof.
  unfold word_char. rewrite negb_true_iff, !orb_false_iff.
  rewrite (N.eqb_sym Chars.dot). tauto.
Qed.

Lemma space_not_word c : is_space c = true -> word_char c = false.
Proof. unfold word_char. now intros ->. Qed.

Lemma space_not_bang c : is_space c = true -> N.eqb Chars.bang c = false.
Proof.
  intros H. destruct (N.eqb_spec Chars.bang c) as [<-|]; [|reflexivity].
  discriminate.
Qed.

Lemma space_not_dot c : is_space c = true -> N.eqb Chars.dot c = false.
Proof.
  intros H. destruct (N.eqb_spec Chars.dot c) as [<-|]; [|reflexivity].
  discriminate.
Qed.

Lemma ends_stops_word s : ends s -> stops word_char s.
Proof. destruct s; unfold stops, ends; auto using space_not_word. Qed.

Lemma ends_stops_bang s : ends s -> stops (N.eqb Chars.bang) s.
Proof. destruct s; unfold stops, ends; auto using space_not_bang. Qed.

Lemma ends_stops_dot s : ends s -> stops (N.eqb Chars.dot) s.
Proof. destruct s; unfold stops, ends; auto using space_not_dot. Qed.

Lemma rendered_stops_space t s : rendered t -> stops is_space (t ++ s).
Proof.
  intros [-> | [N W]]; [reflexivity|].
  destruct t as [|c t]; [congruence|]. simpl in *.
  apply andb_true_iff in W as [W _]. now apply word_char_not_space.
Qed.

Lemma rendered_stops_dot t s :
  rendered t -> stops (N.eqb Chars.dot) (t ++ s).
Proof.
  intros [-> | [N W]]; [reflexivity|].
  destruct t as [|c t]; [congruence|]. simpl in *.
  apply andb_true_iff in W as [W _]. now apply word_char_not_dot.
Qed.

Lemma rendered_Side t : rendered t -> Side t.
Proof.
  intros [-> | [N W]].
  - exists [Chars.bang], [], []. repeat split; unfold marker; auto.
  - exists [], t, []. rewrite app_nil_r. repeat split; unfold marker; auto.
Qed.

Section First.
Variable input : jsstring.
Local Abbreviation matchR := (Regex.matchR input).

Lemma first_Bol x :
  length (rest x) = length input -> hd_error (matchR Bol x) = Some x.
Proof. intros E. cbn [Regex.matchR]. now rewrite E, Nat.eqb_refl. Qed.

Lemma first_Eol caps :
  hd_error (matchR Eol (mkState [] caps)) = Some (mkState [] caps).
Proof. reflexivity. Qed.

(** On a rendered side followed by white space or by the end, a
    group around [side] first takes the whole side. *)
Lemma first_side t s caps :
  rendered t -> ends s ->
  hd_error (matchR side (mkState (t ++ s) caps)) = Some (mkState s caps).
Proof.
  intros R E. unfold side, seqs. cbn [fold_right].
  destruct R as [-> | [N W]].
  - eapply first_Seq; [apply first_Opt_take, N.eqb_refl|].
    eapply first_Seq;
      [apply (first_Star_CharSet input word_char [] s caps);
       auto using ends_stops_word|].
    eapply first_Seq; [apply first_Opt_skip, ends_stops_bang, E|].
    reflexivity.
  - eapply first_Seq.
    { apply first_Opt_skip. destruct t as [|c t]; [congruence|].
      simpl in *. apply andb_true_iff in W as [W _].
      now apply word_char_not_bang. }
    eapply first_Seq;
      [apply (first_Star_CharSet input word_char t s caps);
       auto using ends_stops_word|].
    eapply first_Seq; [apply first_Opt_skip, ends_stops_bang, E|].
    reflexivity.
Qed.

Lemma first_Group_side n t s caps :
  rendered t -> ends s ->
  hd_error (matchR (Group n side) (mkState (t ++ s) caps))
  = Some (mkState s ((n, t) :: caps)).
Proof.
  intros R E. rewrite (@first_Group input n _ _ _ (@first_side t s caps R E)).
  now rewrite closed_app.
Qed.
End First.

Lemma in_any_of_arrow a :
  existsb (N.eqb a) [Chars.equal; Chars.minus] = true <->
  a = Chars.equal \/ a = Chars.minus.
Proof.
  simpl. rewrite !orb_true_iff, !N.eqb_eq. intuition discriminate.
Qed.

Lemma in_REGEX text y :
  In y (Regex.matchR text REGEX (mkState text [])) <->
  exists L k R, Sentence text L k R /\ y = final L k R.
Proof.
  unfold REGEX, seqs. cbn [fold_right]. split.
  - intros H.
    apply in_Seq in H as (z1 & H1 & H).
    apply in_Seq in H as (z2 & H2 & H).
    apply in_Seq in H as (z3 & H3 & H).
    apply in_Seq in H as (z4 & H4 & H).
    apply in_Seq in H as (z5 & H5 & H).
    apply in_Seq in H as (z6 & H6 & H).
    apply in_Seq in H as (z7 & H7 & H).
    apply in_Seq in H as (z8 & H8 & H).
    apply in_Seq in H as (z9 & H9 & H).
    apply in_Seq in H as (z10 & H10 & H).
    apply in_Seq in H as (z11 & H11 & H).
    apply in_Seq in H as (z12 & H12 & H).
    apply in_Seq in H as (z13 & H13 & H).
    apply in_Empty in H as ->.
    apply in_Bol in H1 as [-> _].
    apply in_Star_CharSet in H2 as (w1 & E2 & P2 & C2).
    apply in_Group_side in H3 as (L & SL & E3 & C3).
    apply in_Star_CharSet in H4 as (w2 & E4 & P4 & C4).
    apply in_CharSet in H5 as (a & E5 & P5 & C5).
    apply in_Star_CharSet in H6 as (w3 & E6 & P6 & C6).
    apply in_CharSet in H7 as (g & E7 & P7 & C7).
    apply in_Star_CharSet in H8 as (w4 & E8 & P8 & C8).
    apply in_Star_Group_chr in H9 as (k & E9 & C9).
    apply in_Star_CharSet in H10 as (w5 & E10 & P10 & C10).
    apply in_Group_side in H11 as (R & SR & E11 & C11).
    apply in_Star_CharSet in H12 as (w6 & E12 & P12 & C12).
    apply in_Eol in H13 as [-> E13].
    apply N.eqb_eq in P7. subst g.
    apply in_any_of_arrow in P5.
    exists L, k, R. split.
    + exists w1, w2, a, w3, w4, w5, w6. repeat split; auto.
      simpl in E2. rewrite E2, E3, E4, E5, E6, E7, E8, E9, E10, E11, E12, E13.
      now rewrite app_nil_r.
    + unfold final. rewrite <- (state_eta z12). rewrite E13. f_equal.
      rewrite C12, C11, C10, C9, C8, C7, C6, C5, C4, C3, C2. reflexivity.
  - intros (L & k & R & (w1 & w2 & a & w3 & w4 & w5 & w6 & E & P1 & P2 & P3
                           & P4 & P5 & P6 & A & SL & SR) & ->).
    apply in_Seq. exists (mkState text []). split.
    { apply in_Bol. auto. }
    set (s1 := L ++ w2 ++ a :: w3 ++ Chars.gt :: w4
                 ++ repeat Chars.dot k ++ w5 ++ R ++ w6).
    apply in_Seq. exists (mkState s1 []). split.
    { apply in_Star_CharSet. exists w1. auto. }
    set (c1 := [(1, L)]).
    set (s2 := w2 ++ a :: w3 ++ Chars.gt :: w4
                 ++ repeat Chars.dot k ++ w5 ++ R ++ w6).
    apply in_Seq. exists (mkState s2 c1). split.
    { apply in_Group_side. exists L. auto. }
    set (s3 := a :: w3 ++ Chars.gt :: w4
                 ++ repeat Chars.dot k ++ w5 ++ R ++ w6).
    apply in_Seq. exists (mkState s3 c1). split.
    { apply in_Star_CharSet. exists w2. auto. }
    set (s4 := w3 ++ Chars.gt :: w4 ++ repeat Chars.dot k ++ w5 ++ R ++ w6).
    apply in_Seq. exists (mkState s4 c1). split.
    { apply in_CharSet. exists a. repeat split; auto.
      now apply in_any_of_arrow. }
    set (s5 := Chars.gt :: w4 ++ repeat Chars.dot k ++ w5 ++ R ++ w6).
    apply in_Seq. exists (mkState s5 c1). split.
    { apply in_Star_CharSet. exists w3. auto. }
    set (s6 := w4 ++ repeat Chars.dot k ++ w5 ++ R ++ w6).
    apply in_Seq. exists (mkState s6 c1). split.
    { apply in_CharSet. exists Chars.gt. repeat split; auto. }
    set (s7 := repeat Chars.dot k ++ w5 ++ R ++ w6).
    apply in_Seq. exists (mkState s7 c1). split.
    { apply in_Star_CharSet. exists w4. auto. }
    set (c2 := after_dots 2 Chars.dot k c1).
    apply in_Seq. exists (mkState (w5 ++ R ++ w6) c2). split.
    { apply in_Star_Group_chr. exists k. auto. }
    apply in_Seq. exists (mkState (R ++ w6) c2). split.
    { apply in_Star_CharSet. exists w5. auto. }
    apply in_Seq. exists (mkState w6 ((3, R) :: c2)). split.
    { apply in_Group_side. exists R. auto. }
    apply in_Seq. exists (final L k R). split.
    { apply in_Star_CharSet. exists w6. simpl. rewrite app_nil_r. auto. }
    apply in_Seq. exists (final L k R). split.
    { apply in_Eol. auto. }
    now apply in_Empty.
Qed.

(** [^] holds at the start index 0 only. *)
Lemma match_at_Bol text r i :
  0 < i -> i <= length text -> match_at text (Seq Bol r) i = None.
Proof.
  intros H1 H2. unfold match_at. cbn [Regex.matchR rest].
  rewrite length_skipn.
  destruct (Nat.eqb_spec (length text - i) (length text)); [lia|].
  reflexivity.
Qed.

Lemma exec_from_Bol text r : forall tries i,
  0 < i -> i + tries <= length text ->
  exec_from text (Seq Bol r) i tries = None.
Proof.
  induction tries as [|tries IH]; intros i H1 H2; cbn [exec_from];
    rewrite match_at_Bol by lia; [reflexivity|].
  apply IH; lia.
Qed.

Lemma exec_Bol text r r' :
  r = Seq Bol r' ->
  exec text r
  = option_map (pair 0) (hd_error (Regex.matchR text r (mkState text []))).
Proof.
  intros ->.
  unfold exec. destruct (length text) as [|n] eqn:E; cbn [exec_from];
    unfold match_at; cbn [skipn];
    destruct (hd_error _); try reflexivity.
  apply exec_from_Bol; lia.
Qed.

Lemma captures_final L k R :
  capture 1 (captures (final L k R)) = Some L
  /\ capture 2 (captures (final L k R)) = dots_group k
  /\ capture 3 (captures (final L k R)) = Some R.
Proof. destruct k; repeat split; reflexivity. Qed.

Lemma REGEX_exec_hd text :
  REGEX_exec text
  = match hd_error (Regex.matchR text REGEX (mkState text [])) with
    | None => None
    | Some y =>
        Some (match capture 1 (captures y) with Some g => g | None => [] end,
              capture 2 (captures y),
              match capture 3 (captures y) with Some g => g | None => [] end)
    end.
Proof.
  unfold REGEX_exec. rewrite (@exec_Bol text REGEX _ eq_refl).
  destruct (hd_error _); reflexivity.
Qed.

(** [Statement.REGEX.exec] returns the parts of a sentence the text
    reads as, and returns [null] exactly when there is none. *)
Lemma REGEX_exec_Some text L d R :
  REGEX_exec text = Some (L, d, R) ->
  exists k, Sentence text L k R /\ d = dots_group k.
Proof.
  rewrite REGEX_exec_hd.
  destruct (hd_error _) as [y|] eqn:H; [|discriminate].
  apply hd_error_in, in_REGEX in H as (L' & k & R' & S & ->).
  destruct (captures_final L' k R') as (-> & -> & ->).
  intros [= <- <- <-]. eauto.
Qed.

Lemma REGEX_exec_None text :
  REGEX_exec text = None <-> ~ exists L k R, Sentence text L k R.
Proof.
  rewrite REGEX_exec_hd.
  destruct (hd_error _) as [y|] eqn:H.
  - split; [discriminate|]. intros N. exfalso. apply N.
    apply hd_error_in, in_REGEX in H as (L & k & R & S & _). eauto.
  - split; [|reflexivity]. intros _ (L & k & R & S).
    apply hd_error_none in H.
    assert (I : In (final L k R) (Regex.matchR text REGEX (mkState text [])))
      by (apply in_REGEX; eauto).
    rewrite H in I. destruct I.
Qed.

(** ** [Statement.REGEX] on what [toString] writes *)

Ltac first_then := eapply first_Seq.

Lemma first_REGEX f c t :
  rendered f -> rendered t ->
  hd_error (Regex.matchR (f ++ arrow c ++ t) REGEX
              (mkState (f ++ arrow c ++ t) []))
  = Some (final f (if c then 1 else 0) t).
Proof.
  intros Rf Rt. set (text := f ++ arrow c ++ t).
  assert (Et : ends []) by exact I.
  assert (Es : forall s, ends (Chars.space :: s)) by (intro; reflexivity).
  unfold REGEX, seqs. cbn [fold_right].
  first_then; [apply first_Bol; reflexivity|].
  first_then.
  { apply (first_Star_CharSet text is_space [] text []); [reflexivity|].
    now apply rendered_stops_space. }
  unfold text at 2.
  destruct c; unfold arrow;
    [change (js " ->. ") with [32; 45; 62; 46; 32]%N
    |change (js " -> ") with [32; 45; 62; 32]%N];
    cbn [app].
  - first_then; [apply first_Group_side; auto; reflexivity|].
    first_then.
    { apply (first_Star_CharSet text is_space [32%N]); reflexivity. }
    first_then; [apply first_CharSet; reflexivity|].
    first_then.
    { apply (first_Star_CharSet text is_space []); reflexivity. }
    first_then; [apply first_CharSet; reflexivity|].
    first_then.
    { apply (first_Star_CharSet text is_space []); reflexivity. }
    first_then.
    { apply (first_Star_Group_chr text 2 Chars.dot 1); reflexivity. }
    first_then.
    { apply (first_Star_CharSet text is_space [32%N]); [reflexivity|].
      rewrite <- (app_nil_r t). now apply rendered_stops_space. }
    first_then.
    { rewrite <- (app_nil_r t) at 1. apply first_Group_side; auto. }
    first_then.
    { apply (first_Star_CharSet text is_space [] []); reflexivity. }
    first_then; [apply first_Eol|]. reflexivity.
  - first_then; [apply first_Group_side; auto; reflexivity|].
    first_then.
    { apply (first_Star_CharSet text is_space [32%N]); reflexivity. }
    first_then; [apply first_CharSet; reflexivity|].
    first_then.
    { apply (first_Star_CharSet text is_space []); reflexivity. }
    first_then; [apply first_CharSet; reflexivity|].
    first_then.
    { apply (first_Star_CharSet text is_space [32%N]); [reflexivity|].
      rewrite <- (app_nil_r t). now apply rendered_stops_space. }
    first_then.
    { apply (first_Star_Group_chr text 2 Chars.dot 0).
      rewrite <- (app_nil_r t). now apply rendered_stops_dot. }
    first_then.
    { apply (first_Star_CharSet text is_space []); [reflexivity|].
      rewrite <- (app_nil_r t). now apply rendered_stops_space. }
    first_then.
    { rewrite <- (app_nil_r t) at 1. apply first_Group_side; auto. }
    first_then.
    { apply (first_Star_CharSet text is_space [] []); reflexivity. }
    first_then; [apply first_Eol|]. reflexivity.
Qed.

Lemma REGEX_exec_rendered f c t :
  rendered f -> rendered t ->
  REGEX_exec (f ++ arrow c ++ t)
  = Some (f, if c then Some [Chars.dot] else None, t).
Proof.
  intros Rf Rt. rewrite REGEX_exec_hd, first_REGEX by assumption.
  destruct (captures_final f (if c then 1 else 0) t) as (-> & -> & ->).
  now destruct c.
Qed.

(** ** The constructor and [compile] *)

Lemma jsstring_eqb_eq a b : jsstring_eqb a b = true <-> a = b.
Proof.
  unfold jsstring_eqb. destruct (list_eq_dec N.eq_dec a b);
    split; congruence.
Qed.

Lemma jsstring_eqb_neq a b : jsstring_eqb a b = false <-> a <> b.
Proof.
  unfold jsstring_eqb. destruct (list_eq_dec N.eq_dec a b);
    split; congruence.
Qed.

Lemma word_lacks_bang w :
  forallb word_char w = true -> lacks Chars.bang w.
Proof.
  unfold lacks. induction w as [|c w IH]; simpl; auto.
  intros H. apply andb_true_iff in H as [H1 H2].
  rewrite IH, andb_true_r by assumption.
  apply word_char_not_bang in H1. rewrite N.eqb_sym in H1. now rewrite H1.
Qed.

(** Both calls of [replace('!', '')] together take the markers of a
    side away. *)
Lemma strip_Side b1 w b2 :
  marker b1 -> marker b2 -> forallb word_char w = true ->
  JSString.replace (JSString.replace (b1 ++ w ++ b2) [Chars.bang] [])
    [Chars.bang] [] = w.
Proof.
  intros M1 M2 W. pose proof (word_lacks_bang _ W) as Lw.
  pose proof (@JSStringFacts.replace_char_absent Chars.bang w Lw) as Ew.
  destruct M1 as [-> | ->], M2 as [-> | ->]; cbn [app];
    rewrite ?app_nil_r.
  - now rewrite !Ew.
  - rewrite JSStringFacts.replace_char_found, app_nil_r by assumption.
    exact Ew.
  - rewrite JSStringFacts.replace_char_head. exact Ew.
  - rewrite JSStringFacts.replace_char_head.
    now rewrite JSStringFacts.replace_char_found, app_nil_r.
Qed.

Lemma setFrom_clean f :
  setFrom f
  = JSString.replace (JSString.replace f [Chars.bang] []) [Chars.bang] [].
Proof. unfold setFrom. now destruct (jsstring_eqb f [Chars.bang]). Qed.

Lemma unmarked_word w : forallb word_char w = true -> unmarked w = w.
Proof.
  intros W. apply word_lacks_bang in W. unfold unmarked.
  induction w as [|c w IH]; simpl; [reflexivity|].
  unfold lacks in W. simpl in W.
  apply andb_true_iff in W as [W1 W2]. rewrite W1. now rewrite IH.
Qed.

Lemma unmarked_Side b1 w b2 :
  marker b1 -> marker b2 -> forallb word_char w = true ->
  unmarked (b1 ++ w ++ b2) = w.
Proof.
  intros M1 M2 W. pose proof (unmarked_word _ W) as E.
  assert (A : forall a b, unmarked (a ++ b) = unmarked a ++ unmarked b)
    by (intros; apply filter_app).
  assert (B : forall x, unmarked (Chars.bang :: x) = unmarked x)
    by reflexivity.
  destruct M1 as [-> | ->], M2 as [-> | ->]; cbn [app];
    rewrite ?B, ?A, ?B, E; simpl; now rewrite ?app_nil_r.
Qed.

(** The constructor stores the sides without their markers. *)
Lemma new_Side f t c :
  Side f -> Side t ->
  new f t c = mk (unmarked f) (unmarked t) c
  /\ forallb word_char (unmarked f) = true
  /\ forallb word_char (unmarked t) = true.
Proof.
  intros (a1 & wf & a2 & -> & A1 & A2 & Wf)
         (b1 & wt & b2 & -> & B1 & B2 & Wt).
  unfold new, setTo. rewrite setFrom_clean, !strip_Side by assumption.
  rewrite !unmarked_Side by assumption. auto.
Qed.

(** What [compile] does with the result of [exec]. *)
Lemma compile_Compiled text r :
  compile text = Compiled r <->
  exists L d R,
    REGEX_exec text = Some (L, d, R)
    /\ L <> [] /\ R <> []
    /\ L <> [Chars.bang; Chars.bang] /\ R <> [Chars.bang; Chars.bang]
    /\ r = new L R (match d with Some _ => true | None => false end).
Proof.
  unfold compile. destruct (REGEX_exec text) as [[[L d] R]|].
  - destruct L as [|a L]; cbn [length Nat.ltb Nat.leb].
    { split; [discriminate|]. intros (? & ? & ? & [= <- <- <-] & N & _).
      congruence. }
    destruct R as [|b R]; cbn [length Nat.ltb Nat.leb].
    { split; [discriminate|].
      intros (? & ? & ? & [= <- <- <-] & _ & N & _). congruence. }
    destruct (jsstring_eqb (a :: L) _) eqn:E1.
    { apply jsstring_eqb_eq in E1. split; [discriminate|].
      intros (? & ? & ? & [= <- <- <-] & _ & _ & N & _). congruence. }
    destruct (jsstring_eqb (b :: R) _) eqn:E2.
    { apply jsstring_eqb_eq in E2. split; [discriminate|].
      intros (? & ? & ? & [= <- <- <-] & _ & _ & _ & N & _). congruence. }
    apply jsstring_eqb_neq in E1, E2. split.
    + intros [= <-]. exists (a :: L), d, (b :: R).
      repeat split; auto; discriminate.
    + intros (? & ? & ? & [= <- <- <-] & _ & _ & _ & _ & ->). reflexivity.
  - split; [discriminate|]. intros (? & ? & ? & N & _). discriminate.
Qed.

Lemma compile_Throws text :
  (exists e, compile text = Throws e) <->
  REGEX_exec text = None
  \/ exists L d R,
       REGEX_exec text = Some (L, d, R)
       /\ (L = [] \/ R = []
           \/ L = [Chars.bang; Chars.bang] \/ R = [Chars.bang; Chars.bang]).
Proof.
  unfold compile. destruct (REGEX_exec text) as [[[L d] R]|].
  - destruct L as [|a L]; cbn [length Nat.ltb Nat.leb].
    { split; [|eauto]. intros _. right. exists [], d, R. auto. }
    destruct R as [|b R]; cbn [length Nat.ltb Nat.leb].
    { split; [|eauto]. intros _. right. exists (a :: L), d, []. auto. }
    destruct (jsstring_eqb (a :: L) _) eqn:E1.
    { apply jsstring_eqb_eq in E1. split; [|eauto]. intros _. right.
      exists (a :: L), d, (b :: R). auto. }
    destruct (jsstring_eqb (b :: R) _) eqn:E2.
    { apply jsstring_eqb_eq in E2. split; [|eauto]. intros _. right.
      exists (a :: L), d, (b :: R). auto 6. }
    apply jsstring_eqb_neq in E1, E2. split.
    + intros (e & H). discriminate.
    + intros [H | (? & ? & ? & [= <- <- <-] & [H | [H | [H | H]]])];
        congruence.
  - split; [auto|]. eauto.
Qed.

Lemma toString_shown r :
  toString r = shown (from r) ++ arrow (closing r) ++ shown (to r).
Proof.
  unfold toString, arrow. destruct (from r), (to r); reflexivity.
Qed.

Lemma shown_rendered w : forallb word_char w = true -> rendered (shown w).
Proof.
  destruct w as [|c w]; [now left|]. right. split; [discriminate|auto].
Qed.

Lemma setFrom_shown w :
  forallb word_char w = true -> setFrom (shown w) = w.
Proof.
  intros W. rewrite setFrom_clean. destruct w as [|c w]; [reflexivity|].
  cbn [shown]. apply word_lacks_bang in W.
  now rewrite !(JSStringFacts.replace_char_absent _ _ W).
Qed.

Lemma shown_not_double w :
  forallb word_char w = true -> shown w <> [Chars.bang; Chars.bang].
Proof.
  destruct w as [|c w]; [discriminate|]. cbn [shown]. intros W [= -> ->].
  discriminate.
Qed.

Lemma shown_not_nil w : shown w <> [].
Proof. destruct w; discriminate. Qed.

(** The round trip, on the stored form. *)
Lemma compile_toString wf wt c :
  forallb word_char wf = true -> forallb word_char wt = true ->
  compile (toString (mk wf wt c)) = Compiled (mk wf wt c).
Proof.
  intros Wf Wt. apply compile_Compiled.
  rewrite toString_shown. cbn [from to closing].
  exists (shown wf), (if c then Some [Chars.dot] else None), (shown wt).
  split; [apply REGEX_exec_rendered; auto using shown_rendered|].
  repeat split; auto using shown_not_nil, shown_not_double.
  unfold new, setTo. rewrite <- setFrom_clean.
  rewrite !setFrom_shown by assumption. now destruct c.
Qed.
End StatementFacts.

(* ================================================================== *)
(** * The order in which [Statement.REGEX] tries the left sides *)
(* ================================================================== *)

Module PriorityFacts.
Import Regex MatcherTerms RegexFacts Statement Grammar StatementFacts.

(** ** Lists *)

Lemma flat_map_flat_map {A B C} (f : B -> list C) (g : A -> list B) l :
  flat_map f (flat_map g l) = flat_map (fun x => flat_map f (g x)) l.
Proof.
  induction l as [|a l IH]; cbn [flat_map]; [reflexivity|].
  now rewrite flat_map_app, IH.
Qed.

Lemma flat_map_singleton {A} (l : list A) : flat_map (fun x => [x]) l = l.
Proof. induction l as [|a l IH]; cbn; [reflexivity | now rewrite IH]. Qed.

(** The head of a [flat_map] comes from the first element that gives
    anything. *)
Lemma hd_flat_map_split {A B} (f : A -> list B) l y :
  hd_error (flat_map f l) = Some y ->
  exists l1 z l2,
    l = l1 ++ z :: l2
    /\ (forall u, In u l1 -> f u = [])
    /\ hd_error (f z) = Some y.
Proof.
  induction l as [|a l IH]; cbn [flat_map]; [discriminate|].
  destruct (f a) as [|b m] eqn:E.
  - cbn [app]. intros H. destruct (IH H) as (l1 & z & l2 & -> & N & Z).
    exists (a :: l1), z, l2. repeat split; auto.
    intros u [<- | I]; auto.
  - cbn. intros [= <-]. exists [], a, l. repeat split.
    + intros u [].
    + now rewrite E.
Qed.

Lemma sorted_app {A} (R : A -> A -> Prop) l1 l2 :
  StronglySorted R l1 -> StronglySorted R l2 ->
  (forall a b, In a l1 -> In b l2 -> R a b) ->
  StronglySorted R (l1 ++ l2).
Proof.
  induction 1 as [|a l1 S1 IH F]; intros S2 C; cbn [app]; [assumption|].
  constructor.
  - apply IH; [assumption|]. intros x y I J. apply C; [now right | assumption].
  - apply Forall_app. split; [assumption|].
    apply Forall_forall. intros b I. apply C; [now left | assumption].
Qed.

Lemma sorted_after {A} (R : A -> A -> Prop) l1 z l2 :
  StronglySorted R (l1 ++ z :: l2) -> forall u, In u l2 -> R z u.
Proof.
  induction l1 as [|a l1 IH]; cbn [app]; intros S u I.
  - apply StronglySorted_inv in S as [_ F].
    now apply (proj1 (Forall_forall _ _) F).
  - apply StronglySorted_inv in S as [S _]. now apply IH.
Qed.

(** ** The order of the results of the matcher *)

Section Input.
Variable input : jsstring.
Local Abbreviation matchR := (Regex.matchR input).

(** The results of a starred class get longer and longer rests, and all
    but the first have a rest that starts inside the class. *)
Lemma repeat_CharSet_sorted p fuel : forall x,
  length (rest x) < fuel ->
  StronglySorted shorter (repeat_greedy (matchR (CharSet p)) [] fuel x).
Proof.
  induction fuel as [|fuel IH]; intros x H; [lia|].
  rewrite repeat_CharSet. destruct x as [s caps]. cbn [rest captures] in *.
  destruct s as [|c t]; [repeat constructor|].
  destruct (p c); [|repeat constructor].
  apply sorted_app; [apply IH; cbn in *; lia | repeat constructor|].
  intros a b Ia [<- | []]. unfold shorter. cbn [rest].
  apply in_repeat_CharSet in Ia as (w & E & _); [|cbn in *; lia].
  cbn [rest] in E. apply (f_equal (@length _)) in E.
  rewrite length_app in E. cbn [length]. lia.
Qed.

Lemma Star_CharSet_sorted p x :
  StronglySorted shorter (matchR (Star (CharSet p)) x).
Proof. rewrite matchR_Star. apply repeat_CharSet_sorted. lia. Qed.

Lemma repeat_last m gs fuel x :
  exists l, repeat_greedy m gs fuel x = l ++ [x].
Proof. destruct fuel; cbn [repeat_greedy]; [now exists [] | eauto]. Qed.

Lemma repeat_CharSet_tail p fuel : forall x y,
  length (rest x) < fuel ->
  In y (tl (repeat_greedy (matchR (CharSet p)) [] fuel x)) ->
  starts p (rest y).
Proof.
  induction fuel as [|fuel IH]; intros x y H; [lia|].
  rewrite repeat_CharSet. destruct x as [s caps]. cbn [rest captures] in *.
  destruct s as [|c t]; [intros []|].
  destruct (p c) eqn:P; [|intros []].
  assert (L : length t < fuel) by (cbn in H; lia).
  specialize (IH (mkState t caps) y L).
  destruct (repeat_last (matchR (CharSet p)) [] fuel (mkState t caps))
    as (l & E).
  rewrite E in *. destruct l as [|h l]; cbn [app tl] in *.
  - intros [<- | []]. exists c, t. auto.
  - rewrite in_app_iff. intros [I | [<- | []]].
    + apply IH, I.
    + exists c, t. auto.
Qed.

Lemma Star_CharSet_tail p x y :
  In y (tl (matchR (Star (CharSet p)) x)) -> starts p (rest y).
Proof. rewrite matchR_Star. apply repeat_CharSet_tail. lia. Qed.

(** After an optional class the rests are still ordered. *)
Lemma Opt_CharSet_bounds p x y :
  In y (matchR (Opt (CharSet p)) x) ->
  length (rest y) <= length (rest x) <= S (length (rest y)).
Proof.
  intros H. apply in_Opt_CharSet in H as (w & E & _ & [-> | (c & -> & _)]);
    apply (f_equal (@length _)) in E; cbn in E; lia.
Qed.

Lemma Opt_CharSet_sorted p x :
  StronglySorted not_longer (matchR (Opt (CharSet p)) x).
Proof.
  rewrite matchR_Opt_CharSet. destruct x as [s caps]. cbn [rest captures].
  destruct s as [|c t]; [repeat constructor|].
  destruct (p c); repeat constructor.
Qed.

Lemma flat_map_Opt_sorted p l :
  StronglySorted shorter l ->
  StronglySorted not_longer (flat_map (matchR (Opt (CharSet p))) l).
Proof.
  induction 1 as [|y l S IH F]; cbn [flat_map]; [constructor|].
  apply sorted_app; [apply Opt_CharSet_sorted | assumption|].
  intros a b Ia Ib. apply in_flat_map in Ib as (v & Iv & Ib).
  apply Opt_CharSet_bounds in Ia, Ib.
  pose proof (proj1 (Forall_forall _ _) F v Iv) as Hv.
  unfold shorter, not_longer in *. lia.
Qed.

(** The results of [side] are ordered: the longest side comes first. *)
Lemma side_sorted x : StronglySorted not_longer (matchR side x).
Proof.
  unfold side, seqs. cbn [fold_right].
  assert (E : forall z,
             matchR (Seq (Star (CharSet word_char))
                       (Seq (Opt (chr Chars.bang)) Empty)) z
             = flat_map (matchR (Opt (chr Chars.bang)))
                 (matchR (Star (CharSet word_char)) z)).
  { intros z. cbn [Regex.matchR]. apply flat_map_ext. intros u.
    apply flat_map_singleton. }
  change (matchR (Seq (Opt (chr Chars.bang))
                    (Seq (Star (CharSet word_char))
                       (Seq (Opt (chr Chars.bang)) Empty))) x)
    with (flat_map (matchR (Seq (Star (CharSet word_char))
                              (Seq (Opt (chr Chars.bang)) Empty)))
            (matchR (Opt (chr Chars.bang)) x)).
  assert (F : forall z,
             StronglySorted not_longer
               (matchR (Seq (Star (CharSet word_char))
                          (Seq (Opt (chr Chars.bang)) Empty)) z)).
  { intros z. rewrite E. apply flat_map_Opt_sorted, Star_CharSet_sorted. }
  change (matchR (Opt (chr Chars.bang)) x)
    with (matchR (Opt (CharSet (N.eqb Chars.bang))) x).
  rewrite matchR_Opt_CharSet.
  destruct x as [s caps]. cbn [rest captures].
  destruct s as [|c t]; [cbn [flat_map]; rewrite app_nil_r; apply F|].
  destruct (N.eqb_spec Chars.bang c) as [<-|N];
    [|cbn [flat_map]; rewrite app_nil_r; apply F].
  cbn [flat_map]. rewrite app_nil_r.
  apply sorted_app; [apply F | apply F|].
  intros a b Ia Ib. rewrite E in Ia, Ib.
  apply in_flat_map in Ia as (u & Iu & Ia).
  apply in_flat_map in Ib as (v & Iv & Ib).
  apply Opt_CharSet_bounds in Ia, Ib.
  apply in_Star_CharSet in Iu as (wu & Eu & _).
  apply in_Star_CharSet in Iv as (wv & Ev & Wv & _).
  cbn [rest] in Eu, Ev.
  destruct wv as [|c' wv].
  - apply (f_equal (@length _)) in Eu. rewrite length_app in Eu.
    cbn [app] in Ev. apply (f_equal (@length _)) in Ev. cbn [length] in Ev.
    unfold not_longer. lia.
  - exfalso. cbn in Ev, Wv. injection Ev as <- _.
    apply andb_true_iff in Wv as [Wv _]. discriminate.
Qed.
End Input.
(** ** The left side [Statement.REGEX] captures is the longest one *)

Local Abbreviation TAIL :=
  (seqs [Star white; any_of [Chars.equal; Chars.minus]; Star white;
         chr Chars.gt; Star white;
         Star (Group 2 (chr Chars.dot)); Star white;
         Group 3 side;
         Star white; Eol]).

(** The states after the first group, in the order in which they are
    tried, and what is matched from them. *)
Lemma REGEX_candidates text :
  Regex.matchR text REGEX (mkState text [])
  = flat_map (Regex.matchR text TAIL)
      (flat_map (Regex.matchR text (Group 1 side))
         (Regex.matchR text (Star white) (mkState text []))).
Proof.
  rewrite flat_map_flat_map. unfold REGEX, seqs. cbn [fold_right].
  change (Regex.matchR text (Seq Bol ?r) ?x)
    with (flat_map (Regex.matchR text r) (Regex.matchR text Bol x)).
  cbn [Regex.matchR rest]. rewrite Nat.eqb_refl. cbn [flat_map].
  now rewrite app_nil_r.
Qed.

Lemma capture_without n m caps :
  n <> m -> capture m (without n caps) = capture m caps.
Proof.
  intros N. unfold without, clear, capture. cbn [captures existsb].
  induction caps as [|[i g] caps IH]; cbn [filter find fst];
    [reflexivity|].
  rewrite orb_false_r.
  destruct (Nat.eqb_spec i n) as [->|Hi]; cbn [negb].
  - destruct (Nat.eqb_spec n m); [contradiction | exact IH].
  - cbn [find fst]. destruct (Nat.eqb i m); [reflexivity | exact IH].
Qed.

Lemma capture_after_dots n m d k caps :
  n <> m -> capture m (after_dots n d k caps) = capture m caps.
Proof.
  intros N. destruct k as [|k]; [reflexivity|]. cbn [after_dots].
  unfold capture at 1. cbn [find fst].
  destruct (Nat.eqb_spec n m); [contradiction|].
  now apply capture_without.
Qed.

(** What follows the first group leaves its capture alone. *)
Lemma TAIL_keeps_first text u y :
  In y (Regex.matchR text TAIL u) ->
  capture 1 (captures y) = capture 1 (captures u).
Proof.
  unfold seqs. cbn [fold_right]. intros H.
  apply in_Seq in H as (z4 & H4 & H).
  apply in_Seq in H as (z5 & H5 & H).
  apply in_Seq in H as (z6 & H6 & H).
  apply in_Seq in H as (z7 & H7 & H).
  apply in_Seq in H as (z8 & H8 & H).
  apply in_Seq in H as (z9 & H9 & H).
  apply in_Seq in H as (z10 & H10 & H).
  apply in_Seq in H as (z11 & H11 & H).
  apply in_Seq in H as (z12 & H12 & H).
  apply in_Seq in H as (z13 & H13 & H).
  apply in_Empty in H as ->.
  apply in_Star_CharSet in H4 as (w2 & _ & _ & C4).
  apply in_CharSet in H5 as (a & _ & _ & C5).
  apply in_Star_CharSet in H6 as (w3 & _ & _ & C6).
  apply in_CharSet in H7 as (g & _ & _ & C7).
  apply in_Star_CharSet in H8 as (w4 & _ & _ & C8).
  apply in_Star_Group_chr in H9 as (k & _ & C9).
  apply in_Star_CharSet in H10 as (w5 & _ & _ & C10).
  apply in_Group_side in H11 as (R & _ & _ & C11).
  apply in_Star_CharSet in H12 as (w6 & _ & _ & C12).
  apply in_Eol in H13 as [-> _].
  rewrite C12, C11. unfold capture at 1. cbn [find fst Nat.eqb].
  fold (capture 1 (captures z10)).
  rewrite C10, C9, capture_after_dots by discriminate.
  now rewrite C8, C7, C6, C5, C4.
Qed.

Lemma Side_head c t : Side (c :: t) -> is_space c = false.
Proof.
  intros (b1 & w & b2 & E & [-> | ->] & M2 & W); cbn [app] in E.
  - destruct w as [|c' w]; cbn [app] in E.
    + destruct M2 as [-> | ->]; [discriminate|]. now injection E as ->.
    + injection E as -> _. cbn in W. apply andb_true_iff in W as [W _].
      now apply word_char_not_space.
  - now injection E as ->.
Qed.

(** The candidates come with the longest first group first. *)
Lemma sorted_map {A B} (R : A -> A -> Prop) (R' : B -> B -> Prop)
    (f : A -> B) l :
  (forall a b, R a b -> R' (f a) (f b)) ->
  StronglySorted R l -> StronglySorted R' (map f l).
Proof.
  intros H. induction 1 as [|a l S IH F]; cbn [map]; constructor;
    [assumption|].
  apply Forall_forall. intros b I. apply in_map_iff in I as (v & <- & I).
  apply H. now apply (proj1 (Forall_forall _ _) F).
Qed.

Lemma sorted_all_least {A} (R : A -> A -> Prop) l :
  (forall a b, In b l -> R a b) -> StronglySorted R l.
Proof.
  induction l as [|a l IH]; intros H; constructor.
  - apply IH. intros x y I. apply H. now right.
  - apply Forall_forall. intros b I. apply H. now right.
Qed.

Lemma candidates_sorted text :
  StronglySorted (fun a b => first_length b <= first_length a)
    (flat_map (Regex.matchR text (Group 1 side))
       (Regex.matchR text (Star white) (mkState text []))).
Proof.
  pose proof (Star_CharSet_tail text is_space (mkState text [])) as T.
  fold white in T.
  destruct (Regex.matchR text (Star white) (mkState text [])) as [|y0 ys];
    [constructor|].
  cbn [flat_map tl] in *.
  assert (Z : forall u,
             In u (flat_map (Regex.matchR text (Group 1 side)) ys) ->
             first_length u = 0).
  { intros u I. apply in_flat_map in I as (y & Iy & Iu).
    destruct (T y Iy) as (c & t & E & P).
    apply in_Group_side in Iu as (s & S & E' & C).
    unfold first_length, capture. rewrite C. cbn [find fst Nat.eqb].
    cbn [option_map snd]. destruct s as [|c' s]; [reflexivity|].
    rewrite E in E'. injection E' as <- _.
    apply Side_head in S. congruence. }
  apply sorted_app.
  - cbn [Regex.matchR].
    apply (sorted_map not_longer); [|apply side_sorted].
    intros a b H. unfold first_length, capture, not_longer in *.
    cbn [captures find fst Nat.eqb option_map snd].
    rewrite !length_firstn. lia.
  - apply sorted_all_least. intros a b I. rewrite (Z b I). lia.
  - intros a b _ I. rewrite (Z b I). lia.
Qed.

(** Of all the sentences a text reads as, [Statement.REGEX.exec]
    captures one with a longest left side. *)
Lemma REGEX_exec_longest text L d R :
  REGEX_exec text = Some (L, d, R) ->
  forall L' k' R', Sentence text L' k' R' -> length L' <= length L.
Proof.
  rewrite REGEX_exec_hd.
  destruct (hd_error _) as [y|] eqn:H; [|discriminate].
  intros E L' k' R' S.
  assert (Ey : capture 1 (captures y) = Some L).
  { pose proof (hd_error_in _ _ H) as I.
    apply in_REGEX in I as (L0 & k0 & R0 & _ & ->).
    destruct (captures_final L0 k0 R0) as (A & _). rewrite A in *.
    now injection E as -> _ _. }
  rewrite REGEX_candidates in H.
  apply hd_flat_map_split in H as (l1 & z & l2 & C & N & Z).
  assert (I : In (final L' k' R')
                (Regex.matchR text REGEX (mkState text [])))
    by (apply in_REGEX; eauto).
  rewrite REGEX_candidates, C in I.
  apply in_flat_map in I as (u & Iu & I).
  pose proof (TAIL_keeps_first text u _ I) as Ku.
  pose proof (TAIL_keeps_first text z _ (hd_error_in _ _ Z)) as Kz.
  destruct (captures_final L' k' R') as (A & _). rewrite A in Ku.
  rewrite Ey in Kz.
  assert (G : first_length u <= first_length z).
  { apply in_app_iff in Iu as [Iu | [<- | Iu]].
    - rewrite (N u Iu) in I. destruct I.
    - lia.
    - pose proof (candidates_sorted text) as S'. rewrite C in S'.
      exact (sorted_after _ _ _ _ S' u Iu). }
  unfold first_length in G. now rewrite <- Ku, <- Kz in G.
Qed.
End PriorityFacts.

(* ================================================================== *)
(** * A text reads as one sentence for each length of the left side *)
(* ================================================================== *)

Module ReadingFacts.
Import MatcherTerms Statement Grammar StatementFacts PriorityFacts.

Lemma split_unique (p : code_unit -> bool) : forall u u' x x',
  forallb p u = true -> forallb p u' = true ->
  stops p x -> stops p x' ->
  u ++ x = u' ++ x' -> u = u' /\ x = x'.
Proof.
  induction u as [|c u IH]; intros [|c' u'] x x' P P' S S' E;
    cbn [app] in E.
  - auto.
  - subst x. cbn in S, P'. apply andb_true_iff in P' as [P' _]. congruence.
  - subst x'. cbn in S', P. apply andb_true_iff in P as [P _]. congruence.
  - injection E as <- E. cbn in P, P'.
    apply andb_true_iff in P as [_ P]. apply andb_true_iff in P' as [_ P'].
    destruct (IH u' x x' P P' S S' E) as [-> ->]. auto.
Qed.

Lemma app_same_length {A} : forall (a b x y : list A),
  length a = length b -> a ++ x = b ++ y -> a = b /\ x = y.
Proof.
  induction a as [|c a IH]; intros [|d b] x y L E; cbn in L, E;
    try discriminate; [auto|].
  injection E as <- E. injection L as L.
  destruct (IH b x y L E) as [-> ->]. auto.
Qed.

Lemma skip_app p u x :
  forallb p u = true -> stops p x -> skip_while p (u ++ x) = x.
Proof.
  induction u as [|c u IH]; cbn [app forallb skip_while]; intros P S.
  - destruct x as [|d x]; [reflexivity|]. cbn in *. now rewrite S.
  - apply andb_true_iff in P as [Pc P]. rewrite Pc. auto.
Qed.

Lemma take_app p u x :
  forallb p u = true -> stops p x -> take_while p (u ++ x) = u.
Proof.
  induction u as [|c u IH]; cbn [app forallb take_while]; intros P S.
  - destruct x as [|d x]; [reflexivity|]. cbn in *. now rewrite S.
  - apply andb_true_iff in P as [Pc P]. rewrite Pc. f_equal. auto.
Qed.

Lemma repeat_all (d : code_unit) k : forallb (N.eqb d) (repeat d k) = true.
Proof. induction k; cbn; [reflexivity | now rewrite N.eqb_refl]. Qed.

(** The characters of a side. *)
Lemma Side_no_space t : Side t -> forallb non_space t = true.
Proof.
  intros (b1 & w & b2 & -> & M1 & M2 & W). rewrite !forallb_app.
  assert (Hw : forallb non_space w = true).
  { clear -W. induction w as [|c w IH]; cbn [forallb] in *; [reflexivity|].
    apply andb_true_iff in W as [Wc W]. unfold non_space at 1.
    rewrite (word_char_not_space c Wc). cbn [negb andb]. auto. }
  rewrite Hw. destruct M1 as [-> | ->], M2 as [-> | ->]; reflexivity.
Qed.

Lemma Side_head_not_dot c t : Side (c :: t) -> N.eqb Chars.dot c = false.
Proof.
  intros (b1 & w & b2 & E & [-> | ->] & M2 & W); cbn [app] in E.
  - destruct w as [|c' w]; cbn [app] in E.
    + destruct M2 as [-> | ->]; [discriminate|]. now injection E as ->.
    + injection E as -> _. cbn in W. apply andb_true_iff in W as [W _].
      now apply word_char_not_dot.
  - now injection E as ->.
Qed.

Lemma spaces_app u v : spaces u -> spaces v -> spaces (u ++ v).
Proof. unfold spaces. intros U V. now rewrite forallb_app, U, V. Qed.

Lemma spaces_stops_dot w x :
  spaces w -> stops (N.eqb Chars.dot) x -> stops (N.eqb Chars.dot) (w ++ x).
Proof.
  destruct w as [|c w]; [auto|]. unfold spaces. cbn. intros W _.
  apply andb_true_iff in W as [W _]. now apply space_not_dot.
Qed.

Lemma spaces_stops_non_space w : spaces w -> stops non_space w.
Proof.
  destruct w as [|c w]; [intros _; exact I|]. unfold spaces. cbn. intros W.
  apply andb_true_iff in W as [W _]. unfold non_space. now rewrite W.
Qed.

(** What stands after the arrow is read in one way. *)
Lemma right_read w4 k w5 R w6 :
  spaces w4 -> spaces w5 -> spaces w6 -> Side R ->
  let z := w4 ++ repeat Chars.dot k ++ w5 ++ R ++ w6 in
  read_dots z = k /\ read_right z = R.
Proof.
  intros W4 W5 W6 SR z. subst z. unfold read_dots, read_right.
  assert (TR : forall x, x = R ++ w6 ->
             take_while non_space (skip_while is_space (w5 ++ x)) = R).
  { intros x ->. destruct R as [|c R].
    - cbn [app]. rewrite <- (app_nil_r (w5 ++ w6)).
      rewrite skip_app; [reflexivity | now apply spaces_app | exact I].
    - rewrite skip_app; [|assumption|].
      + apply take_app; [now apply Side_no_space|].
        now apply spaces_stops_non_space.
      + cbn. now apply (Side_head c R). }
  assert (SD : stops (N.eqb Chars.dot) (w5 ++ R ++ w6)).
  { apply spaces_stops_dot; [assumption|]. destruct R as [|c R].
    - cbn [app]. rewrite <- (app_nil_r w6).
      apply spaces_stops_dot; [assumption | exact I].
    - cbn. now apply (Side_head_not_dot c R). }
  destruct k as [|k].
  - cbn [repeat app]. destruct R as [|c R].
    + cbn [app] in *. rewrite <- (app_nil_r (w4 ++ w5 ++ w6)).
      rewrite skip_app; [cbn; auto | | exact I].
      now apply spaces_app, spaces_app.
    + rewrite app_assoc, skip_app;
        [| now apply spaces_app | cbn; now apply (Side_head c R)].
      assert (D : N.eqb Chars.dot c = false)
        by now apply (Side_head_not_dot c R).
      cbn [app take_while skip_while]. rewrite D. cbn [length].
      split; [reflexivity|].
      pose proof (TR ((c :: R) ++ w6) eq_refl) as T.
      rewrite skip_app in T; [|assumption|cbn; now apply (Side_head c R)].
      assert (Hc : is_space c = false) by now apply (Side_head c R).
      cbn [skip_while]. rewrite Hc. exact T.
  - rewrite skip_app; [|assumption | cbn; reflexivity].
    rewrite take_app, skip_app by (auto using repeat_all).
    rewrite repeat_length. split; [reflexivity|]. now apply TR.
Qed.

(** Two readings with left sides of the same length are the same. *)
Lemma Sentence_unique text L k R L' k' R' :
  Sentence text L k R -> Sentence text L' k' R' ->
  length L = length L' -> L = L' /\ k = k' /\ R = R'.
Proof.
  intros (w1 & w2 & a & w3 & w4 & w5 & w6 & E & P1 & P2 & P3 & P4 & P5
            & P6 & A & SL & SR)
         (v1 & v2 & b & v3 & v4 & v5 & v6 & E' & Q1 & Q2 & Q3 & Q4 & Q5
            & Q6 & B & TL & TR) Len.
  assert (Na : forall c x, c = Chars.equal \/ c = Chars.minus ->
                 stops is_space (c :: x))
    by (intros c x [-> | ->]; reflexivity).
  set (Z := w4 ++ repeat Chars.dot k ++ w5 ++ R ++ w6) in *.
  set (Z' := v4 ++ repeat Chars.dot k' ++ v5 ++ R' ++ v6) in *.
  assert (Sp : forall u v, spaces u -> spaces v ->
                 forallb is_space (u ++ v) = true)
    by (intros; now apply spaces_app).
  assert (H : L = L'
              /\ a :: w3 ++ Chars.gt :: Z = b :: v3 ++ Chars.gt :: Z').
  { rewrite E in E'. destruct L as [|c L], L' as [|c' L'];
      try discriminate Len; cbn [app] in E'.
    - rewrite !app_assoc in E'.
      apply (split_unique is_space) in E' as [_ E'];
        try (now apply Sp); try (now apply Na).
      split; [reflexivity | exact E'].
    - change (w1 ++ (c :: L) ++ w2 ++ a :: w3 ++ Chars.gt :: Z
              = v1 ++ (c' :: L') ++ v2 ++ b :: v3 ++ Chars.gt :: Z') in E'.
      apply (split_unique is_space) in E' as [_ E']; try assumption;
        [|cbn; now apply (Side_head c L)|cbn; now apply (Side_head c' L')].
      apply app_same_length in E' as [EL E']; [|assumption].
      apply (split_unique is_space) in E' as [_ E']; try assumption;
        try (now apply Na).
      split; assumption. }
  destruct H as [<- H]. injection H as <- H.
  apply (split_unique is_space) in H as [_ H]; try assumption;
    try reflexivity.
  injection H as H.
  destruct (right_read w4 k w5 R w6 P4 P5 P6 SR) as [K1 K2].
  destruct (right_read v4 k' v5 R' v6 Q4 Q5 Q6 TR) as [K1' K2'].
  fold Z in K1, K2. fold Z' in K1', K2'. rewrite H in K1, K2.
  repeat split; congruence.
Qed.
(** ** What [exec] and [compile] make of a text *)

(** [Statement.REGEX.exec] captures the reading of the text with the
    longest left side. *)
Lemma REGEX_exec_reads text L d R :
  REGEX_exec text = Some (L, d, R) <->
  exists k, Reads text L k R /\ d = dots_group k.
Proof.
  split.
  - intros H. destruct (REGEX_exec_Some text L d R H) as (k & S & ->).
    exists k. repeat split; [assumption|].
    exact (REGEX_exec_longest text L _ R H).
  - intros (k & [S M] & ->).
    destruct (REGEX_exec text) as [[[L0 d0] R0]|] eqn:E.
    + destruct (REGEX_exec_Some text L0 d0 R0 E) as (k0 & S0 & ->).
      pose proof (REGEX_exec_longest text L0 _ R0 E L k R S) as A.
      pose proof (M L0 k0 R0 S0) as B.
      destruct (Sentence_unique text L k R L0 k0 R0 S S0 ltac:(lia))
        as (-> & -> & ->).
      reflexivity.
    + apply REGEX_exec_None in E. exfalso. apply E. eauto.
Qed.

Lemma Reads_unique text L k R L' k' R' :
  Reads text L k R -> Reads text L' k' R' -> L = L' /\ k = k' /\ R = R'.
Proof.
  intros [S M] [S' M']. apply (Sentence_unique text); auto.
  pose proof (M L' k' R' S'). pose proof (M' L k R S). lia.
Qed.

(** [compile] succeeds exactly on a text whose reading with the longest
    left side has two sides that are neither empty nor the doubled
    marker, and stores the sides of that reading without their markers. *)
Lemma compile_reads text r :
  compile text = Compiled r <->
  exists L k R,
    Reads text L k R
    /\ L <> [] /\ R <> [] /\ L <> doubled /\ R <> doubled
    /\ r = mk (unmarked L) (unmarked R) (negb (Nat.eqb k 0)).
Proof.
  rewrite compile_Compiled. split.
  - intros (L & d & R & E & A & B & C & D & ->).
    apply REGEX_exec_reads in E as (k & Rd & ->).
    exists L, k, R. repeat split; try assumption; try apply Rd.
    destruct Rd as [(w1 & w2 & a & w3 & w4 & w5 & w6 & _ & _ & _ & _ & _
                       & _ & _ & _ & SL & SR) _].
    destruct (new_Side L R
                (match dots_group k with Some _ => true | None => false end)
                SL SR) as (-> & _ & _).
    now destruct k.
  - intros (L & k & R & Rd & A & B & C & D & ->).
    exists L, (dots_group k), R. repeat split; try assumption.
    + apply REGEX_exec_reads. eauto.
    + destruct Rd as [(w1 & w2 & a & w3 & w4 & w5 & w6 & _ & _ & _ & _ & _
                         & _ & _ & _ & SL & SR) _].
      destruct (new_Side L R
                  (match dots_group k with Some _ => true | None => false end)
                  SL SR) as (-> & _ & _).
      now destruct k.
Qed.

Lemma compile_fails text :
  (exists e, compile text = Throws e) <->
  ~ exists L k R,
      Reads text L k R
      /\ L <> [] /\ R <> [] /\ L <> doubled /\ R <> doubled.
Proof.
  split.
  - intros (e & H) (L & k & R & Rd & A & B & C & D).
    assert (X : compile text
                = Compiled (mk (unmarked L) (unmarked R)
                              (negb (Nat.eqb k 0))))
      by (apply compile_reads; exists L, k, R; auto 7).
    congruence.
  - intros N. destruct (compile text) as [r|e] eqn:E; [|eauto].
    exfalso. apply N. apply compile_reads in E
      as (L & k & R & Rd & A & B & C & D & _).
    exists L, k, R. auto.
Qed.
End ReadingFacts.

(* ================================================================== *)
(** * Facts about the algorithm *)
(* ================================================================== *)

Module AlgorithmFacts.
Import Algorithm.

Lemma relative_le len i : relative len i <= len.
Proof. unfold relative. destruct (i <? 0)%Z eqn:E; lia. Qed.

Lemma slice_front {A} (l : list A) p :
  slice l 0 (Some p) = firstn (relative (length l) p) l.
Proof.
  unfold slice. replace (relative (length l) 0) with 0
    by (unfold relative; cbn; lia).
  now rewrite Nat.sub_0_r.
Qed.

Lemma slice_back {A} (l : list A) p :
  slice l p None = skipn (relative (length l) p) l.
Proof.
  unfold slice. rewrite <- (length_skipn (relative (length l) p) l).
  apply firstn_all.
Qed.

(** [addStatement] with a position puts the statement at the index
    [slice] makes of the position: the position itself from 0 to the
    length, the length above it, and the length plus the position, or 0,
    below 0. *)
Lemma addStatement_at s p a :
  statements (addStatement s (Some p) a)
  = firstn (relative (length (statements a)) p) (statements a)
      ++ s :: skipn (relative (length (statements a)) p) (statements a).
Proof.
  cbn [addStatement statements]. now rewrite slice_front, slice_back.
Qed.

Lemma addStatement_omitted s a :
  statements (addStatement s None a) = statements a ++ [s].
Proof. reflexivity. Qed.

Lemma addStatement_beyond s p a :
  (Z.of_nat (length (statements a)) <= p)%Z ->
  statements (addStatement s (Some p) a) = statements a ++ [s].
Proof.
  intros H. rewrite addStatement_at.
  replace (relative (length (statements a)) p) with (length (statements a))
    by (unfold relative; destruct (p <? 0)%Z eqn:E; lia).
  now rewrite firstn_all, skipn_all.
Qed.

Lemma addStatement_inside s p a :
  (0 <= p <= Z.of_nat (length (statements a)))%Z ->
  statements (addStatement s (Some p) a)
  = firstn (Z.to_nat p) (statements a)
      ++ s :: skipn (Z.to_nat p) (statements a).
Proof.
  intros H. rewrite addStatement_at.
  replace (relative (length (statements a)) p) with (Z.to_nat p)
    by (unfold relative; destruct (p <? 0)%Z eqn:E; lia).
  reflexivity.
Qed.

(** Below 0 the statement goes to the front only when the position is
    at or below minus the length. *)
Lemma addStatement_below s p a :
  (p < 0)%Z ->
  statements (addStatement s (Some p) a)
  = firstn (Z.to_nat (Z.of_nat (length (statements a)) + p)) (statements a)
      ++ s :: skipn (Z.to_nat (Z.of_nat (length (statements a)) + p))
                (statements a).
Proof.
  intros H. rewrite addStatement_at.
  replace (relative (length (statements a)) p)
    with (Z.to_nat (Z.of_nat (length (statements a)) + p))
    by (unfold relative; destruct (p <? 0)%Z eqn:E; lia).
  reflexivity.
Qed.

(** [removeStatement]: the last statement when the position is left out
    or at or after the last index, the first one below 0. *)
Lemma pop_app {A} (l : list A) x : pop (l ++ [x]) = (Some x, l).
Proof. unfold pop. rewrite rev_app_distr. cbn. now rewrite rev_involutive. Qed.

Lemma removeStatement_last p l x :
  (p = None \/ exists q, p = Some q /\ (Z.of_nat (length l) <= q)%Z) ->
  removeStatement p (mk (l ++ [x])) = (Some x, mk l).
Proof.
  intros [-> | (q & -> & H)]; cbn [removeStatement statements].
  - now rewrite pop_app.
  - rewrite length_app. cbn [length].
    destruct (Z.leb_spec (Z.of_nat (length l + 1) - 1) q); [|lia].
    now rewrite pop_app.
Qed.

Lemma removeStatement_first q x l :
  (q < 0)%Z -> l <> [] ->
  removeStatement (Some q) (mk (x :: l)) = (Some x, mk l).
Proof.
  intros H N. cbn [removeStatement statements].
  destruct (Z.leb_spec (Z.of_nat (length (x :: l)) - 1) q).
  - destruct l; [congruence|]. cbn [length] in *. lia.
  - destruct (Z.ltb_spec q 0); [reflexivity | lia].
Qed.

Lemma removeStatement_empty p :
  removeStatement p (mk []) = (None, mk []).
Proof.
  destruct p as [q|]; [|reflexivity]. cbn.
  destruct (Z.leb_spec (-1) q); [reflexivity|].
  destruct (Z.ltb_spec q 0); [reflexivity | lia].
Qed.

(** Between 0 and the last index the statement at the position is
    returned, and the statements left are those before the position
    followed by those up to and including the position. *)
Lemma removeStatement_inner q a :
  (0 <= q < Z.of_nat (length (statements a)) - 1)%Z ->
  removeStatement (Some q) a
  = (nth_error (statements a) (Z.to_nat q),
     mk (firstn (Z.to_nat q) (statements a)
           ++ firstn (Z.to_nat q + 1) (statements a))).
Proof.
  intros H. cbn [removeStatement].
  destruct (Z.leb_spec (Z.of_nat (length (statements a)) - 1) q); [lia|].
  destruct (Z.ltb_spec q 0); [lia|].
  rewrite !slice_front.
  replace (relative (length (statements a)) q) with (Z.to_nat q)
    by (unfold relative; destruct (q <? 0)%Z eqn:E; lia).
  replace (relative (length (statements a)) (q + 1)) with (Z.to_nat q + 1)
    by (unfold relative; destruct (q + 1 <? 0)%Z eqn:E; lia).
  reflexivity.
Qed.
End AlgorithmFacts.

(* ================================================================== *)
(** * Facts about the runner *)
(* ================================================================== *)

Module RunnerFacts.
Import JSString Runner Behaviour.

Section Host.
Variable search : jsstring -> jsstring -> completion Z.
Local Abbreviation scan := (Runner.scan search).
Local Abbreviation step := (Runner.step search).
Local Abbreviation drive := (Runner.drive search).
Local Abbreviation applicable := (Runner.applicable search).
Local Abbreviation none_applicable := (Behaviour.none_applicable search).
Local Abbreviation stepped := (Behaviour.stepped search).

(** The loop of [step] stops at the first statement whose pattern
    [search] finds, or at the first one [search] fails on. *)
Lemma scan_spec l : forall last r,
  match scan l last r with
  | Normal sc =>
      (acted sc = false /\ runner sc = r
       /\ none_applicable (context r) l)
      \/ (acted sc = true
          /\ exists pre s post,
               l = pre ++ s :: post
               /\ none_applicable (context r) pre
               /\ applicable (context r) s = true
               /\ statement sc = Some s
               /\ runner sc = rewritten r s)
  | Abrupt e =>
      exists pre s post,
        l = pre ++ s :: post
        /\ none_applicable (context r) pre
        /\ search (context r) (Statement.from s) = Abrupt e
  end.
Proof.
  unfold none_applicable.
  induction l as [|s l IH]; intros last r; cbn [scan].
  - left. auto.
  - destruct (search (context r) (Statement.from s)) as [i|e] eqn:E.
    + destruct (-1 <? i)%Z eqn:Hi.
      * right. split; [reflexivity|]. exists [], s, l.
        unfold applicable. rewrite E. auto.
      * specialize (IH (Some s) r).
        assert (Hs : negb (applicable (context r) s) = true)
          by (unfold applicable; rewrite E, Hi; reflexivity).
        destruct (scan l (Some s) r) as [sc|e].
        -- destruct IH as [(A & B & C) | (A & pre & s' & post & -> & C & D)].
           ++ left. cbn [forallb]. rewrite Hs, C. auto.
           ++ right. split; [assumption|]. exists (s :: pre), s', post.
              cbn [forallb]. rewrite Hs, C. auto.
        -- destruct IH as (pre & s' & post & -> & C & D).
           exists (s :: pre), s', post. cbn [forallb]. rewrite Hs, C. auto.
    + exists [], s, l. auto.
Qed.

Lemma opened_context r : context (opened r) = context r.
Proof. unfold opened. now destruct (Nat.ltb _ _). Qed.

Lemma opened_algorithm r : algorithm (opened r) = algorithm r.
Proof. unfold opened. now destruct (Nat.ltb _ _). Qed.

Lemma opened_done r : done (opened r) = done r.
Proof. unfold opened. now destruct (Nat.ltb _ _). Qed.

Lemma opened_steps r :
  steps (opened r)
  = match steps r with
    | [] => [mkEntry (context r) None]
    | _ :: _ => steps r
    end.
Proof. unfold opened. destruct r as [c a [|e l] d]; reflexivity. Qed.

Lemma step_opened r :
  step r
  = if done r then (Normal None, r)
    else
      match scan (Algorithm.statements (algorithm (opened r))) None
                 (opened r) with
      | Abrupt e => (Abrupt e, opened r)
      | Normal s =>
          (Normal (if acted s then statement s else None),
           if negb (acted s)
              || match statement s with
                 | Some st => Statement.closing st
                 | None => false
                 end
           then stop (runner s)
           else runner s)
      end.
Proof. reflexivity. Qed.

Lemma step_running r : done r = false -> stepped r (step r).
Proof.
  intros D. rewrite step_opened, D.
  pose proof (scan_spec (Algorithm.statements (algorithm (opened r)))
                None (opened r)) as H.
  rewrite opened_algorithm, opened_context in *.
  destruct (scan _ None (opened r)) as [sc|e].
  - destruct H as [(A & B & C) | (A & pre & s & post & E & C & D' & F & G)].
    + rewrite A, B. cbn [negb orb]. now apply stepped_none.
    + rewrite A, F, G. cbn [negb orb].
      now apply (@stepped_applied search r pre s post).
  - destruct H as (pre & s & post & E & C & D').
    now apply (@stepped_abrupt search r pre s post).
Qed.

Lemma step_done r : done r = true -> step r = (Normal None, r).
Proof. intros D. unfold step. now rewrite D. Qed.

(** ** The history *)

Lemma opened_nonempty r : steps r <> [] -> opened r = r.
Proof.
  unfold opened. destruct (steps r) as [|e l]; [congruence|]. reflexivity.
Qed.

Lemma step_appends r :
  steps r <> [] ->
  steps (snd (step r)) = steps r ++ appended (fst (step r)) (snd (step r))
  /\ (fired (fst (step r)) = false ->
      context (snd (step r)) = context r).
Proof.
  intros N. destruct (done r) eqn:D.
  - rewrite (step_done r D). cbn. now rewrite app_nil_r.
  - destruct (step_running r D) as [H | pre s post E H A
                                      | pre s post e E H A];
      rewrite (opened_nonempty r N); cbn.
    + now rewrite app_nil_r.
    + destruct (Statement.closing s); cbn; split; auto; discriminate.
    + now rewrite app_nil_r.
Qed.

Lemma recorded_step initial n r :
  recorded initial n r ->
  recorded initial ((if fired (fst (step r)) then 1 else 0) + n)
    (snd (step r)).
Proof.
  intros (H1 & H2 & H3).
  assert (N : steps r <> [])
    by (destruct (steps r); [discriminate H1|discriminate]).
  destruct (step_appends r N) as [A C]. unfold recorded. rewrite A.
  destruct (fst (step r)) as [[s|]|e]; cbn [appended fired] in *.
  - repeat split.
    + destruct (steps r); [congruence|]. exact H1.
    + rewrite length_app, H2. cbn. lia.
    + rewrite rev_app_distr. reflexivity.
  - rewrite app_nil_r, (C eq_refl). auto.
  - rewrite app_nil_r, (C eq_refl). auto.
Qed.

Lemma recorded_first algorithm initial :
  recorded initial
    (if fired (fst (step (new algorithm initial))) then 1 else 0)
    (snd (step (new algorithm initial))).
Proof.
  destruct (step_running (new algorithm initial) eq_refl)
    as [H | pre s post E H A | pre s post e E H A]; cbn.
  - repeat split.
  - destruct (Statement.closing s); repeat split.
  - repeat split.
Qed.

Lemma recorded_stop initial n r :
  recorded initial n r -> recorded initial n (stop r).
Proof. intros H. exact H. Qed.

Lemma recorded_drive initial cs : forall m r,
  recorded initial m r ->
  recorded initial (m + fst (drive cs r)) (snd (drive cs r)).
Proof.
  induction cs as [|[| |a] cs IH]; intros m r H; cbn [Runner.drive].
  - cbn. now rewrite Nat.add_0_r.
  - pose proof (recorded_step initial m r H) as H'.
    destruct (step r) as [c r1]. cbn [fst snd] in H'.
    specialize (IH _ _ H').
    destruct (drive cs r1) as [n r2]. cbn [fst snd] in *.
    replace (m + ((if fired c then 1 else 0) + n))
      with ((if fired c then 1 else 0) + m + n) by lia.
    exact IH.
  - apply IH. now apply recorded_stop.
  - apply IH. exact H.
Qed.

Lemma recorded_drive_new algorithm initial cs :
  recorded initial (fst (drive (CallStep :: cs) (new algorithm initial)))
    (snd (drive (CallStep :: cs) (new algorithm initial))).
Proof.
  cbn [Runner.drive]. pose proof (recorded_first algorithm initial) as H.
  destruct (step (new algorithm initial)) as [c r1]. cbn [fst snd] in H.
  pose proof (recorded_drive initial cs _ _ H) as H'.
  destruct (drive cs r1) as [n r2]. exact H'.
Qed.

Lemma step_steps r :
  steps (snd (step r))
  = steps r ++ initial_entry r ++ appended (fst (step r)) (snd (step r)).
Proof.
  unfold initial_entry. destruct (done r) eqn:D.
  - rewrite (step_done r D). cbn. now rewrite app_nil_r.
  - assert (O : steps (opened r) = steps r ++
              (if Nat.ltb (length (steps r)) 1
               then [mkEntry (context r) None] else [])).
    { unfold opened. destruct r as [c a [|e l] d]; cbn; [reflexivity|].
      now rewrite app_nil_r. }
    cbn [negb andb].
    destruct (step_running r D) as [H | pre s post E H A
                                      | pre s post e E H A]; cbn.
    + now rewrite O, app_nil_r.
    + destruct (Statement.closing s); cbn; rewrite O, <- app_assoc;
        now rewrite opened_context.
    + now rewrite O, app_nil_r.
Qed.
(** ** [run] *)

(** The loop of [run] makes calls of [step] in a row. *)
Lemma run_loop_drive fuel : forall r c r',
  Runner.run_loop search fuel r = Some (c, r') ->
  exists k, r' = snd (drive (repeat CallStep k) r)
            /\ (done r = false -> 0 < k).
Proof.
  induction fuel as [|fuel IH]; intros r c r'; cbn [Runner.run_loop];
    destruct (done r) eqn:D.
  - intros [= <- <-]. exists 0. split; [reflexivity | discriminate].
  - discriminate.
  - intros [= <- <-]. exists 0. split; [reflexivity | discriminate].
  - destruct (step r) as [[o|e] r1] eqn:E.
    + intros H. destruct (IH _ _ _ H) as (k & -> & _).
      exists (S k). cbn [repeat Runner.drive]. rewrite E.
      destruct (drive (repeat CallStep k) r1). split; [reflexivity | lia].
    + intros [= <- <-]. exists 1. cbn [repeat Runner.drive]. rewrite E.
      split; [reflexivity | lia].
Qed.

Lemma run_drive fuel algorithm initial c r' :
  Runner.run search fuel (new algorithm initial) = Some (c, r') ->
  exists k,
    r' = snd (drive (CallStep :: repeat CallStep k) (new algorithm initial)).
Proof.
  unfold Runner.run. cbn [done new].
  destruct (Runner.run_loop search fuel (new algorithm initial))
    as [[c0 r0]|] eqn:E; [|discriminate].
  destruct (run_loop_drive fuel _ _ _ E) as (k & -> & K).
  specialize (K eq_refl). destruct k as [|k]; [lia|].
  destruct c0; intros [= <- <-]; exists k; reflexivity.
Qed.

(** [run] on a new runner ends with the runner done, or abruptly. *)
Lemma run_loop_done fuel : forall r c r',
  Runner.run_loop search fuel r = Some (Normal c, r') -> done r' = true.
Proof.
  induction fuel as [|fuel IH]; intros r c r'; cbn [Runner.run_loop];
    destruct (done r) eqn:D.
  - now intros [= <- <-].
  - discriminate.
  - now intros [= <- <-].
  - destruct (step r) as [[o|e] r1]; [apply IH | discriminate].
Qed.
End Host.
End RunnerFacts.

(** ** Statements whose patterns have no syntax characters

    With [JSString.search], and on statements whose patterns are plain,
    the test of [step] is whether the pattern occurs in the context. *)
Module PlainFacts.
Import JSString MatcherTerms Runner Behaviour.

Lemma applicable_plain c s :
  plain (Statement.from s) = true ->
  applicable search c s
  = match indexOf c (Statement.from s) with
    | Some _ => true
    | None => false
    end.
Proof.
  intros P. unfold applicable. rewrite (JSStringFacts.search_plain c _ P).
  destruct (indexOf c (Statement.from s)) as [i|]; [|reflexivity].
  apply Z.ltb_lt. lia.
Qed.

Lemma none_applicable_plain c l :
  Forall (fun s => plain (Statement.from s) = true) l ->
  none_applicable search c l ->
  Forall (fun s => indexOf c (Statement.from s) = None) l.
Proof.
  unfold none_applicable. induction 1 as [|s l P _ IH]; cbn [forallb];
    [constructor|].
  rewrite andb_true_iff, negb_true_iff, (applicable_plain c s P).
  intros [A B]. constructor; [|auto].
  destruct (indexOf c (Statement.from s)); [discriminate|reflexivity].
Qed.

(** A call of [step] on a running runner whose statements have plain
    patterns: it returns [null], stops and leaves the context when no
    pattern occurs in the context; otherwise it applies the first
    statement whose pattern occurs, and, when the replacement has no [$],
    puts it in the place of the first occurrence of the pattern. *)
Lemma step_plain (r : Runner.t) :
  done r = false ->
  let statements := Algorithm.statements (algorithm r) in
  Forall (fun s => plain (Statement.from s) = true) statements ->
  match step search r with
  | (Normal None, r') =>
      Forall (fun s => indexOf (context r) (Statement.from s) = None)
             statements
      /\ context r' = context r /\ done r' = true
  | (Normal (Some s), r') =>
      exists pre post i,
        statements = pre ++ s :: post
        /\ Forall (fun q => indexOf (context r) (Statement.from q) = None)
                  pre
        /\ indexOf (context r) (Statement.from s) = Some i
        /\ (lacks Chars.dollar (Statement.to s) ->
            context r'
            = firstn i (context r) ++ Statement.to s
                ++ skipn (i + length (Statement.from s)) (context r))
        /\ done r' = Statement.closing s
  | (Abrupt _, _) => False
  end.
Proof.
  intros D statements P. subst statements.
  destruct (RunnerFacts.step_running search r D)
    as [N | pre s post E N A | pre s post e E N A].
  - repeat split.
    + now apply none_applicable_plain.
    + apply RunnerFacts.opened_context.
  - rewrite E in P. apply Forall_app in P as [Ppre Ps].
    apply Forall_cons_iff in Ps as [Ps _].
    rewrite (applicable_plain _ s Ps) in A.
    destruct (indexOf (context r) (Statement.from s)) as [i|] eqn:I;
      [|discriminate].
    exists pre, post, i. repeat split; auto.
    + now apply none_applicable_plain.
    + intros L. destruct (Statement.closing s); cbn;
        rewrite RunnerFacts.opened_context;
        now apply JSStringFacts.replace_plain.
    + destruct (Statement.closing s); cbn; [reflexivity|].
      now rewrite RunnerFacts.opened_done.
  - rewrite E in P. apply Forall_app in P as [_ Ps].
    apply Forall_cons_iff in Ps as [Ps _].
    rewrite (JSStringFacts.search_plain _ _ Ps) in A. discriminate.
Qed.
(** A statement with the empty pattern at the head of the algorithm is
    applied by every call of [step] on a running runner, and puts the
    substitution of its replacement in front of the context. *)
Lemma step_empty_pattern (r : Runner.t) s l :
  done r = false ->
  Algorithm.statements (algorithm r) = s :: l ->
  Statement.from s = [] ->
  fst (step search r) = Normal (Some s)
  /\ context (snd (step search r))
     = GetSubstitution [] [] (context r) (Statement.to s) ++ context r
  /\ (lacks Chars.dollar (Statement.to s) ->
      context (snd (step search r)) = Statement.to s ++ context r)
  /\ done (snd (step search r)) = Statement.closing s.
Proof.
  intros D E F.
  assert (A : applicable search (context r) s = true).
  { unfold applicable. rewrite F, JSStringFacts.search_empty. reflexivity. }
  assert (X : forall pre q post,
             s :: l = pre ++ q :: post ->
             none_applicable search (context r) pre -> pre = [] /\ q = s).
  { intros [|p pre] q post H N; cbn [app] in H.
    - now injection H as ->.
    - injection H as <- _. unfold none_applicable in N. cbn [forallb] in N.
      rewrite A in N. discriminate. }
  destruct (RunnerFacts.step_running search r D)
    as [N | pre q post E' N A' | pre q post e E' N A']; rewrite E in *.
  - unfold none_applicable in N. cbn [forallb] in N. rewrite A in N.
    discriminate.
  - destruct (X pre q post E' N) as [-> ->].
    assert (C : context
                  (if Statement.closing s
                   then stop (rewritten (opened r) s)
                   else rewritten (opened r) s)
                = GetSubstitution [] [] (context r) (Statement.to s)
                    ++ context r).
    { destruct (Statement.closing s); cbn;
        rewrite RunnerFacts.opened_context, F;
        apply JSStringFacts.replace_empty. }
    cbn [fst snd]. repeat split.
    + exact C.
    + intros L. rewrite C.
      now rewrite JSStringFacts.GetSubstitution_plain.
    + destruct (Statement.closing s); cbn; [reflexivity|].
      now rewrite RunnerFacts.opened_done.
  - destruct (X pre q post E' N) as [-> ->].
    unfold applicable in A. rewrite A' in A. discriminate.
Qed.
End PlainFacts.

(* ================================================================== *)
(** * The examples of the specification, evaluated *)
(* ================================================================== *)

Module Examples.
Import Runner Behaviour.

(** Natural termination: [z -> y] on [abc]. *)
Example natural_termination :
  step JSString.search (new (algorithm_of [js "z -> y"]) (js "abc"))
  = (Normal None,
     mk (js "abc") (algorithm_of [js "z -> y"]) [mkEntry (js "abc") None]
        true).
Proof. vm_compute. reflexivity. Qed.

(** Explicit termination: [a ->. b] on [a]. *)
Example explicit_termination :
  step JSString.search (new (algorithm_of [js "a ->. b"]) (js "a"))
  = (Normal (Some (Statement.mk (js "a") (js "b") true)),
     mk (js "b") (algorithm_of [js "a ->. b"])
        [mkEntry (js "a") None;
         mkEntry (js "b") (Some (Statement.mk (js "a") (js "b") true))]
        true).
Proof. vm_compute. reflexivity. Qed.

(** The first statement in order is the one applied. *)
Example priority_scan :
  fst (step JSString.search
         (new (algorithm_of [js "b -> x"; js "a -> y"]) (js "ab")))
  = Normal (Some (Statement.mk (js "b") (js "x") false)).
Proof. vm_compute. reflexivity. Qed.

(** A run to its end: every [a] becomes [b], from the left. *)
Example run_to_end :
  option_map (fun cr => (fst cr, context (snd cr), length (steps (snd cr))))
    (run JSString.search 5 (new (algorithm_of [js "a -> b"]) (js "aca")))
  = Some (Normal true, js "bcb", 3).
Proof. vm_compute. reflexivity. Qed.

(** Unary addition, [+ ->. !] on [|+||]: the pattern [+] is a quantifier
    with nothing to repeat, and [step] throws. *)
Example unary_addition :
  fst (step JSString.search (new (algorithm_of [js "+ ->. !"]) (js "|+||")))
  = Abrupt SyntaxError.
Proof. vm_compute. reflexivity. Qed.

(** A pattern that is not a regular expression makes [step] throw. *)
Example pattern_syntax_error :
  fst (step JSString.search (new (algorithm_of [js "* -> x"]) (js "a*b")))
  = Abrupt SyntaxError.
Proof. vm_compute. reflexivity. Qed.

(** A pattern that matches as a regular expression without occurring in
    the context is applied without any change, again and again. *)
Example pattern_matches_without_occurring :
  step JSString.search (new (algorithm_of [js "a* -> x"]) (js "b"))
  = (Normal (Some (Statement.mk (js "a*") (js "x") false)),
     mk (js "b") (algorithm_of [js "a* -> x"])
        [mkEntry (js "b") None;
         mkEntry (js "b") (Some (Statement.mk (js "a*") (js "x") false))]
        false).
Proof. vm_compute. reflexivity. Qed.
End Examples.

(* ================================================================== *)
(** * The properties of the specification *)
(* ================================================================== *)

Module Properties.
Import JSString Grammar Behaviour.

(** ** The runner *)

(** C1, at an input where the code departs from it.  Both patterns,
    [a+b] and [b], occur in the context [a+b]; [search] reads the first
    pattern as a regular expression, which the context does not match,
    and [step] applies the second statement. *)
Theorem step_skips_pattern_with_metacharacter :
  let A := Statement.mk (js "a+b") (js "x") false in
  let B := Statement.mk (js "b") (js "y") false in
  let algorithm := Algorithm.mk [A; B] in
  Statement.compile (js "a+b -> x") = Statement.Compiled A
  /\ Statement.compile (js "b -> y") = Statement.Compiled B
  /\ indexOf (js "a+b") (Statement.from A) = Some 0
  /\ indexOf (js "a+b") (Statement.from B) = Some 2
  /\ Runner.step JSString.search (Runner.new algorithm (js "a+b"))
     = (Normal (Some B),
        Runner.mk (js "a+y") algorithm
          [Runner.mkEntry (js "a+b") None;
           Runner.mkEntry (js "a+y") (Some B)]
          false).
Proof. repeat split; vm_compute; reflexivity. Qed.

(** C2, at an input where the code departs from it.  The statement
    [a -> $$] applied to the context [a] leaves [$], not [$$]:
    [replace] reads [$$] in the replacement as one dollar sign.  On the
    example of the claim, [a -> x] on [aa], the step yields [xa]. *)
Theorem step_substitutes_in_replacement :
  let R := Statement.mk (js "a") (js "$$") false in
  let X := Statement.mk (js "a") (js "x") false in
  Statement.compile (js "a -> $$") = Statement.Compiled R
  /\ Runner.step JSString.search (Runner.new (Algorithm.mk [R]) (js "a"))
     = (Normal (Some R),
        Runner.mk (js "$") (Algorithm.mk [R])
          [Runner.mkEntry (js "a") None; Runner.mkEntry (js "$") (Some R)]
          false)
  /\ Runner.context
       (snd (Runner.step JSString.search
               (Runner.new (Algorithm.mk [X]) (js "aa"))))
     = js "xa".
Proof. repeat split; vm_compute; reflexivity. Qed.

(** What a call of [step] on a running runner does, by the test of its
    own loop, whatever [search] is: the runner is done afterwards if and
    only if the statement applied is closing or [search] found the
    pattern of no statement; in the latter case the call returns [null]
    and leaves the context as it was, and a closing statement is applied
    before the runner is done.  The call ends abruptly only when
    [search] does, and the runner is not done then. *)
Theorem step_halts_exactly
    (search : jsstring -> jsstring -> completion Z) (r : Runner.t) :
  Runner.done r = false ->
  let statements := Algorithm.statements (Runner.algorithm r) in
  match Runner.step search r with
  | (Normal res, r') =>
      (Runner.done r' = true <->
       (exists s, res = Some s /\ Statement.closing s = true)
       \/ none_applicable search (Runner.context r) statements)
      /\ (res = None <->
          none_applicable search (Runner.context r) statements)
      /\ (res = None -> Runner.context r' = Runner.context r)
      /\ (forall s, res = Some s ->
            In s statements
            /\ Runner.context r'
               = replace (Runner.context r) (Statement.from s)
                   (Statement.to s)
            /\ hd_error (rev (Runner.steps r'))
               = Some (Runner.mkEntry (Runner.context r') (Some s)))
  | (Abrupt e, r') =>
      Runner.done r' = false
      /\ Runner.context r' = Runner.context r
      /\ exists s, In s statements
           /\ search (Runner.context r) (Statement.from s) = Abrupt e
  end.
Proof.
  intros D statements. subst statements.
  destruct (RunnerFacts.step_running search r D) as [N | pre s post E N A
                                                | pre s post e E N A].
  - repeat split; auto.
    + intros _. apply RunnerFacts.opened_context.
    + discriminate.
    + discriminate.
    + discriminate.
  - assert (NA : ~ none_applicable search (Runner.context r)
                   (Algorithm.statements (Runner.algorithm r))).
    { unfold none_applicable. rewrite E, forallb_app.
      cbn [forallb]. rewrite A. cbn [negb andb]. rewrite andb_false_r.
      discriminate. }
    assert (C : Runner.context
                  (if Statement.closing s
                   then Runner.stop (rewritten
                                       (opened r) s)
                   else rewritten (opened r) s)
                = replace (Runner.context r) (Statement.from s)
                    (Statement.to s)).
    { destruct (Statement.closing s); cbn;
        now rewrite RunnerFacts.opened_context. }
    repeat split.
    + intros H. left. exists s. split; [reflexivity|].
      destruct (Statement.closing s); [reflexivity|].
      cbn in H. now rewrite RunnerFacts.opened_done, D in H.
    + intros [(s' & [= <-] & H) | H]; [|contradiction].
      now rewrite H.
    + discriminate.
    + intros H. contradiction.
    + discriminate.
    + injection H as <-. rewrite E. apply in_elt.
    + injection H as <-. exact C.
    + injection H as <-. rewrite C.
      destruct (Statement.closing s); cbn; rewrite rev_app_distr;
        cbn; now rewrite RunnerFacts.opened_context.
  - repeat split.
    + now rewrite RunnerFacts.opened_done.
    + apply RunnerFacts.opened_context.
    + exists s. split; [rewrite E; apply in_elt | assumption].
Qed.

(** The same at a runner whose one statement is closing and applies. *)
Lemma step_halts_exactly_witness :
  Runner.done closing_example = false
  /\ (Runner.done closing_example_done = true <->
      (exists s,
          Some closing_statement = Some s /\ Statement.closing s = true)
      \/ none_applicable JSString.search (js "a") [closing_statement]).
Proof.
  split; [reflexivity|].
  exact (proj1 (step_halts_exactly JSString.search closing_example
                  eq_refl)).
Defined.

(** C3, at inputs where the code departs from it.  [search] reads a
    pattern as a regular expression, so the test of the loop of [step]
    is not whether the pattern occurs in the context.  The pattern of
    [a+b -> x] occurs in the context [a+b], yet [step] returns [null] and
    the runner is done.  The pattern of [a* -> x] does not occur in the
    context [b], yet [step] applies the statement, which is not closing,
    and the runner is not done.  The pattern of [+ -> x] does not occur
    in the context [abc], yet [step] neither returns [null] nor stops
    the runner: it throws. *)
Theorem step_halts_by_the_regular_expression :
  let A := Statement.mk (js "a+b") (js "x") false in
  let B := Statement.mk (js "a*") (js "x") false in
  let C := Statement.mk (js "+") (js "x") false in
  let one s := Algorithm.mk [s] in
  (Statement.compile (js "a+b -> x") = Statement.Compiled A
   /\ indexOf (js "a+b") (Statement.from A) = Some 0
   /\ Runner.step JSString.search (Runner.new (one A) (js "a+b"))
      = (Normal None,
         Runner.mk (js "a+b") (one A) [Runner.mkEntry (js "a+b") None]
           true))
  /\ (Statement.compile (js "a* -> x") = Statement.Compiled B
      /\ indexOf (js "b") (Statement.from B) = None
      /\ Runner.step JSString.search (Runner.new (one B) (js "b"))
         = (Normal (Some B),
            Runner.mk (js "b") (one B)
              [Runner.mkEntry (js "b") None;
               Runner.mkEntry (js "b") (Some B)]
              false))
  /\ (Statement.compile (js "+ -> x") = Statement.Compiled C
      /\ indexOf (js "abc") (Statement.from C) = None
      /\ Runner.step JSString.search (Runner.new (one C) (js "abc"))
         = (Abrupt SyntaxError,
            Runner.mk (js "abc") (one C) [Runner.mkEntry (js "abc") None]
              false)).
Proof. repeat split; vm_compute; reflexivity. Qed.

(** C4.  A call of [step] appends to the steps the initial context
    without a statement when it is the first call, and one entry when it
    applies a statement.  After a call of [step] on a new runner and any
    further calls of [step] and [stop] and changes of the algorithm, [n]
    of the calls having applied a statement, the steps begin with the
    initial context and no statement, there are [n + 1] of them, and the
    last one holds the context of the runner.  A [run] that returns
    leaves the runner as one or more calls of [step] do. *)
Theorem history_growth (search : jsstring -> jsstring -> completion Z)
    (algorithm : Algorithm.t) (initial : jsstring)
    (cs : list Runner.call) :
  (forall r,
      Runner.steps (snd (Runner.step search r))
      = Runner.steps r ++ initial_entry r
          ++ appended (fst (Runner.step search r))
               (snd (Runner.step search r)))
  /\ Runner.steps (snd (Runner.step search (Runner.new algorithm initial)))
     = Runner.mkEntry initial None
         :: appended
              (fst (Runner.step search (Runner.new algorithm initial)))
              (snd (Runner.step search (Runner.new algorithm initial)))
  /\ (let n := fst (Runner.drive search (Runner.CallStep :: cs)
                      (Runner.new algorithm initial)) in
      let r := snd (Runner.drive search (Runner.CallStep :: cs)
                      (Runner.new algorithm initial)) in
      hd_error (Runner.steps r) = Some (Runner.mkEntry initial None)
      /\ length (Runner.steps r) = n + 1
      /\ option_map Runner.entry_context (hd_error (rev (Runner.steps r)))
         = Some (Runner.context r))
  /\ (forall fuel c r',
        Runner.run search fuel (Runner.new algorithm initial) = Some (c, r')
        -> exists j,
             r' = snd (Runner.drive search
                         (Runner.CallStep :: repeat Runner.CallStep j)
                         (Runner.new algorithm initial))).
Proof.
  split; [exact (RunnerFacts.step_steps search)|]. split; [|split].
  - now rewrite RunnerFacts.step_steps.
  - exact (RunnerFacts.recorded_drive_new search algorithm initial cs).
  - intros fuel c r'.
    apply (RunnerFacts.run_drive search fuel algorithm initial c r').
Qed.

(** C4 at the same runner, run to its end. *)
Lemma history_growth_witness :
  Runner.run JSString.search 2 closing_example
  = Some (Normal true, closing_example_done)
  /\ exists j,
       closing_example_done
       = snd (Runner.drive JSString.search
                (Runner.CallStep :: repeat Runner.CallStep j)
                closing_example).
Proof.
  assert (H : Runner.run JSString.search 2 closing_example
              = Some (Normal true, closing_example_done))
    by (vm_compute; reflexivity).
  split; [exact H|].
  exact (proj2 (proj2 (proj2
           (history_growth JSString.search
              (Algorithm.mk [closing_statement]) (js "a") [])))
           2 (Normal true) closing_example_done H).
Defined.

(** C10, at an input where the code departs from it.  The statement
    [! -> $$], whose pattern is empty, applied to the context [ab]
    yields [$ab], not [$$ab]: [replace] reads [$$] in the replacement as
    one dollar sign. *)
Theorem empty_pattern_substitutes_in_replacement :
  let E := Statement.mk [] (js "$$") false in
  Statement.compile (js "! -> $$") = Statement.Compiled E
  /\ Runner.step JSString.search (Runner.new (Algorithm.mk [E]) (js "ab"))
     = (Normal (Some E),
        Runner.mk (js "$ab") (Algorithm.mk [E])
          [Runner.mkEntry (js "ab") None;
           Runner.mkEntry (js "$ab") (Some E)]
          false).
Proof. repeat split; vm_compute; reflexivity. Qed.

(** ** The algorithm *)

(** C8, at an input where the code departs from it.  With the position
    -1 the statement is put before the last one, not at the front. *)
Theorem addStatement_negative_position (a b s : Statement.t) :
  Algorithm.addStatement s (Some (-1)%Z) (Algorithm.mk [a; b])
  = Algorithm.mk [a; s; b].
Proof. reflexivity. Qed.

(** C9, at an input where the code departs from it.  Removing at
    position 0 from three statements returns the first one and leaves
    the first one alone, not the two others. *)
Theorem removeStatement_inner_position (a b c : Statement.t) :
  Algorithm.removeStatement (Some 0%Z) (Algorithm.mk [a; b; c])
  = (Some a, Algorithm.mk [a]).
Proof. reflexivity. Qed.

(** ** The statement *)

Lemma validly_constructed_words r :
  validly_constructed r ->
  forallb Statement.word_char (Statement.from r) = true
  /\ forallb Statement.word_char (Statement.to r) = true.
Proof.
  intros [(text & H) | (f & t & c & (Sf & _) & (St & _) & ->)].
  - apply StatementFacts.compile_Compiled in H
      as (L & d & R & E & _ & _ & _ & _ & ->).
    apply StatementFacts.REGEX_exec_Some in E
      as (k & (w1 & w2 & a & w3 & w4 & w5 & w6 & _ & _ & _ & _ & _ & _
               & _ & _ & SL & SR) & _).
    destruct (StatementFacts.new_Side L R
                (match d with Some _ => true | None => false end) SL SR)
      as (-> & Wf & Wt). auto.
  - destruct (StatementFacts.new_Side f t c Sf St) as (-> & Wf & Wt). auto.
Qed.

(** C5.  For a validly constructed statement [r], compiling
    [r.toString()] succeeds and yields [r] again; [toString] writes an
    empty side as [!], and [ ->. ] between the sides of a closing
    statement, [ -> ] otherwise. *)
Theorem compile_toString_roundtrip (r : Statement.t) :
  validly_constructed r ->
  Statement.compile (Statement.toString r) = Statement.Compiled r
  /\ Statement.toString r
     = shown (Statement.from r)
         ++ (if Statement.closing r then js " ->. " else js " -> ")
         ++ shown (Statement.to r).
Proof.
  intros V. destruct (validly_constructed_words r V) as [Wf Wt].
  split; [|apply StatementFacts.toString_shown].
  destruct r as [f t c]. now apply StatementFacts.compile_toString.
Qed.

(** C5 at the statement [a ->. !]. *)
Lemma compile_toString_roundtrip_witness :
  validly_constructed roundtrip_example
  /\ Statement.compile (Statement.toString roundtrip_example)
     = Statement.Compiled roundtrip_example.
Proof.
  assert (V : validly_constructed roundtrip_example).
  { left. exists (js "a =>. !"). vm_compute. reflexivity. }
  split; [exact V|].
  exact (proj1 (compile_toString_roundtrip roundtrip_example V)).
Defined.

(** C6, as the specification states it, fails: [compile] accepts
    [a ->.. b], with two dots after the arrow, which the grammar of the
    specification does not. *)
Lemma compile_accepts_two_dots :
  ~ Spec.compile_fails_exactly_when_rejected (js "a ->.. b").
Proof.
  unfold Spec.compile_fails_exactly_when_rejected. intros [_ H].
  destruct H as [e H]; [vm_compute; reflexivity|].
  vm_compute in H. discriminate.
Qed.

(** C6, amended.  [compile] fails exactly when the text has no reading
    as a sentence of [Statement.REGEX] (a side, [=] or [-], [>], any
    number of dots, a side, with optional white space around each part, a
    side being a run without white space, [!] and [.] with an optional [!]
    in front and behind), the left side taken as long as a reading allows,
    in which both sides are neither empty nor the doubled marker.  When it
    succeeds it stores the sides of that reading without their markers,
    and the statement is closing when there is at least one dot.  The
    groups [exec] captures are the parts of that reading.  The five
    examples fail, and a text with two dots after the arrow is accepted. *)
Theorem compile_fails_exactly (text : jsstring) :
  ((exists e, Statement.compile text = Statement.Throws e) <->
   ~ exists L k R,
       Reads text L k R
       /\ L <> [] /\ R <> [] /\ L <> doubled /\ R <> doubled)
  /\ (forall r,
        Statement.compile text = Statement.Compiled r <->
        exists L k R,
          Reads text L k R
          /\ L <> [] /\ R <> [] /\ L <> doubled /\ R <> doubled
          /\ r = Statement.mk (unmarked L) (unmarked R)
                   (negb (Nat.eqb k 0)))
  /\ (forall L d R,
        Statement.REGEX_exec text = Some (L, d, R) <->
        exists k, Reads text L k R /\ d = dots_group k)
  /\ (In text malformed_examples ->
      exists e, Statement.compile text = Statement.Throws e)
  /\ (text = js "a ->.. b" ->
      Statement.compile text
      = Statement.Compiled (Statement.mk (js "a") (js "b") true)).
Proof.
  split; [apply ReadingFacts.compile_fails|].
  split; [intros r; apply ReadingFacts.compile_reads|].
  split; [intros L d R; apply ReadingFacts.REGEX_exec_reads|].
  split.
  - intros [<- | [<- | [<- | [<- | [<- | []]]]]];
      eexists; vm_compute; reflexivity.
  - intros ->. vm_compute. reflexivity.
Qed.

(** C6, amended, at the text [a -> ] without a right side. *)
Lemma compile_fails_exactly_witness :
  In (js "a -> ") malformed_examples
  /\ exists e, Statement.compile (js "a -> ") = Statement.Throws e.
Proof.
  assert (H : In (js "a -> ") malformed_examples)
    by (right; left; reflexivity).
  split; [exact H|].
  exact (proj1 (proj2 (proj2 (proj2
           (compile_fails_exactly (js "a -> "))))) H).
Defined.

(** C7.  For an accepted text, the pattern and the replacement stored
    are the sides of its reading without any [!], and a side that is the
    marker alone is stored as the empty string.  In particular
    [! -> x] gives the pattern [""] and the replacement ["x"], and
    [x -> !] gives the replacement [""]. *)
Theorem compile_strips_markers (text : jsstring) (r : Statement.t) :
  Statement.compile text = Statement.Compiled r ->
  (exists L k R,
      Reads text L k R
      /\ Statement.REGEX_exec text = Some (L, dots_group k, R)
      /\ Statement.from r = unmarked L
      /\ Statement.to r = unmarked R
      /\ (L = [Chars.bang] -> Statement.from r = [])
      /\ (R = [Chars.bang] -> Statement.to r = []))
  /\ (text = js "! -> x" ->
      Statement.from r = [] /\ Statement.to r = js "x")
  /\ (text = js "x -> !" -> Statement.to r = []).
Proof.
  intros H. split; [|split].
  - apply ReadingFacts.compile_reads in H
      as (L & k & R & Rd & _ & _ & _ & _ & ->).
    exists L, k, R. cbn [Statement.from Statement.to].
    repeat split; try apply Rd; try (intros ->; reflexivity).
    apply ReadingFacts.REGEX_exec_reads. eauto.
  - intros ->. vm_compute in H. injection H as <-. split; reflexivity.
  - intros ->. vm_compute in H. injection H as <-. reflexivity.
Qed.

(** C7 at the text [! -> x]. *)
Lemma compile_strips_markers_witness :
  Statement.compile (js "! -> x")
  = Statement.Compiled (Statement.mk [] (js "x") false)
  /\ Statement.from (Statement.mk [] (js "x") false) = []
  /\ Statement.to (Statement.mk [] (js "x") false) = js "x".
Proof.
  assert (H : Statement.compile (js "! -> x")
              = Statement.Compiled (Statement.mk [] (js "x") false))
    by (vm_compute; reflexivity).
  split; [exact H|].
  exact (proj1 (proj2 (compile_strips_markers (js "! -> x")
                         (Statement.mk [] (js "x") false) H)) eq_refl).
Defined.
End Properties.

(* ================================================================== *)
(** * Further properties of the code *)
(* ================================================================== *)

(** ** Facts about [Statement.regexpEscape] *)

Module EscapeFacts.
Import Regex JSString Statement StatementTerms.

Lemma exec_from_ge s r : forall tries i j y,
  exec_from s r i tries = Some (j, y) -> i <= j.
Proof.
  induction tries as [|tries IH]; intros i j y; cbn [exec_from];
    destruct (match_at s r i).
  - intros [= <- _]. lia.
  - discriminate.
  - intros [= <- _]. lia.
  - intros H. apply IH in H. lia.
Qed.

Lemma matches_head_ge s r fuel : forall i j e ms,
  matches s r i fuel = (j, e) :: ms -> i <= j.
Proof.
  destruct fuel as [|fuel]; intros i j e ms; cbn [matches]; [discriminate|].
  destruct (Nat.ltb (length s) i); [discriminate|].
  destruct (exec_from s r i (length s - i)) as [[k y]|] eqn:E;
    [|discriminate].
  intros [= <- _ _]. now apply exec_from_ge in E.
Qed.

(** A code unit before the first match is copied. *)
Lemma substitute_skip pre c suf template ms :
  match ms with [] => True | (j, _) :: _ => length pre < j end ->
  substitute (pre ++ c :: suf) template ms (length pre)
  = c :: substitute (pre ++ c :: suf) template ms (S (length pre)).
Proof.
  assert (K : skipn (length pre) (pre ++ c :: suf) = c :: suf).
  { rewrite skipn_app, Nat.sub_diag, skipn_all. reflexivity. }
  assert (K' : skipn (S (length pre)) (pre ++ c :: suf) = suf).
  { replace (S (length pre)) with (1 + length pre) by lia.
    now rewrite <- skipn_skipn, K. }
  destruct ms as [|[j e] ms]; cbn [substitute]; intros H.
  - now rewrite K, K'.
  - destruct (Nat.leb_spec (length pre) j); [|lia].
    destruct (Nat.leb_spec (S (length pre)) j); [|lia].
    rewrite K, K'.
    replace (j - length pre) with (S (j - S (length pre))) by lia.
    reflexivity.
Qed.

(** The matches of the class from an index on, substituted: every code
    unit from there on, escaped. *)
Lemma substitute_escaped suf : forall pre fuel,
  length suf < fuel ->
  substitute (pre ++ suf) [Chars.bslash; Chars.dollar; Chars.amp]
    (matches (pre ++ suf) (CharSet escaped) (length pre) fuel) (length pre)
  = flat_map escape_unit suf.
Proof.
  induction suf as [|c suf IH]; intros pre fuel F.
  - destruct fuel as [|fuel]; [cbn in F; lia|]. cbn [matches flat_map].
    rewrite app_nil_r, Nat.ltb_irrefl, Nat.sub_diag.
    cbn [exec_from]. unfold match_at. rewrite skipn_all.
    cbn [matchR rest hd_error substitute]. apply skipn_all.
  - assert (K : skipn (length pre) (pre ++ c :: suf) = c :: suf).
    { rewrite skipn_app, Nat.sub_diag, skipn_all. reflexivity. }
    assert (L : length (pre ++ c :: suf) - length pre = S (length suf)).
    { rewrite length_app. cbn [length]. lia. }
    assert (E : pre ++ c :: suf = (pre ++ [c]) ++ suf)
      by now rewrite <- app_assoc.
    assert (L' : length (pre ++ [c]) = S (length pre))
      by (rewrite length_app; cbn; lia).
    destruct fuel as [|fuel]; [cbn in F; lia|]. cbn [length] in F.
    cbn [flat_map]. unfold escape_unit at 1.
    destruct (escaped c) eqn:P.
    + cbn [matches].
      destruct (Nat.ltb_spec (length (pre ++ c :: suf)) (length pre));
        [rewrite length_app in *; cbn [length] in *; lia|].
      rewrite L. cbn [exec_from]. unfold match_at. rewrite K.
      cbn [matchR rest hd_error captures]. rewrite P. cbn [hd_error rest].
      replace (length (pre ++ c :: suf) - length suf) with (S (length pre))
        by (rewrite length_app; cbn [length]; lia).
      destruct (Nat.eqb_spec (S (length pre)) (length pre)); [lia|].
      cbn [substitute]. rewrite Nat.leb_refl, Nat.sub_diag.
      replace (S (length pre) - length pre) with 1 by lia.
      rewrite K. cbn [firstn app GetSubstitution].
      change (N.eqb Chars.bslash Chars.dollar) with false.
      change (N.eqb Chars.dollar Chars.dollar) with true.
      change (N.eqb Chars.amp Chars.dollar) with false.
      change (N.eqb Chars.amp Chars.amp) with true.
      cbn [app]. do 2 f_equal.
      rewrite E, <- L'. apply IH. lia.
    + assert (M : matches (pre ++ c :: suf) (CharSet escaped)
                    (length pre) (S fuel)
                  = matches (pre ++ c :: suf) (CharSet escaped)
                      (S (length pre)) (S fuel)).
      { cbn [matches].
        destruct (Nat.ltb_spec (length (pre ++ c :: suf)) (length pre));
          [rewrite length_app in *; cbn [length] in *; lia|].
        destruct (Nat.ltb_spec (length (pre ++ c :: suf)) (S (length pre)));
          [rewrite length_app in *; cbn [length] in *; lia|].
        rewrite L. cbn [exec_from]. unfold match_at at 1. rewrite K.
        cbn [matchR rest hd_error]. rewrite P. cbn [hd_error].
        replace (length (pre ++ c :: suf) - S (length pre))
          with (length suf) by lia.
        reflexivity. }
      rewrite M, substitute_skip.
      * cbn [app]. f_equal. rewrite E, <- L'. apply IH. lia.
      * destruct (matches _ _ (S (length pre)) (S fuel))
          as [|[j e] ms] eqn:Q; [exact I|].
        apply matches_head_ge in Q. lia.
Qed.

Lemma regexpEscape_units text :
  regexpEscape text = flat_map escape_unit text.
Proof.
  unfold regexpEscape, replace_global.
  apply (substitute_escaped text []). lia.
Qed.

Lemma length_units text :
  length (flat_map escape_unit text)
  = length text + length (filter escaped text).
Proof.
  induction text as [|c text IH]; [reflexivity|].
  cbn [flat_map filter]. rewrite length_app, IH. unfold escape_unit.
  destruct (escaped c); cbn [length]; lia.
Qed.

Lemma units_unescaped text :
  forallb (fun c => negb (escaped c)) text = true ->
  flat_map escape_unit text = text.
Proof.
  induction text as [|c text IH]; cbn [forallb flat_map]; [reflexivity|].
  intros H. apply andb_true_iff in H as [C H].
  apply negb_true_iff in C. unfold escape_unit at 1. rewrite C.
  cbn [app]. f_equal. auto.
Qed.

(** A unit begins with a backslash exactly when it is escaped, and the
    code unit can be read off it. *)
Lemma units_injective a : forall b,
  flat_map escape_unit a = flat_map escape_unit b -> a = b.
Proof.
  assert (B : escaped Chars.bslash = true) by reflexivity.
  induction a as [|c a IH]; intros [|d b]; cbn [flat_map].
  - reflexivity.
  - unfold escape_unit at 1. destruct (escaped d); discriminate.
  - unfold escape_unit at 1. destruct (escaped c); discriminate.
  - unfold escape_unit at 1 3.
    destruct (escaped c) eqn:C, (escaped d) eqn:D; cbn [app]; intros E.
    + injection E as -> E. f_equal. now apply IH.
    + injection E as <- _. congruence.
    + injection E as -> _. congruence.
    + injection E as -> E. f_equal. now apply IH.
Qed.

(** The class holds the syntax characters but the square brackets. *)
Lemma escapable_cases c :
  escapable c = true ->
  (escaped c = true /\ is_syntax_character c = true)
  \/ (escaped c = false /\ is_syntax_character c = false).
Proof.
  unfold escapable, escaped, is_syntax_character. cbn [existsb].
  destruct (N.eqb_spec c Chars.minus) as [->|_]; [discriminate|].
  destruct (N.eqb_spec c Chars.comma) as [->|_]; [discriminate|].
  destruct (N.eqb_spec c Chars.hash) as [->|_]; [discriminate|].
  destruct (N.eqb_spec c Chars.lbrack) as [->|_];
    [vm_compute; discriminate|].
  destruct (N.eqb_spec c Chars.rbrack) as [->|_];
    [vm_compute; discriminate|].
  destruct (is_space c); [discriminate|]. intros _.
  destruct (N.eqb_spec c Chars.lbrace) as [->|_]; [now left|].
  destruct (N.eqb_spec c Chars.rbrace) as [->|_]; [now left|].
  destruct (N.eqb_spec c Chars.lparen) as [->|_]; [now left|].
  destruct (N.eqb_spec c Chars.rparen) as [->|_]; [now left|].
  destruct (N.eqb_spec c Chars.star) as [->|_]; [now left|].
  destruct (N.eqb_spec c Chars.plus) as [->|_]; [now left|].
  destruct (N.eqb_spec c Chars.quest) as [->|_]; [now left|].
  destruct (N.eqb_spec c Chars.dot) as [->|_]; [now left|].
  destruct (N.eqb_spec c Chars.bslash) as [->|_]; [now left|].
  destruct (N.eqb_spec c Chars.caret) as [->|_]; [now left|].
  destruct (N.eqb_spec c Chars.dollar) as [->|_]; [now left|].
  destruct (N.eqb_spec c Chars.bar) as [->|_]; [now left|].
  now right.
Qed.

Lemma parse_bslash d p atom done :
  parse (Chars.bslash :: d :: p) atom done
  = if is_syntax_character d || N.eqb d Chars.slash
    then parse p (Some (chr d)) (close_atom atom done)
    else Abrupt OutsideFragment.
Proof. reflexivity. Qed.

(** An escaped pattern is read as the sequence of its characters. *)
Lemma parse_escaped p : forall atom done,
  forallb escapable p = true ->
  parse (flat_map escape_unit p) atom done
  = Normal (seqs (rev (close_atom atom done) ++ map chr p)).
Proof.
  induction p as [|c p IH]; intros atom done P.
  - cbn [flat_map parse map]. unfold alternative. now rewrite app_nil_r.
  - cbn [forallb] in P. apply andb_true_iff in P as [C P].
    cbn [flat_map map]. unfold escape_unit at 1.
    destruct (escapable_cases c C) as [[E S] | [E S]]; rewrite E.
    + cbn [app]. rewrite parse_bslash, S. cbn [orb].
      rewrite (IH _ _ P). cbn [close_atom rev]. now rewrite <- app_assoc.
    + apply JSStringFacts.not_syntax_character in S
        as (Q & B & A & D & T & S & K).
      cbn [app parse]. rewrite Q, B, A, D, T, S, K, (IH _ _ P).
      cbn [close_atom rev]. now rewrite <- app_assoc.
Qed.

End EscapeFacts.

(** ** Facts about the constructor and the errors of [compile] *)

Module ConstructorFacts.
Import JSString MatcherTerms Statement Grammar StatementTerms.

Lemma first_occurrence c s :
  lacks c s \/ exists w v, s = w ++ c :: v /\ lacks c w.
Proof.
  unfold lacks. induction s as [|a s IH]; [now left|].
  destruct (N.eqb_spec a c) as [->|N].
  - right. exists [], s. auto.
  - destruct IH as [L | (w & v & -> & L)].
    + left. cbn [forallb]. apply N.eqb_neq in N. now rewrite N, L.
    + right. exists (a :: w), v. split; [reflexivity|].
      cbn [forallb]. apply N.eqb_neq in N. now rewrite N, L.
Qed.

Lemma remove_first_absent c s : lacks c s -> remove_first c s = s.
Proof.
  unfold lacks. induction s as [|a s IH]; cbn [forallb remove_first];
    [reflexivity|].
  intros H. apply andb_true_iff in H as [A H].
  apply negb_true_iff in A. rewrite A. f_equal. auto.
Qed.

Lemma remove_first_found c w v :
  lacks c w -> remove_first c (w ++ c :: v) = w ++ v.
Proof.
  unfold lacks. induction w as [|a w IH]; cbn [forallb remove_first app].
  - now rewrite N.eqb_refl.
  - intros H. apply andb_true_iff in H as [A H].
    apply negb_true_iff in A. rewrite A. f_equal. auto.
Qed.

(** [s.replace(c, '')] takes the first [c] out of [s]. *)
Lemma replace_remove_first c s : replace s [c] [] = remove_first c s.
Proof.
  destruct (first_occurrence c s) as [L | (w & v & -> & L)].
  - now rewrite JSStringFacts.replace_char_absent, remove_first_absent.
  - now rewrite JSStringFacts.replace_char_found, remove_first_found.
Qed.

Lemma markers_remove_first s :
  markers (remove_first Chars.bang s) = markers s - 1.
Proof.
  unfold markers. induction s as [|a s IH]; [reflexivity|].
  cbn [remove_first count_occ].
  destruct (N.eqb_spec a Chars.bang) as [->|N].
  - destruct (N.eq_dec Chars.bang Chars.bang); [lia | congruence].
  - cbn [count_occ]. destruct (N.eq_dec a Chars.bang); [congruence|].
    exact IH.
Qed.

Lemma unmarked_remove_first s :
  unmarked (remove_first Chars.bang s) = unmarked s.
Proof.
  unfold unmarked. induction s as [|a s IH]; [reflexivity|].
  cbn [remove_first filter].
  destruct (N.eqb a Chars.bang) eqn:E; cbn [negb filter]; [reflexivity|].
  rewrite E. cbn [negb]. now f_equal.
Qed.

Lemma setTo_remove_first s :
  setTo s = remove_first Chars.bang (remove_first Chars.bang s).
Proof. unfold setTo. now rewrite !replace_remove_first. Qed.

(** The branches of [setFrom] store the same value. *)
Lemma setFrom_setTo f : setFrom f = setTo f.
Proof. unfold setFrom, setTo. now destruct (jsstring_eqb f [Chars.bang]). Qed.

(** What [compile] makes of the reading of a text. *)
Lemma compile_read text L k R :
  Reads text L k R ->
  compile text
  = if Nat.ltb (length L) 1 then Throws NoLHS
    else if Nat.ltb (length R) 1 then Throws NoRHS
    else if jsstring_eqb L doubled then Throws DoubleEmptyLHS
    else if jsstring_eqb R doubled then Throws DoubleEmptyRHS
    else Compiled (mk (unmarked L) (unmarked R) (negb (Nat.eqb k 0))).
Proof.
  intros Rd.
  assert (E : REGEX_exec text = Some (L, dots_group k, R))
    by (apply ReadingFacts.REGEX_exec_reads; eauto).
  unfold compile. rewrite E. unfold doubled.
  destruct (Nat.ltb (length L) 1); [reflexivity|].
  destruct (Nat.ltb (length R) 1); [reflexivity|].
  destruct (jsstring_eqb L _); [reflexivity|].
  destruct (jsstring_eqb R _); [reflexivity|].
  destruct Rd as [(w1 & w2 & a & w3 & w4 & w5 & w6 & _ & _ & _ & _ & _
                     & _ & _ & _ & SL & SR) _].
  destruct (StatementFacts.new_Side L R
              (match dots_group k with Some _ => true | None => false end)
              SL SR) as (-> & _ & _).
  now destruct k.
Qed.

Lemma compile_unread text :
  (~ exists L k R, Sentence text L k R) ->
  compile text = Throws InvalidStatement.
Proof.
  intros N. apply StatementFacts.REGEX_exec_None in N.
  unfold compile. now rewrite N.
Qed.

(** A text has a reading with a longest left side, or none at all. *)
Lemma read_or_not text :
  (exists L k R, Reads text L k R) \/ ~ exists L k R, Sentence text L k R.
Proof.
  destruct (REGEX_exec text) as [[[L d] R]|] eqn:E.
  - left. apply ReadingFacts.REGEX_exec_reads in E as (k & Rd & _). eauto.
  - right. now apply StatementFacts.REGEX_exec_None.
Qed.

(** The sides [compile] stores are words. *)
Lemma compile_words text r :
  compile text = Compiled r -> word (from r) /\ word (to r).
Proof.
  intros H. apply StatementFacts.compile_Compiled in H
    as (L & d & R & E & _ & _ & _ & _ & ->).
  apply StatementFacts.REGEX_exec_Some in E as (k & S & _).
  destruct S as (w1 & w2 & a & w3 & w4 & w5 & w6 & _ & _ & _ & _ & _
                   & _ & _ & _ & SL & SR).
  destruct (StatementFacts.new_Side L R
              (match d with Some _ => true | None => false end) SL SR)
    as (-> & A & B).
  auto.
Qed.
End ConstructorFacts.

(** ** Facts about white space around a statement *)

Module PaddingFacts.
Import JSString MatcherTerms Statement Grammar.

Ltac assoc :=
  cbn [app]; repeat (rewrite <- app_assoc; cbn [app]); reflexivity.

Lemma strip_front : forall u s w c x,
  spaces u -> spaces w -> is_space c = false ->
  u ++ s = w ++ c :: x ->
  exists w', w = u ++ w' /\ s = w' ++ c :: x /\ spaces w'.
Proof.
  unfold spaces.
  induction u as [|d u IH]; intros s w c x U W C E; cbn [app] in E.
  - exists w. auto.
  - cbn [forallb] in U. apply andb_true_iff in U as [Ud U].
    destruct w as [|d' w]; cbn [app] in E.
    + injection E as -> _. congruence.
    + injection E as <- E. cbn [forallb] in W.
      apply andb_true_iff in W as [_ W].
      destruct (IH s w c x U W C E) as (w' & -> & -> & S).
      exists w'. auto.
Qed.

Lemma strip_back : forall s v y c w,
  spaces v -> spaces w -> is_space c = false ->
  s ++ v = y ++ c :: w ->
  exists w', w = w' ++ v /\ s = y ++ c :: w' /\ spaces w'.
Proof.
  unfold spaces.
  induction s as [|d s IH]; intros v y c w V W C E; cbn [app] in E.
  - rewrite E, forallb_app in V. cbn [forallb] in V. rewrite C in V.
    cbn in V. rewrite andb_false_r in V. discriminate.
  - destruct y as [|d' y]; cbn [app] in E.
    + injection E as -> E. exists s. rewrite <- E, forallb_app in W.
      apply andb_true_iff in W as [W _]. auto.
    + injection E as <- E.
      destruct (IH v y c w V W C E) as (w' & -> & -> & S).
      exists w'. auto.
Qed.

Lemma spaces_nil : spaces [].
Proof. reflexivity. Qed.

Lemma arrow_head a :
  a = Chars.equal \/ a = Chars.minus -> is_space a = false.
Proof. intros [-> | ->]; reflexivity. Qed.

Lemma Side_last R c : Side (R ++ [c]) -> is_space c = false.
Proof.
  intros S. apply ReadingFacts.Side_no_space in S.
  rewrite forallb_app in S. apply andb_true_iff in S as [_ S].
  cbn [forallb] in S. rewrite andb_true_r in S.
  unfold non_space in S. now apply negb_true_iff in S.
Qed.

(** White space around a text changes none of its readings. *)
Lemma Sentence_padded u v text L k R :
  spaces u -> spaces v ->
  Sentence (u ++ text ++ v) L k R <-> Sentence text L k R.
Proof.
  intros U V. split.
  - intros (w1 & w2 & a & w3 & w4 & w5 & w6 & E & P1 & P2 & P3 & P4 & P5
              & P6 & A & SL & SR).
    assert (F : exists w1' w2',
               spaces w1' /\ spaces w2'
               /\ text ++ v
                  = (w1' ++ L ++ w2' ++ a :: w3)
                      ++ Chars.gt :: w4 ++ repeat Chars.dot k ++ w5
                      ++ R ++ w6).
    { destruct L as [|c L].
      - assert (E' : u ++ (text ++ v)
                     = (w1 ++ w2) ++ a :: w3 ++ Chars.gt :: w4
                         ++ repeat Chars.dot k ++ w5 ++ R ++ w6)
          by (rewrite E; assoc).
        clear E. apply strip_front in E' as (w' & _ & E & S);
          auto using ReadingFacts.spaces_app, arrow_head.
        exists w', []. repeat split; [assumption|]. rewrite E. assoc.
      - change (u ++ text ++ v
                = w1 ++ c :: (L ++ w2 ++ a :: w3 ++ Chars.gt :: w4
                                ++ repeat Chars.dot k ++ w5 ++ R ++ w6))
          in E.
        apply strip_front in E as (w' & _ & E & S); auto;
          [|now apply (PriorityFacts.Side_head c L)].
        exists w', w2. repeat split; try assumption. rewrite E. assoc. }
    destruct F as (w1' & w2' & Q1 & Q2 & F).
    set (front := w1' ++ L ++ w2' ++ a :: w3) in F.
    assert (B : exists w4' w5' w6',
               spaces w4' /\ spaces w5' /\ spaces w6'
               /\ text = front ++ Chars.gt :: w4' ++ repeat Chars.dot k
                           ++ w5' ++ R ++ w6').
    { destruct R as [|c0 R0].
      - cbn [app] in F. destruct k as [|k].
        + cbn [repeat app] in F.
          apply strip_back in F as (w' & _ & -> & S); auto;
            [|auto using ReadingFacts.spaces_app].
          exists w', [], []. repeat split; try assumption.
          cbn [repeat app]. now rewrite !app_nil_r.
        + cbn [repeat] in F. rewrite repeat_cons in F.
          assert (F' : text ++ v
                       = (front ++ Chars.gt :: w4 ++ repeat Chars.dot k)
                           ++ Chars.dot :: (w5 ++ w6))
            by (rewrite F; assoc).
          apply strip_back in F' as (w' & _ & -> & S); auto;
            [|auto using ReadingFacts.spaces_app].
          exists w4, w', []. repeat split; try assumption.
          cbn [repeat]. rewrite repeat_cons, app_nil_r. assoc.
      - destruct (@exists_last _ (c0 :: R0) ltac:(discriminate))
          as (R1 & c & ER).
        rewrite ER in *.
        assert (F' : text ++ v
                     = (front ++ Chars.gt :: w4 ++ repeat Chars.dot k
                          ++ w5 ++ R1)
                         ++ c :: w6)
          by (rewrite F; assoc).
        apply strip_back in F' as (w' & _ & -> & S); auto;
          [|now apply (Side_last R1 c)].
        exists w4, w5, w'. repeat split; try assumption. assoc. }
    destruct B as (w4' & w5' & w6' & Q4 & Q5 & Q6 & ->).
    exists w1', w2', a, w3, w4', w5', w6'. subst front.
    repeat split; try assumption. assoc.
  - intros (w1 & w2 & a & w3 & w4 & w5 & w6 & -> & P1 & P2 & P3 & P4 & P5
              & P6 & A & SL & SR).
    exists (u ++ w1), w2, a, w3, w4, w5, (w6 ++ v).
    repeat split; auto using ReadingFacts.spaces_app. assoc.
Qed.

Lemma Reads_padded u v text L k R :
  spaces u -> spaces v ->
  Reads (u ++ text ++ v) L k R <-> Reads text L k R.
Proof.
  intros U V. unfold Reads.
  assert (X : forall L' k' R',
            Sentence (u ++ text ++ v) L' k' R' <-> Sentence text L' k' R')
    by (intros; now apply Sentence_padded).
  split; intros [S M]; split.
  - now apply X.
  - intros L' k' R' S'. apply (M L' k' R'). now apply X.
  - now apply X.
  - intros L' k' R' S'. apply (M L' k' R'). now apply X.
Qed.

Lemma REGEX_exec_padded u v text :
  spaces u -> spaces v ->
  REGEX_exec (u ++ text ++ v) = REGEX_exec text.
Proof.
  intros U V. destruct (REGEX_exec text) as [[[L d] R]|] eqn:E.
  - apply ReadingFacts.REGEX_exec_reads in E as (k & Rd & ->).
    apply ReadingFacts.REGEX_exec_reads. exists k. split; [|reflexivity].
    now apply (Reads_padded u v).
  - apply StatementFacts.REGEX_exec_None.
    apply StatementFacts.REGEX_exec_None in E.
    intros (L & k & R & S). apply E. exists L, k, R.
    now apply (Sentence_padded u v text L k R U V).
Qed.
End PaddingFacts.

(** ** Facts about the array of statements *)

Module ArrayFacts.
Import Algorithm.

Lemma nth_inserted {A} (l : list A) s i q :
  i <= length l ->
  nth_error (firstn i l ++ s :: skipn i l) q
  = if Nat.ltb q i then nth_error l q
    else if Nat.eqb q i then Some s
    else nth_error l (q - 1).
Proof.
  intros H. rewrite nth_error_app, firstn_length_le by assumption.
  destruct (Nat.ltb_spec q i) as [Q|Q].
  - rewrite nth_error_firstn. now destruct (Nat.ltb_spec q i); [|lia].
  - destruct (Nat.eqb_spec q i) as [->|N].
    + now rewrite Nat.sub_diag.
    + replace (q - i) with (S (q - i - 1)) by lia.
      cbn [nth_error]. rewrite nth_error_skipn. f_equal. lia.
Qed.

Lemma nth_replaced {A} (l : list A) s i q :
  i <= length l ->
  nth_error (firstn i l ++ s :: skipn (S i) l) q
  = if Nat.eqb q i then Some s else nth_error l q.
Proof.
  intros H. rewrite nth_error_app, firstn_length_le by assumption.
  destruct (Nat.ltb_spec q i) as [Q|Q].
  - rewrite nth_error_firstn.
    destruct (Nat.ltb_spec q i); [|lia].
    destruct (Nat.eqb_spec q i); [lia | reflexivity].
  - destruct (Nat.eqb_spec q i) as [->|N].
    + now rewrite Nat.sub_diag.
    + replace (q - i) with (S (q - i - 1)) by lia.
      cbn [nth_error]. rewrite nth_error_skipn. f_equal. lia.
Qed.

Lemma length_inserted {A} (l : list A) s i :
  length (firstn i l ++ s :: skipn i l) = S (length l).
Proof.
  rewrite length_app. cbn [length].
  rewrite Nat.add_succ_r, <- length_app, firstn_skipn. reflexivity.
Qed.

Lemma length_replaced {A} (l : list A) s i :
  i <= length l ->
  length (firstn i l ++ s :: skipn (S i) l) = Nat.max (length l) (i + 1).
Proof.
  intros H. rewrite length_app, firstn_length_le by assumption.
  cbn [length]. rewrite length_skipn. lia.
Qed.

Lemma replaced_twice {A} (l : list A) s old i :
  nth_error l i = Some old ->
  firstn i (firstn i l ++ s :: skipn (S i) l)
    ++ old :: skipn (S i) (firstn i l ++ s :: skipn (S i) l)
  = l.
Proof.
  intros E.
  assert (I : i < length l) by (apply nth_error_Some; congruence).
  assert (L : length (firstn i l) = i) by (apply firstn_length_le; lia).
  rewrite firstn_app, firstn_firstn, Nat.min_id, L, Nat.sub_diag.
  cbn [firstn]. rewrite app_nil_r.
  assert (K : skipn (S i) (firstn i l ++ s :: skipn (S i) l)
              = skipn (S i) l).
  { rewrite skipn_app, L. replace (S i - i) with 1 by lia.
    rewrite skipn_all2 by lia. reflexivity. }
  rewrite K. now apply firstn_skipn_middle.
Qed.

Lemma setStatement_inside s p a :
  (0 <= p <= Z.of_nat (length (statements a)))%Z ->
  setStatement s p a
  = Some (nth_error (statements a) (Z.to_nat p),
          mk (firstn (Z.to_nat p) (statements a)
                ++ s :: skipn (S (Z.to_nat p)) (statements a))).
Proof.
  intros H. unfold setStatement.
  destruct (Z.ltb_spec p 0); [lia|].
  now destruct (Z.ltb_spec (Z.of_nat (length (statements a))) p); [lia|].
Qed.

Lemma setStatement_outside s p a :
  ~ (0 <= p <= Z.of_nat (length (statements a)))%Z ->
  setStatement s p a = None.
Proof.
  intros H. unfold setStatement.
  destruct (Z.ltb_spec p 0); [reflexivity|].
  now destruct (Z.ltb_spec (Z.of_nat (length (statements a))) p); [|lia].
Qed.

Lemma eta a : mk (statements a) = a.
Proof. now destruct a. Qed.

Lemma pop_nonempty {A} (x : A) l : fst (pop (x :: l)) <> None.
Proof.
  unfold pop. destruct (rev (x :: l)) eqn:E; [|discriminate].
  apply (f_equal (@length _)) in E. rewrite length_rev in E. discriminate.
Qed.
End ArrayFacts.

(** ** Facts about [run] and the steps *)

Module RunFacts.
Import JSString MatcherTerms Runner Behaviour RunnerTerms.

Section Host.
Variable search : jsstring -> jsstring -> completion Z.

Lemma step_algorithm r : algorithm (snd (step search r)) = algorithm r.
Proof.
  destruct (done r) eqn:D.
  - now rewrite (RunnerFacts.step_done search r D).
  - destruct (RunnerFacts.step_running search r D)
      as [H | pre s post E H A | pre s post e E H A]; cbn [snd].
    + apply RunnerFacts.opened_algorithm.
    + destruct (Statement.closing s); cbn;
        apply RunnerFacts.opened_algorithm.
    + apply RunnerFacts.opened_algorithm.
Qed.

Lemma stop_drive cs : forall r,
  done r = true ->
  fst (drive search cs r) = 0
  /\ context (snd (drive search cs r)) = context r
  /\ steps (snd (drive search cs r)) = steps r
  /\ done (snd (drive search cs r)) = true.
Proof.
  induction cs as [|[| |a] cs IH]; intros r D; cbn [drive].
  - auto.
  - rewrite (RunnerFacts.step_done search r D).
    specialize (IH r D). destruct (drive search cs r) as [n r'].
    cbn [fst snd fired] in *. tauto.
  - apply (IH (stop r)). reflexivity.
  - apply (IH (mk (context r) a (steps r) (done r))). exact D.
Qed.

(** The loop of [step] when [search] finds none of the patterns. *)
Lemma scan_misses c l : forall last r,
  context r = c ->
  Forall (fun s => search c (Statement.from s) = Normal (-1)%Z) l ->
  exists last', scan search l last r = Normal (mkScanned false last' r).
Proof.
  induction l as [|s l IH]; intros last r C F; cbn [scan].
  - eauto.
  - apply Forall_cons_iff in F as [A F]. rewrite C, A. cbn.
    now apply IH.
Qed.

Lemma run_loop_end fuel : forall r r',
  done r = false ->
  run_loop search fuel r = Some (Normal tt, r') ->
  done r' = true
  /\ algorithm r' = algorithm r
  /\ (none_applicable search (context r')
        (Algorithm.statements (algorithm r))
      \/ exists s,
           In s (Algorithm.statements (algorithm r))
           /\ Statement.closing s = true
           /\ hd_error (rev (steps r'))
              = Some (mkEntry (context r') (Some s))).
Proof.
  induction fuel as [|fuel IH]; intros r r' D; cbn [run_loop]; rewrite D;
    [discriminate|].
  assert (X : forall r1, done r1 = true ->
              run_loop search fuel r1 = Some (Normal tt, r') -> r' = r1).
  { intros r1 D1. destruct fuel; cbn [run_loop]; rewrite D1; congruence. }
  destruct (RunnerFacts.step_running search r D)
    as [H | pre s post E H A | pre s post e E H A].
  - intros R. apply X in R; [|reflexivity]. subst r'. cbn.
    rewrite RunnerFacts.opened_algorithm, RunnerFacts.opened_context. auto.
  - destruct (Statement.closing s) eqn:C.
    + intros R. apply X in R; [|reflexivity]. subst r'. cbn.
      rewrite RunnerFacts.opened_algorithm. repeat split. right.
      exists s. repeat split; [rewrite E; apply in_elt | assumption|].
      rewrite rev_app_distr. reflexivity.
    + intros R. apply IH in R;
        [|cbn; now rewrite RunnerFacts.opened_done].
      cbn [rewritten algorithm] in R.
      rewrite RunnerFacts.opened_algorithm in R. exact R.
  - discriminate.
Qed.
End Host.

(** With [JSString.search] and literal statements. *)
Lemma occurs_indexOf p c :
  occurs p c <-> indexOf c p <> None.
Proof.
  split.
  - intros (u & v & ->) N.
    now apply (JSStringFacts.indexOf_None _ _ N u v).
  - destruct (indexOf c p) as [i|] eqn:E; [|congruence]. intros _.
    apply JSStringFacts.indexOf_Some in E as (u & v & -> & _).
    now exists u, v.
Qed.

Lemma rewrites_indexOf c s i :
  indexOf c (Statement.from s) = Some i ->
  rewrites c s
    (firstn i c ++ Statement.to s
       ++ skipn (i + length (Statement.from s)) c).
Proof.
  intros E. pose proof (JSStringFacts.indexOf_first _ _ _ E) as F.
  apply JSStringFacts.indexOf_Some in E as (u & v & -> & <-).
  exists u, v. repeat split.
  - rewrite firstn_app, Nat.sub_diag, firstn_all. cbn [firstn].
    rewrite app_nil_r. do 2 f_equal.
    rewrite app_assoc, <- length_app, skipn_app, Nat.sub_diag, skipn_all.
    reflexivity.
  - exact F.
Qed.

(** A call of [step] on a running runner with literal statements. *)
Lemma step_literal r :
  done r = false ->
  Forall literal (Algorithm.statements (algorithm r)) ->
  match step search r with
  | (Normal None, r') =>
      (forall s, In s (Algorithm.statements (algorithm r)) ->
                 ~ occurs (Statement.from s) (context r))
      /\ context r' = context r /\ done r' = true
  | (Normal (Some s), r') =>
      exists pre post,
        Algorithm.statements (algorithm r) = pre ++ s :: post
        /\ (forall q, In q pre -> ~ occurs (Statement.from q) (context r))
        /\ rewrites (context r) s (context r')
        /\ done r' = Statement.closing s
  | (Abrupt _, _) => False
  end.
Proof.
  intros D L.
  assert (P : Forall (fun s => plain (Statement.from s) = true)
                (Algorithm.statements (algorithm r)))
    by (eapply Forall_impl; [|exact L]; now intros s [A _]).
  assert (N : forall c l,
            Forall (fun s => indexOf c (Statement.from s) = None) l ->
            forall s, In s l -> ~ occurs (Statement.from s) c).
  { intros c l F s I O. rewrite Forall_forall in F.
    apply occurs_indexOf in O. now apply O, F. }
  pose proof (PlainFacts.step_plain r D P) as H.
  destruct (step search r) as [[[s|]|e] r']; [| |exact H].
  - destruct H as (pre & post & i & E & F & I & C & Dn).
    exists pre, post. repeat split; try assumption; [now apply N|].
    rewrite C.
    + now apply rewrites_indexOf.
    + rewrite Forall_forall in L. apply L. rewrite E. apply in_elt.
  - destruct H as (F & C & Dn). repeat split; try assumption.
    now apply N.
Qed.

(** The loop of [run] on shrinking statements ends before the fuel
    does. *)
Lemma run_loop_shrinking fuel : forall r,
  done r = false ->
  Forall shrinking (Algorithm.statements (algorithm r)) ->
  length (context r) < fuel ->
  exists r',
    run_loop search fuel r = Some (Normal tt, r')
    /\ done r' = true
    /\ length (context r') <= length (context r).
Proof.
  induction fuel as [|fuel IH]; intros r D S F; [lia|].
  cbn [run_loop]. rewrite D.
  assert (Y : forall r1, done r1 = true ->
              run_loop search fuel r1 = Some (Normal tt, r1))
    by (intros r1 D1; destruct fuel; cbn [run_loop]; now rewrite D1).
  assert (L : Forall literal (Algorithm.statements (algorithm r)))
    by (eapply Forall_impl; [|exact S]; now intros s [A _]).
  pose proof (step_literal r D L) as H.
  pose proof (step_algorithm search r) as G.
  destruct (step search r) as [[[s|]|e] r1]; cbn [snd] in G;
    [| |destruct H].
  - destruct H as (pre & post & E & _ & (u & v & Eu & Ev & _) & Dn).
    assert (Sh : shrinking s).
    { rewrite Forall_forall in S. apply S. rewrite E. apply in_elt. }
    destruct Sh as [_ Sh].
    assert (Lt : length (context r1) < length (context r))
      by (rewrite Eu, Ev, !length_app; lia).
    destruct (Statement.closing s).
    + exists r1. rewrite (Y r1 Dn). repeat split; [assumption | lia].
    + destruct (IH r1 Dn) as (r' & R & D' & Le);
        [now rewrite G | lia |].
      exists r'. repeat split; [assumption | assumption | lia].
  - destruct H as (_ & C & Dn). exists r1. rewrite (Y r1 Dn), C.
    repeat split; [assumption | lia].
Qed.
End RunFacts.

Module DerivationFacts.
Import JSString MatcherTerms Runner Behaviour RunnerTerms.

Lemma chained_snoc es : forall c e,
  chained c es ->
  (exists s, entry_statement e = Some s
             /\ entry_context e
                = replace (final_context c es) (Statement.from s)
                    (Statement.to s)) ->
  chained c (es ++ [e]).
Proof.
  induction es as [|e0 es IH]; intros c e C H; cbn [app chained].
  - split; [exact H | exact I].
  - destruct C as [C0 C]. split; [exact C0|]. apply IH; assumption.
Qed.

Lemma final_context_snoc c es e :
  final_context c (es ++ [e]) = entry_context e.
Proof. unfold final_context. now rewrite fold_left_app. Qed.

Lemma derivation_rewritten initial r s :
  derivation initial r -> derivation initial (rewritten r s).
Proof.
  intros (es & E & C & F). unfold derivation. cbn [rewritten steps context].
  exists (es ++ [mkEntry (replace (context r) (Statement.from s)
                            (Statement.to s)) (Some s)]).
  rewrite E, final_context_snoc. repeat split.
  apply chained_snoc; [assumption|]. exists s. now rewrite F.
Qed.

Section Host.
Variable search : jsstring -> jsstring -> completion Z.

Lemma derivation_step initial r :
  derivation initial r -> derivation initial (snd (step search r)).
Proof.
  intros H. destruct (done r) eqn:D.
  - now rewrite (RunnerFacts.step_done search r D).
  - assert (N : steps r <> [])
      by (destruct H as (es & E & _); rewrite E; discriminate).
    destruct (RunnerFacts.step_running search r D)
      as [_ | pre s post _ _ _ | pre s post e _ _ _];
      rewrite (RunnerFacts.opened_nonempty r N); cbn [snd].
    + exact H.
    + apply (derivation_rewritten initial r s) in H.
      now destruct (Statement.closing s).
    + exact H.
Qed.

Lemma derivation_first a initial :
  derivation initial (snd (step search (new a initial))).
Proof.
  assert (H : derivation initial (opened (new a initial)))
    by (exists []; repeat split).
  destruct (RunnerFacts.step_running search (new a initial) eq_refl)
    as [_ | pre s post _ _ _ | pre s post e _ _ _]; cbn [snd].
  - exact H.
  - apply (derivation_rewritten initial _ s) in H.
    now destruct (Statement.closing s).
  - exact H.
Qed.

Lemma derivation_drive initial cs : forall r,
  derivation initial r -> derivation initial (snd (drive search cs r)).
Proof.
  induction cs as [|[| |a] cs IH]; intros r H; cbn [drive].
  - exact H.
  - pose proof (derivation_step initial r H) as H'.
    destruct (step search r) as [c r1]. cbn [snd] in H'.
    specialize (IH r1 H'). now destruct (drive search cs r1).
  - apply IH. exact H.
  - apply IH. exact H.
Qed.
End Host.
End DerivationFacts.

(** ** Facts about a statement applied without an occurrence *)

Module IdleFacts.
Import JSString MatcherTerms Runner Behaviour RunnerTerms.

Lemma replace_absent c p s : indexOf c p = None -> replace c p s = c.
Proof. intros E. unfold replace. now rewrite E. Qed.

Section Host.
Variable search : jsstring -> jsstring -> completion Z.

(** The first statement, when [search] finds its pattern, is the one
    applied. *)
Lemma step_head r s l :
  done r = false ->
  Algorithm.statements (algorithm r) = s :: l ->
  applicable search (context r) s = true ->
  step search r
  = (Normal (Some s),
     if Statement.closing s then stop (rewritten (opened r) s)
     else rewritten (opened r) s).
Proof.
  intros D E A.
  destruct (RunnerFacts.step_running search r D)
    as [N | pre q post E' N A' | pre q post e E' N A']; rewrite E in *.
  - unfold none_applicable in N. cbn [forallb] in N. rewrite A in N.
    discriminate.
  - destruct pre as [|p pre]; cbn [app] in E'.
    + now injection E' as <- _.
    + injection E' as <- _. unfold none_applicable in N.
      cbn [forallb] in N. rewrite A in N. discriminate.
  - destruct pre as [|p pre]; cbn [app] in E'.
    + injection E' as <- _. unfold applicable in A. rewrite A' in A.
      discriminate.
    + injection E' as <- _. unfold none_applicable in N.
      cbn [forallb] in N. rewrite A in N. discriminate.
Qed.

Lemma run_loop_idle s l fuel : forall r,
  done r = false ->
  Algorithm.statements (algorithm r) = s :: l ->
  applicable search (context r) s = true ->
  indexOf (context r) (Statement.from s) = None ->
  Statement.closing s = false ->
  run_loop search fuel r = None.
Proof.
  induction fuel as [|fuel IH]; intros r D E A I C; cbn [run_loop];
    rewrite D; [reflexivity|].
  rewrite (step_head r s l D E A), C.
  assert (X : context (rewritten (opened r) s) = context r).
  { cbn [rewritten context]. rewrite RunnerFacts.opened_context.
    now apply replace_absent. }
  apply IH.
  - cbn [rewritten done]. now rewrite RunnerFacts.opened_done.
  - cbn [rewritten algorithm]. now rewrite RunnerFacts.opened_algorithm.
  - now rewrite X.
  - now rewrite X.
  - exact C.
Qed.
End Host.
End IdleFacts.

(** ** Markov.Statement *)

Module StatementProperties.
Import JSString MatcherTerms Statement Grammar StatementTerms.

(** X1: [Statement.regexpEscape] writes every code unit of the text in
    turn, with a backslash before it when it is in the class
    [[-{}()*+?.,\\^$|#\s]] and as it is otherwise.  The result is longer
    than the text by the number of code units in the class; a text
    without any of them is returned as it is. *)
Theorem regexpEscape_escapes_each_unit text :
  regexpEscape text = flat_map escape_unit text
  /\ length (regexpEscape text)
     = length text + length (filter escaped text)
  /\ (forallb (fun c => negb (escaped c)) text = true ->
      regexpEscape text = text).
Proof.
  rewrite EscapeFacts.regexpEscape_units. split; [reflexivity|].
  split; [apply EscapeFacts.length_units|].
  apply EscapeFacts.units_unescaped.
Qed.

(** X2: searching for an escaped pattern is searching for the
    pattern as a string.  For a pattern [p] without [-], [,], [#], white
    space and square brackets, [s.search(Statement.regexpEscape(p))] is
    the index of the first occurrence of [p] in [s], and -1 when there
    is none. *)
Theorem search_after_regexpEscape s p :
  forallb escapable p = true ->
  search s (regexpEscape p) = Normal (found (indexOf s p)).
Proof.
  intros P. unfold search, RegExpCreate.
  rewrite EscapeFacts.regexpEscape_units,
    (EscapeFacts.parse_escaped p None [] P).
  cbn [close_atom rev app].
  pose proof (JSStringFacts.exec_from_plain s p (length s) 0 eq_refl) as H.
  unfold Regex.exec. cbn [skipn] in H.
  destruct (Regex.exec_from s _ 0 (length s)) as [[i y]|];
    destruct (indexOf s p); cbn in H; cbn [found]; congruence.
Qed.

Lemma search_after_regexpEscape_witness :
  search (js "xa+b") (regexpEscape (js "a+b")) = Normal 1%Z.
Proof.
  apply (search_after_regexpEscape (js "xa+b") (js "a+b")). reflexivity.
Defined.

(** X23: escaping loses nothing: two texts have the same escaped
    form only when they are the same text. *)
Theorem regexpEscape_injective a b :
  regexpEscape a = regexpEscape b <-> a = b.
Proof.
  split; [|now intros ->].
  rewrite !EscapeFacts.regexpEscape_units.
  apply EscapeFacts.units_injective.
Qed.

(** X3: the constructor stores each side without its first two
    markers [!], wherever they stand, and keeps every other code unit in
    its place; it checks nothing.  A side with more than two markers is
    stored with the others left in it. *)
Theorem constructor_strips_first_two_markers f s c :
  let r := new f s c in
  from r = remove_first Chars.bang (remove_first Chars.bang f)
  /\ to r = remove_first Chars.bang (remove_first Chars.bang s)
  /\ closing r = c
  /\ markers (from r) = markers f - 2
  /\ markers (to r) = markers s - 2
  /\ unmarked (from r) = unmarked f
  /\ unmarked (to r) = unmarked s.
Proof.
  cbn [new from to closing].
  rewrite ConstructorFacts.setFrom_setTo,
    !ConstructorFacts.setTo_remove_first.
  rewrite !ConstructorFacts.markers_remove_first,
    !ConstructorFacts.unmarked_remove_first.
  repeat split; lia.
Qed.

(** X4: the sides of a statement made by [compile] are words: the
    pattern and the replacement hold no white space, no [!] and no
    [.]. *)
Theorem compile_stores_words text r :
  compile text = Compiled r -> word (from r) /\ word (to r).
Proof. apply ConstructorFacts.compile_words. Qed.

Lemma compile_stores_words_witness :
  word (js "a") /\ word (js "b").
Proof.
  apply (compile_stores_words (js "a -> b") (mk (js "a") (js "b") false)).
  vm_compute. reflexivity.
Defined.

(** X5: which error [compile] throws.  'Invalid statement' when
    the text reads as no sentence at all; otherwise, on the reading with
    the longest left side: 'no LHS' when the left side is empty; 'no
    RHS' when the left side is not empty and the right side is; 'LHS
    contains two empty word denominators' when the left side is [!!] and
    the right side is not empty; 'RHS contains two empty word
    denominators' when the right side is [!!] and the left side is
    neither empty nor [!!]. *)
Theorem compile_error_cases text :
  (compile text = Throws InvalidStatement
   <-> ~ exists L k R, Sentence text L k R)
  /\ (compile text = Throws NoLHS <-> exists k R, Reads text [] k R)
  /\ (compile text = Throws NoRHS
      <-> exists L k, Reads text L k [] /\ L <> [])
  /\ (compile text = Throws DoubleEmptyLHS
      <-> exists k R, Reads text doubled k R /\ R <> [])
  /\ (compile text = Throws DoubleEmptyRHS
      <-> exists L k, Reads text L k doubled /\ L <> [] /\ L <> doubled).
Proof.
  destruct (ConstructorFacts.read_or_not text) as [(L & k & R & Rd) | N].
  - pose proof (ConstructorFacts.compile_read text L k R Rd) as C.
    assert (U : forall L' k' R', Reads text L' k' R' ->
                L' = L /\ k' = k /\ R' = R)
      by (intros; now apply (ReadingFacts.Reads_unique text)).
    assert (S : exists L k R, Sentence text L k R)
      by (exists L, k, R; apply Rd).
    assert (D : doubled <> []) by discriminate.
    destruct L as [|a L]; [|destruct R as [|b R]];
      cbn [length Nat.ltb Nat.leb] in C;
      [| |destruct (jsstring_eqb (a :: L) doubled) eqn:E1;
          [apply StatementFacts.jsstring_eqb_eq in E1; rewrite E1 in *
          |apply StatementFacts.jsstring_eqb_neq in E1;
           destruct (jsstring_eqb (b :: R) doubled) eqn:E2;
           [apply StatementFacts.jsstring_eqb_eq in E2; rewrite E2 in *
           |apply StatementFacts.jsstring_eqb_neq in E2]]];
      rewrite C; repeat split;
      try (intros H; discriminate H);
      try (intros H; now destruct (H S));
      try (intros _; reflexivity);
      try (intros _; eauto; fail);
      try (intros _; do 2 eexists; split; [exact Rd | discriminate]);
      try (intros _; do 2 eexists;
           split; [exact Rd | split; [discriminate | assumption]]);
      try (intros (x & y & Rd'); destruct (U _ _ _ Rd') as (? & ? & ?);
           congruence);
      try (intros (x & y & Rd' & ?); destruct (U _ _ _ Rd') as (? & ? & ?);
           congruence);
      try (intros (x & y & Rd' & ? & ?);
           destruct (U _ _ _ Rd') as (? & ? & ?); congruence).
  - rewrite (ConstructorFacts.compile_unread text N).
    repeat split; auto; try discriminate.
    + intros (k & R & [S _]). destruct N. eauto.
    + intros (L & k & [S _] & _). destruct N. eauto.
    + intros (k & R & [S _] & _). destruct N. eauto.
    + intros (L & k & [S _] & _). destruct N. eauto.
Qed.

(** X6: white space before and after a text, line terminators
    included, changes nothing for [compile]: it returns the same
    statement, or throws the same error. *)
Theorem compile_ignores_outer_space u v text :
  spaces u -> spaces v -> compile (u ++ text ++ v) = compile text.
Proof.
  intros U V. unfold compile.
  now rewrite (PaddingFacts.REGEX_exec_padded u v text U V).
Qed.

Lemma compile_ignores_outer_space_witness :
  compile (js "  " ++ js "a ->. b" ++ js " ") = compile (js "a ->. b").
Proof.
  apply (compile_ignores_outer_space (js "  ") (js " ") (js "a ->. b"));
    reflexivity.
Defined.

(** X7: [compile] gives back a statement from what [toString]
    writes of it exactly when both sides of the statement are words.  A
    statement made by the constructor with white space, [!] or [.] left
    in a side does not come back. *)
Theorem toString_compiles_back_exactly_words r :
  compile (toString r) = Compiled r <-> word (from r) /\ word (to r).
Proof.
  split.
  - apply ConstructorFacts.compile_words.
  - intros [F S]. destruct r as [wf wt c].
    now apply StatementFacts.compile_toString.
Qed.
End StatementProperties.

(** ** Markov.Algorithm *)

Module AlgorithmProperties.
Import Algorithm ArrayFacts AlgorithmTerms.

(** X8: [addStatement] puts the statement in at one index and
    keeps every statement that was there, in the same order; the array
    is longer by one and [hasStatements] is true afterwards.  The index
    is the length when the position is left out or above the length, the
    position from 0 to the length, and the length plus the position, or
    0 when that is negative, below 0. *)
Theorem addStatement_keeps_order s position a :
  let l := statements a in
  let l' := statements (addStatement s position a) in
  exists k,
    k <= length l
    /\ l' = firstn k l ++ s :: skipn k l
    /\ match position with
       | None => k = length l
       | Some p =>
           if (p <? 0)%Z then k = Z.to_nat (Z.of_nat (length l) + p)
           else if (p <=? Z.of_nat (length l))%Z then k = Z.to_nat p
           else k = length l
       end
    /\ length l' = S (length l)
    /\ hasStatements (addStatement s position a) = true.
Proof.
  cbn zeta. destruct position as [p|].
  - exists (relative (length (statements a)) p).
    rewrite AlgorithmFacts.addStatement_at.
    split; [apply AlgorithmFacts.relative_le|].
    split; [reflexivity|]. unfold hasStatements.
    rewrite AlgorithmFacts.addStatement_at, length_inserted.
    repeat split. unfold relative.
    destruct (Z.ltb_spec p 0); [lia|].
    destruct (Z.leb_spec p (Z.of_nat (length (statements a)))); lia.
  - exists (length (statements a)). unfold hasStatements.
    cbn [addStatement statements].
    rewrite firstn_all, skipn_all, length_app. cbn [length].
    repeat split; try lia. apply Nat.ltb_lt. lia.
Qed.

(** X9: after [addStatement(s, p)] with [p] from 0 to the length,
    [getStatement(p)] is [s], the statements before [p] are where they
    were, and every statement from [p] on is one index further. *)
Theorem addStatement_then_getStatement s p a :
  (0 <= p <= Z.of_nat (length (statements a)))%Z ->
  let a' := addStatement s (Some p) a in
  getStatement p a' = Some s
  /\ (forall q, (q < p)%Z -> getStatement q a' = getStatement q a)
  /\ (forall q, (p <= q)%Z -> getStatement (q + 1) a' = getStatement q a).
Proof.
  intros H a'. subst a'. unfold getStatement.
  rewrite (AlgorithmFacts.addStatement_inside s p a H).
  assert (K : Z.to_nat p <= length (statements a)) by lia.
  repeat split.
  - destruct (Z.ltb_spec p 0); [lia|]. rewrite nth_inserted by assumption.
    rewrite Nat.ltb_irrefl, Nat.eqb_refl. reflexivity.
  - intros q Q. destruct (Z.ltb_spec q 0); [reflexivity|].
    rewrite nth_inserted by assumption.
    destruct (Nat.ltb_spec (Z.to_nat q) (Z.to_nat p)); [reflexivity | lia].
  - intros q Q. destruct (Z.ltb_spec (q + 1) 0); [lia|].
    destruct (Z.ltb_spec q 0); [lia|].
    rewrite nth_inserted by assumption.
    destruct (Nat.ltb_spec (Z.to_nat (q + 1)) (Z.to_nat p)); [lia|].
    destruct (Nat.eqb_spec (Z.to_nat (q + 1)) (Z.to_nat p)); [lia|].
    f_equal. lia.
Qed.

Lemma addStatement_then_getStatement_witness :
  getStatement 1 (addStatement third (Some 1%Z) (mk [first; second]))
  = Some third.
Proof.
  apply (addStatement_then_getStatement third 1 (mk [first; second])).
  cbn. lia.
Defined.

(** X10: [removeStatement] at the ends.  With the position left
    out, or at or above the last index, it returns the last statement
    and leaves the others; with a position below 0 it returns the first
    statement and leaves the others; on an empty array it returns
    [undefined] and leaves the array empty, and it returns [undefined]
    on no other array. *)
Theorem removeStatement_at_the_ends position a :
  (forall l x, statements a = l ++ [x] ->
     (position = None
      \/ exists p, position = Some p /\ (Z.of_nat (length l) <= p)%Z) ->
     removeStatement position a = (Some x, mk l))
  /\ (forall x l p, statements a = x :: l ->
        position = Some p -> (p < 0)%Z ->
        removeStatement position a = (Some x, mk l))
  /\ (statements a = [] -> removeStatement position a = (None, mk []))
  /\ (fst (removeStatement position a) = None <-> hasStatements a = false).
Proof.
  destruct a as [l0]. cbn [statements]. repeat split.
  - intros l x -> H. now apply AlgorithmFacts.removeStatement_last.
  - intros x l p -> -> H. cbn [removeStatement statements].
    destruct (Z.leb_spec (Z.of_nat (length (x :: l)) - 1) p);
      [cbn [length] in *; lia|].
    now destruct (Z.ltb_spec p 0); [|lia].
  - intros ->. apply AlgorithmFacts.removeStatement_empty.
  - destruct l0 as [|x l]; [reflexivity|]. intros H. exfalso.
    revert H. unfold removeStatement. cbn [statements].
    assert (P : fst (let (y, l1) := pop (x :: l) in (y, mk l1)) <> None).
    { pose proof (pop_nonempty x l) as N.
      destruct (pop (x :: l)) as [y l1]. exact N. }
    destruct position as [p|]; [|exact P].
    destruct (Z.leb_spec (Z.of_nat (length (x :: l)) - 1) p); [exact P|].
    destruct (Z.ltb_spec p 0); [discriminate|]. cbn [fst].
    apply nth_error_Some. cbn [length] in *. lia.
  - destruct l0 as [|x l]; [|discriminate]. intros _.
    now rewrite AlgorithmFacts.removeStatement_empty.
Qed.

(** X11: [removeStatement(p)] with [p] from 0 to below the last
    index returns the statement at [p], and leaves the first [p]
    statements followed by the first [p + 1] statements: [2 p + 1]
    statements, with the one returned still among them as the last, and
    none of those that stood after [p]. *)
Theorem removeStatement_between_the_ends p a :
  (0 <= p < Z.of_nat (length (statements a)) - 1)%Z ->
  let l := statements a in
  let l' := statements (snd (removeStatement (Some p) a)) in
  fst (removeStatement (Some p) a) = getStatement p a
  /\ fst (removeStatement (Some p) a) <> None
  /\ l' = firstn (Z.to_nat p) l ++ firstn (Z.to_nat p + 1) l
  /\ length l' = 2 * Z.to_nat p + 1
  /\ nth_error l' (Z.to_nat p) = nth_error l 0
  /\ nth_error l' (2 * Z.to_nat p) = getStatement p a.
Proof.
  intros H. cbn zeta.
  rewrite (AlgorithmFacts.removeStatement_inner p a H).
  cbn [fst snd statements]. unfold getStatement.
  destruct (Z.ltb_spec p 0); [lia|].
  assert (L1 : length (firstn (Z.to_nat p) (statements a)) = Z.to_nat p)
    by (apply firstn_length_le; lia).
  assert (L2 : length (firstn (Z.to_nat p + 1) (statements a))
               = Z.to_nat p + 1)
    by (apply firstn_length_le; lia).
  repeat split.
  - apply nth_error_Some. lia.
  - rewrite length_app, L1, L2. lia.
  - rewrite nth_error_app2, L1, Nat.sub_diag, nth_error_firstn by lia.
    now destruct (Nat.ltb_spec 0 (Z.to_nat p + 1)); [|lia].
  - rewrite nth_error_app2, L1, nth_error_firstn by lia.
    replace (2 * Z.to_nat p - Z.to_nat p) with (Z.to_nat p) by lia.
    now destruct (Nat.ltb_spec (Z.to_nat p) (Z.to_nat p + 1)); [|lia].
Qed.

Lemma removeStatement_between_the_ends_witness :
  statements (snd (removeStatement (Some 1%Z) three))
  = [first; first; second].
Proof.
  destruct (removeStatement_between_the_ends 1 three ltac:(cbn; lia))
    as (_ & _ & E & _).
  exact E.
Defined.

(** X12: what [addStatement] puts at an end, [removeStatement]
    takes back.  A statement added with the position left out or at or
    above the length is returned by [removeStatement] with the position
    left out or at or above that length; a statement added at position
    0, or at or below minus the length, is returned by [removeStatement]
    with a position below 0; the algorithm is then as it was. *)
Theorem addStatement_then_removeStatement s a :
  let n := Z.of_nat (length (statements a)) in
  (forall p q,
     (p = None \/ exists z, p = Some z /\ (n <= z)%Z) ->
     (q = None \/ exists z, q = Some z /\ (n <= z)%Z) ->
     removeStatement q (addStatement s p a) = (Some s, a))
  /\ (forall p q,
        (p = 0 \/ p <= - n)%Z -> (q < 0)%Z ->
        removeStatement (Some q) (addStatement s (Some p) a) = (Some s, a)).
Proof.
  cbn zeta. split.
  - intros p q P Q.
    assert (E : addStatement s p a = mk (statements a ++ [s])).
    { rewrite <- (eta (addStatement s p a)). f_equal.
      destruct P as [-> | (z & -> & Z)]; [reflexivity|].
      now apply AlgorithmFacts.addStatement_beyond. }
    rewrite E, AlgorithmFacts.removeStatement_last by assumption.
    now rewrite eta.
  - intros p q P Q.
    assert (E : addStatement s (Some p) a = mk (s :: statements a)).
    { rewrite <- (eta (addStatement s (Some p) a)). f_equal.
      rewrite AlgorithmFacts.addStatement_at.
      replace (relative (length (statements a)) p) with 0
        by (unfold relative; destruct (Z.ltb_spec p 0); lia).
      reflexivity. }
    rewrite E. cbn [removeStatement statements].
    destruct (Z.leb_spec (Z.of_nat (length (s :: statements a)) - 1) q);
      [cbn [length] in *; lia|].
    destruct (Z.ltb_spec q 0); [|lia]. cbn [shift]. now rewrite eta.
Qed.

(** X13: [setStatement(s, p)] with [p] from 0 to the length
    returns what [getStatement(p)] returned before; afterwards
    [getStatement(p)] is [s] and [getStatement] is as before at every
    other position.  The array keeps its length, and grows by one when
    [p] is the length. *)
Theorem setStatement_then_getStatement s p a :
  (0 <= p <= Z.of_nat (length (statements a)))%Z ->
  exists a',
    setStatement s p a = Some (getStatement p a, a')
    /\ getStatement p a' = Some s
    /\ (forall q, q <> p -> getStatement q a' = getStatement q a)
    /\ length (statements a')
       = Nat.max (length (statements a)) (Z.to_nat p + 1).
Proof.
  intros H. rewrite (setStatement_inside s p a H). unfold getStatement.
  destruct (Z.ltb_spec p 0); [lia|].
  eexists. split; [reflexivity|]. cbn [statements].
  assert (K : Z.to_nat p <= length (statements a)) by lia.
  repeat split.
  - rewrite nth_replaced by assumption. now rewrite Nat.eqb_refl.
  - intros q Q. destruct (Z.ltb_spec q 0); [reflexivity|].
    rewrite nth_replaced by assumption.
    destruct (Nat.eqb_spec (Z.to_nat q) (Z.to_nat p)); [lia | reflexivity].
  - now apply length_replaced.
Qed.

Lemma setStatement_then_getStatement_witness :
  exists a',
    setStatement third 1 (mk [first; second])
    = Some (getStatement 1 (mk [first; second]), a')
    /\ getStatement 1 a' = Some third
    /\ (forall q, q <> 1%Z ->
        getStatement q a' = getStatement q (mk [first; second]))
    /\ length (statements a') = 2.
Proof.
  apply (setStatement_then_getStatement third 1 (mk [first; second])).
  cbn. lia.
Defined.

(** X14: [setStatement] is undone by putting back the statement
    it returned: when [setStatement(s, p)] returns the statement [old],
    [setStatement(old, p)] on the result returns [s] and leaves the
    algorithm as it was at first. *)
Theorem setStatement_undone s p a old a' :
  setStatement s p a = Some (Some old, a') ->
  setStatement old p a' = Some (Some s, a).
Proof.
  intros H.
  assert (R : (0 <= p <= Z.of_nat (length (statements a)))%Z).
  { destruct (Z.le_gt_cases 0 p);
      [destruct (Z.le_gt_cases p (Z.of_nat (length (statements a))))|];
      [lia | |]; rewrite setStatement_outside in H by lia; discriminate. }
  rewrite (setStatement_inside s p a R) in H.
  assert (E : nth_error (statements a) (Z.to_nat p) = Some old)
    by congruence.
  assert (E' : a' = mk (firstn (Z.to_nat p) (statements a)
                          ++ s :: skipn (S (Z.to_nat p)) (statements a)))
    by congruence.
  assert (I : Z.to_nat p < length (statements a))
    by (apply nth_error_Some; congruence).
  subst a'. rewrite setStatement_inside; cbn [statements].
  - rewrite nth_replaced, Nat.eqb_refl by lia.
    rewrite (replaced_twice (statements a) s old (Z.to_nat p) E).
    now rewrite eta.
  - rewrite length_replaced by lia. lia.
Qed.

Lemma setStatement_undone_witness :
  setStatement second 1 (mk [first; third])
  = Some (Some third, mk [first; second]).
Proof.
  apply (setStatement_undone third 1 (mk [first; second]) second
           (mk [first; third])).
  reflexivity.
Defined.
End AlgorithmProperties.

(** ** Markov.Runner *)

Module RunnerProperties.
Import JSString MatcherTerms Runner Behaviour RunnerTerms RunFacts.
Import IdleFacts.

(** X15: a runner that is done stays as it is.  [step] returns
    [null] and [run] returns [false] without any change, and no calls of
    [step] and [stop], nor changes of the algorithm, apply a statement,
    change the context or the steps, or make the runner run again. *)
Theorem stopped_runner_is_inert search r cs fuel :
  done r = true ->
  step search r = (Normal None, r)
  /\ run search fuel r = Some (Normal false, r)
  /\ fst (drive search cs r) = 0
  /\ context (snd (drive search cs r)) = context r
  /\ steps (snd (drive search cs r)) = steps r
  /\ done (snd (drive search cs r)) = true.
Proof.
  intros D. split; [now apply RunnerFacts.step_done|].
  split; [unfold run; now rewrite D|]. now apply stop_drive.
Qed.

Lemma stopped_runner_is_inert_witness :
  context
    (snd (drive search [CallStep; CallStop; CallStep] closing_example_done))
  = js "b".
Proof.
  apply (stopped_runner_is_inert search closing_example_done
           [CallStep; CallStop; CallStep] 3).
  reflexivity.
Defined.

(** X16: when [run] returns on a runner that was not done, it
    returns [true], the runner is done and has the algorithm it had, and
    either [search] finds the pattern of no statement in the final
    context, or the last step holds the final context and a closing
    statement of the algorithm. *)
Theorem run_ends_in_normal_form search fuel r b r' :
  done r = false ->
  run search fuel r = Some (Normal b, r') ->
  b = true
  /\ done r' = true
  /\ algorithm r' = algorithm r
  /\ (none_applicable search (context r')
        (Algorithm.statements (algorithm r))
      \/ exists s,
           In s (Algorithm.statements (algorithm r))
           /\ Statement.closing s = true
           /\ hd_error (rev (steps r'))
              = Some (mkEntry (context r') (Some s))).
Proof.
  intros D. unfold run. rewrite D.
  destruct (run_loop search fuel r) as [[[[]|e] r1]|] eqn:E;
    [|discriminate|discriminate].
  intros [= <- <-]. split; [reflexivity|].
  now apply (run_loop_end search fuel).
Qed.

Lemma run_ends_in_normal_form_witness :
  done closing_example_done = true
  /\ algorithm closing_example_done = algorithm closing_example.
Proof.
  destruct (run_ends_in_normal_form search 2 closing_example true
              closing_example_done eq_refl eq_refl) as (_ & A & B & _).
  exact (conj A B).
Defined.

(** X17: on a new runner in whose context [search] finds the
    pattern of no statement, as on one with an empty algorithm, [step]
    returns [null] and [run] returns [true]; the runner is done, its
    context is the initial one, and its steps hold the initial entry
    alone. *)
Theorem run_without_match search a c fuel :
  Forall (fun s => search c (Statement.from s) = Normal (-1)%Z)
         (Algorithm.statements a) ->
  step search (new a c) = (Normal None, halted_at_once a c)
  /\ run search (S fuel) (new a c)
     = Some (Normal true, halted_at_once a c).
Proof.
  intros F.
  assert (S : step search (new a c) = (Normal None, halted_at_once a c)).
  { unfold step. cbn [done new steps length Nat.ltb Nat.leb context
                        algorithm app].
    unfold Algorithm.getStatements.
    destruct (scan_misses search c (Algorithm.statements a) None
                (mk c a [mkEntry c None] false) eq_refl F) as (last & ->).
    reflexivity. }
  split; [exact S|]. unfold run. cbn [done new run_loop].
  fold (new a c). rewrite S. destruct fuel; reflexivity.
Qed.

Lemma run_without_match_witness :
  run search 1 (new (algorithm_of [js "z -> y"]) (js "abc"))
  = Some (Normal true,
          halted_at_once (algorithm_of [js "z -> y"]) (js "abc")).
Proof.
  apply (run_without_match search (algorithm_of [js "z -> y"]) (js "abc") 0).
  repeat constructor.
Defined.

(** X18: [run] does not return on a running runner whose first
    statement has the empty pattern and is not closing: the loop of
    [run] has not ended after any number of iterations. *)
Theorem empty_pattern_never_halts r s l fuel :
  done r = false ->
  Algorithm.statements (algorithm r) = s :: l ->
  Statement.from s = [] ->
  Statement.closing s = false ->
  run JSString.search fuel r = None.
Proof.
  intros D E F C. unfold run. rewrite D.
  assert (X : run_loop search fuel r = None); [|now rewrite X].
  revert r D E. induction fuel as [|fuel IH]; intros r D E;
    cbn [run_loop]; rewrite D; [reflexivity|].
  destruct (PlainFacts.step_empty_pattern r s l D E F) as (A & _ & _ & B).
  pose proof (step_algorithm search r) as G.
  destruct (step JSString.search r) as [c r1]. cbn [fst snd] in *. subst c.
  apply IH; congruence.
Qed.

Lemma empty_pattern_never_halts_witness :
  run JSString.search 7 growing_example = None.
Proof.
  apply (empty_pattern_never_halts growing_example
           (Statement.mk [] (js "x") false) [] 7); reflexivity.
Defined.

(** X19: with statements whose patterns have no syntax character
    and whose replacements have no [$], a call of [step] on a running
    runner is a step of a Markov algorithm.  It never throws.  When no
    pattern occurs in the context it returns [null], leaves the context
    and stops.  Otherwise it returns the first statement whose pattern
    occurs, the new context is the old one with the leftmost occurrence
    of that pattern replaced by the replacement, and the runner is done
    exactly when the statement is closing. *)
Theorem literal_step_rewrites_leftmost r :
  done r = false ->
  let statements := Algorithm.statements (algorithm r) in
  Forall literal statements ->
  match step JSString.search r with
  | (Normal None, r') =>
      (forall s, In s statements -> ~ occurs (Statement.from s) (context r))
      /\ context r' = context r /\ done r' = true
  | (Normal (Some s), r') =>
      exists pre post,
        statements = pre ++ s :: post
        /\ (forall q, In q pre -> ~ occurs (Statement.from q) (context r))
        /\ rewrites (context r) s (context r')
        /\ done r' = Statement.closing s
  | (Abrupt _, _) => False
  end.
Proof. intros D statements L. now apply step_literal. Qed.

Lemma literal_step_rewrites_leftmost_witness :
  rewrites (js "a") closing_statement (js "b").
Proof.
  assert (L : Forall literal
                (Algorithm.statements (algorithm closing_example)))
    by (repeat constructor).
  pose proof (literal_step_rewrites_leftmost closing_example eq_refl L) as H.
  vm_compute in H. destruct H as (pre & post & _ & _ & H & _). exact H.
Defined.

(** X20: [run] returns on every running runner whose statements
    are literal and have a replacement shorter than the pattern, after
    no more calls of [step] than the context has code units, and one
    more: it returns [true], the runner is done, and the context has not
    grown. *)
Theorem shrinking_algorithm_halts fuel r :
  done r = false ->
  Forall shrinking (Algorithm.statements (algorithm r)) ->
  length (context r) < fuel ->
  exists r',
    run JSString.search fuel r = Some (Normal true, r')
    /\ done r' = true
    /\ length (context r') <= length (context r).
Proof.
  intros D S F. destruct (run_loop_shrinking fuel r D S F)
    as (r' & R & D' & Le).
  exists r'. unfold run. rewrite D, R. auto.
Qed.

Lemma shrinking_algorithm_halts_witness :
  exists r',
    run JSString.search 3 shrinking_example = Some (Normal true, r')
    /\ done r' = true
    /\ length (context r') <= 2.
Proof.
  apply (shrinking_algorithm_halts 3 shrinking_example).
  - reflexivity.
  - repeat constructor.
  - cbn. lia.
Defined.

(** X21: the steps of a runner are a derivation.  After a first
    call of [step] on a new runner, and any calls of [step] and [stop]
    and changes of the algorithm after it, the steps begin with the
    initial context and no statement, every later entry holds a
    statement and the context [replace] makes with it of the context of
    the entry before, and the context of the last entry is the context
    of the runner. *)
Theorem steps_are_a_derivation search a initial cs :
  derivation initial (snd (drive search (CallStep :: cs) (new a initial))).
Proof.
  cbn [drive].
  pose proof (DerivationFacts.derivation_first search a initial) as H.
  destruct (step search (new a initial)) as [c r1]. cbn [snd] in H.
  pose proof (DerivationFacts.derivation_drive search initial cs r1 H) as H'.
  now destruct (drive search cs r1).
Qed.

(** X22: a statement is applied without being there.  When
    [search] finds the pattern of the first statement in a context in
    which the pattern does not occur as a string, as it does for the
    pattern [a*] in the context [b], [step] returns the statement and
    pushes a step for it, and the context stays as it was; when the
    statement is not closing, [run] does not return. *)
Theorem applied_without_occurrence search r s l fuel :
  done r = false ->
  Algorithm.statements (algorithm r) = s :: l ->
  applicable search (context r) s = true ->
  indexOf (context r) (Statement.from s) = None ->
  fst (step search r) = Normal (Some s)
  /\ context (snd (step search r)) = context r
  /\ steps (snd (step search r))
     = steps (opened r) ++ [mkEntry (context r) (Some s)]
  /\ done (snd (step search r)) = Statement.closing s
  /\ (Statement.closing s = false -> run search fuel r = None).
Proof.
  intros D E A I. rewrite (step_head search r s l D E A). cbn [fst snd].
  assert (X : replace (context (opened r)) (Statement.from s)
                (Statement.to s) = context r).
  { rewrite RunnerFacts.opened_context. now apply replace_absent. }
  repeat split.
  - destruct (Statement.closing s); cbn; exact X.
  - destruct (Statement.closing s); cbn; now rewrite X.
  - destruct (Statement.closing s); cbn; [reflexivity|].
    now rewrite RunnerFacts.opened_done.
  - intros C. unfold run. rewrite D.
    now rewrite (run_loop_idle search s l fuel r D E A I C).
Qed.

Lemma applied_without_occurrence_witness :
  run JSString.search 9 idle_example = None.
Proof.
  destruct (applied_without_occurrence JSString.search idle_example
              (Statement.mk (js "a*") (js "x") false) [] 9
              eq_refl eq_refl eq_refl eq_refl) as (_ & _ & _ & _ & H).
  exact (H eq_refl).
Defined.

(** X24: a closing statement at the head of the algorithm whose
    pattern [search] finds ends the run with the first step: [run]
    returns [true], the context is what [replace] makes of the initial
    one, and the steps hold the initial entry and the entry of the
    statement. *)
Theorem closing_head_ends_the_run search a c s l fuel :
  Algorithm.statements a = s :: l ->
  applicable search c s = true ->
  Statement.closing s = true ->
  let c' := replace c (Statement.from s) (Statement.to s) in
  run search (S fuel) (new a c)
  = Some (Normal true,
          mk c' a [mkEntry c None; mkEntry c' (Some s)] true).
Proof.
  intros E A C c'. unfold run. cbn [done new run_loop]. fold (new a c).
  rewrite (step_head search (new a c) s l eq_refl E A), C.
  destruct fuel; reflexivity.
Qed.

Lemma closing_head_ends_the_run_witness :
  run JSString.search 1 closing_example
  = Some (Normal true, closing_example_done).
Proof.
  apply (closing_head_ends_the_run JSString.search
           (Algorithm.mk [closing_statement]) (js "a") closing_statement
           [] 0); reflexivity.
Defined.
End RunnerProperties.
